(** * load_llm_qna: a wide-to-long loader of question/answer sheets into SQLite

    A shallow embedding of [load_llm_qna.py] and the properties of its text
    normaliser, its reshaping step and its three upsert phases.

    Conventions of the embedding.
    - A Python [str] is the list of its Unicode code points ([list N]).
    - Python values that reach [clean_text], and the labels of a frame, are
      [None], a [str], or some other object (a float, an int, ...), which is
      carried together with the text that [str()] renders for it.
    - The answer of a long record is a text, [None], or the float NaN, which
      pandas keeps for a missing value in a column it takes for texts.
    - A Python [dict] from text to row id is a [gmap (list N) Z].
    - The SQLite store is a record of three tables, each the list of its rows
      in rowid order; a statement is a function on the store.
    - Python exceptions are results: a call yields the store it leaves behind
      and either the value it returns or the exception it raises. What
      pandas and the csv module raise themselves is one exception,
      [LibraryError], whatever its class. *)

From Stdlib Require Import List NArith ZArith Bool Lia Ascii String.
From stdpp Require Import base option list gmap.
Import ListNotations.

Set Default Proof Using "Type".

(** ** Text *)

Module Text.

Local Open Scope N_scope.

Definition str := list N.

(** A literal of the source, written in ASCII. *)
Definition lit (s : string) : str := List.map N_of_ascii (list_ascii_of_string s).

Definition TAB : N := 0x09.
Definition LF : N := 0x0A.
Definition CR : N := 0x0D.
Definition SPACE : N := 0x20.
Definition NBSP : N := 0xA0.

(** [str.isspace] for one code point: the table [_PyUnicode_IsWhitespace]. *)
Definition isspace (c : N) : bool :=
  ((0x09 <=? c) && (c <=? 0x0D)) || ((0x1C <=? c) && (c <=? 0x1F))
  || (c =? 0x20) || (c =? 0x85) || (c =? 0xA0) || (c =? 0x1680)
  || ((0x2000 <=? c) && (c <=? 0x200A))
  || (c =? 0x2028) || (c =? 0x2029) || (c =? 0x202F) || (c =? 0x205F)
  || (c =? 0x3000).

(** The line boundaries of [str.splitlines]: the table
    [_PyUnicode_IsLinebreak]. *)
Definition islinebreak (c : N) : bool :=
  ((0x0A <=? c) && (c <=? 0x0D)) || ((0x1C <=? c) && (c <=? 0x1E))
  || (c =? 0x85) || (c =? 0x2028) || (c =? 0x2029).

(** [s.replace(old, new)] for one-character [old] and [new]. *)
Definition replace (old new : N) (s : str) : str :=
  List.map (fun c => if c =? old then new else c) s.

(** [s.splitlines()]: the pieces between line boundaries, boundaries
    removed; a boundary at the very end opens no further (empty) line. *)
Fixpoint splitlines (s : str) : list str :=
  match s with
  | [] => []
  | c :: rest =>
      if islinebreak c then
        [] :: match rest with
              | c2 :: rest2 =>
                  if (c =? CR) && (c2 =? LF) then splitlines rest2
                  else splitlines rest
              | [] => []
              end
      else
        match splitlines rest with
        | [] => [[c]]
        | l :: ls => (c :: l) :: ls
        end
  end.

(** [sep.join(ls)] *)
Fixpoint join (sep : str) (ls : list str) : str :=
  match ls with
  | [] => []
  | l :: rest =>
      match rest with
      | [] => l
      | _ :: _ => l ++ sep ++ join sep rest
      end
  end.

(** [s.lstrip()] *)
Fixpoint lstrip (s : str) : str :=
  match s with
  | [] => []
  | c :: rest => if isspace c then lstrip rest else s
  end.

(** [s.rstrip()]: the shortest prefix after which only whitespace follows. *)
Fixpoint rstrip (s : str) : str :=
  match s with
  | [] => []
  | c :: rest =>
      match rstrip rest with
      | [] => if isspace c then [] else [c]
      | r => c :: r
      end
  end.

(** [s.strip()] *)
Definition strip (s : str) : str := rstrip (lstrip s).

(** A Python value as [clean_text] sees it. *)
Inductive value : Type :=
  | VNone
  | VStr (s : str)
  | VObj (rendered : str).

#[export] Instance value_eq_dec : EqDecision value.
Proof. solve_decision. Defined.

(** [str(v)] *)
Definition py_str (v : value) : str :=
  match v with
  | VNone => lit "None"
  | VStr s => s
  | VObj rendered => rendered
  end.

Definition of_option (o : option str) : value :=
  match o with
  | None => VNone
  | Some s => VStr s
  end.

(** [clean_text] *)
Definition clean_text (v : value) : option str :=
  match v with
  | VNone => None
  | _ =>
      let s := py_str v in
      let s := replace NBSP SPACE (replace CR LF s) in
      let s := join [LF] (List.map rstrip (splitlines s)) in
      let s := strip s in
      match s with
      | [] => None
      | _ :: _ => Some s
      end
  end.

(** *** Auxiliary notions for reasoning about [clean_text] *)

(** The lines of a text whose leading whitespace is stripped: blank leading
    lines go, the first remaining line loses its leading whitespace. *)
Fixpoint ltrim_lines (ls : list str) : list str :=
  match ls with
  | [] => []
  | l :: r => match lstrip l with [] => ltrim_lines r | l' => l' :: r end
  end.

(** The lines of a text whose trailing empty lines are removed. *)
Fixpoint rtrim_lines (ls : list str) : list str :=
  match ls with
  | [] => []
  | l :: r =>
      match rtrim_lines r with
      | [] => match l with [] => [] | _ :: _ => [l] end
      | r' => l :: r'
      end
  end.

(** A list of lines whose last line, if any, is not empty. *)
Fixpoint closed (ls : list str) : Prop :=
  match ls with
  | [] => True
  | l :: r => match r with [] => l <> [] | _ :: _ => closed r end
  end.

(** A line as [clean_text] leaves it: no line boundary, no non-breaking
    space, no trailing whitespace. *)
Definition clean_line (l : str) : Prop :=
  Forall (fun c => islinebreak c = false /\ c <> NBSP) l /\ rstrip l = l.

End Text.

Import Text.

(** ** Results and exceptions *)

(** The exceptions the modelled code can meet. [ValueError] is what
    [read_table] raises itself; [LibraryError] stands for whatever pandas or
    the csv module raises, while it reads a file or while it reshapes the
    frame (a [ValueError] of its own included: its message is never one of
    the two of [read_table]). *)
Inductive exn : Type :=
  | KeyError (key : option str)
  | IntegrityError
  | ValueError (message : str)
  | LibraryError.

Inductive outcome (A : Type) : Type :=
  | Returned (a : A)
  | Raised (e : exn).
Arguments Returned {A} a.
Arguments Raised {A} e.

Definition bind {A B} (x : outcome A) (f : A -> outcome B) : outcome B :=
  match x with
  | Returned a => f a
  | Raised e => Raised e
  end.

Notation "'let!' x ':=' e1 'in' e2" := (bind e1 (fun x => e2))
  (at level 10, x name, e1 at level 100, e2 at level 200).

(** The result of a call into the parsing library: [None] when it raised. *)
Definition from_library {A} (r : option A) : outcome A :=
  match r with
  | Some a => Returned a
  | None => Raised LibraryError
  end.

(** ** The SQLite store *)

Module Store.

(** A reading of the clock, [dt.datetime.utcnow()]. *)
Definition timestamp := Z.

Record question_row : Type := {
  q_id : Z;
  q_text : str;
  q_created_at : timestamp
}.

Record model_row : Type := {
  m_id : Z;
  m_name : str
}.

Record answer_row : Type := {
  a_id : Z;
  a_question_id : Z;
  a_model_id : Z;
  a_answer_text : str;
  a_tokens_used : option Z;
  a_latency_ms : option Z;
  a_created_at : timestamp
}.

(** The three tables the loader writes, rows in rowid order. The tables
    [themes] and [question_themes] and the full-text shadow of [questions]
    are never read or written by the load path and are left out. *)
Record db : Type := {
  questions : list question_row;
  models : list model_row;
  answers : list answer_row
}.

Definition empty_db : db := {| questions := []; models := []; answers := [] |}.

(** [create_schema]: every statement of the script is [CREATE ... IF NOT
    EXISTS]. On a new database file ([None]) it leaves empty tables; on a
    store that has them it changes nothing. The flag [with_fts] only decides
    on the full-text shadow, which is not part of [db]. *)
Definition create_schema (con : option db) : db :=
  match con with
  | None => empty_db
  | Some d => d
  end.

(** The rowid SQLite gives a new row of an [INTEGER PRIMARY KEY] table: 1 in
    an empty table, else one more than the largest rowid in use. *)
Definition next_rowid (ids : list Z) : Z :=
  match ids with
  | [] => 1%Z
  | i :: rest => (fold_right Z.max i rest + 1)%Z
  end.

(** [INSERT OR IGNORE INTO models(name) VALUES (?)] *)
Definition insert_or_ignore_model (name : str) (d : db) : db :=
  if existsb (fun r => bool_decide (m_name r = name)) (models d) then d
  else {| questions := questions d;
          models := models d ++
            [{| m_id := next_rowid (List.map m_id (models d)); m_name := name |}];
          answers := answers d |}.

(** [INSERT OR IGNORE INTO questions(text, created_at) VALUES (?, ?)] *)
Definition insert_or_ignore_question (q : str) (now : timestamp) (d : db) : db :=
  if existsb (fun r => bool_decide (q_text r = q)) (questions d) then d
  else {| questions := questions d ++
            [{| q_id := next_rowid (List.map q_id (questions d));
                q_text := q; q_created_at := now |}];
          models := models d;
          answers := answers d |}.

(** The order of Python's [str]: by code point, a proper prefix first. *)
Fixpoint str_ltb (a b : str) : bool :=
  match a, b with
  | _, [] => false
  | [], _ :: _ => true
  | x :: a', y :: b' => (x <? y)%N || ((x =? y)%N && str_ltb a' b')
  end.

Fixpoint insert_sorted (x : str) (l : list str) : list str :=
  match l with
  | [] => [x]
  | y :: rest =>
      if bool_decide (x = y) then l
      else if str_ltb x y then x :: l
      else y :: insert_sorted x rest
  end.

(** [sorted(set(names))] *)
Definition sorted_set (names : list str) : list str :=
  fold_right insert_sorted [] names.

(** [upsert_model_ids] *)
Definition upsert_model_ids (d : db) (model_names : list str) : db * gmap str Z :=
  let d' :=
    fold_left (fun d name =>
                 match name with
                 | [] => d
                 | _ :: _ => insert_or_ignore_model name d
                 end)
              (sorted_set model_names) d in
  (d', fold_left (fun model_map r => <[m_name r := m_id r]> model_map) (models d') ∅).

(** [upsert_questions]; [now] is the clock reading taken on entry. *)
Definition upsert_questions (d : db) (qs : list str) (now : timestamp)
  : db * gmap str Z :=
  let d' := fold_left (fun d q => insert_or_ignore_question q now d) qs d in
  (d', fold_left (fun qid_map r => <[q_text r := q_id r]> qid_map) (questions d') ∅).

(** The value of a field of a long record, as Python sees it: [None], the
    float NaN, or a text. *)
Inductive field : Type :=
  | FNone
  | FNaN
  | FStr (s : str).

(** A field that is a text or [None]. *)
Definition text_field (o : option str) : field :=
  match o with
  | None => FNone
  | Some s => FStr s
  end.

(** A long record: one (question, model, answer) cell of the sheet.
    [question_text] and [model_name] are a text or [None]. [answer_text] can
    also be the float NaN: it is what pandas keeps for a missing answer when
    it takes the column for one of texts, and the question and model columns
    never hold a missing value when the records are made ([read_table] drops
    the rows without question text and renders the model names with
    [astype(str)]). *)
Record long_record : Type := {
  question_text : option str;
  model_name : option str;
  answer_text : field
}.

(** Python truth of a field: [None] and the empty text are false; NaN is a
    float other than zero, which is true. *)
Definition truthy (v : field) : bool :=
  match v with
  | FNone => false
  | FNaN => true
  | FStr [] => false
  | FStr (_ :: _) => true
  end.

(** [notna] on the answer of a record: neither [None] nor NaN. *)
Definition has_answer (r : long_record) : bool :=
  match answer_text r with
  | FStr _ => true
  | _ => false
  end.

(** [mapping[key]] *)
Definition subscript (mapping : gmap str Z) (key : option str) : outcome Z :=
  match key with
  | None => Raised (KeyError None)
  | Some k =>
      match mapping !! k with
      | Some v => Returned v
      | None => Raised (KeyError key)
      end
  end.

Definition same_pair (qid mid : Z) (r : answer_row) : bool :=
  (a_question_id r =? qid)%Z && (a_model_id r =? mid)%Z.

(** [DO UPDATE SET answer_text=excluded.answer_text,
    created_at=excluded.created_at] on the row in conflict. *)
Definition do_update_set (text : str) (now : timestamp) (r : answer_row) : answer_row :=
  {| a_id := a_id r;
     a_question_id := a_question_id r;
     a_model_id := a_model_id r;
     a_answer_text := text;
     a_tokens_used := a_tokens_used r;
     a_latency_ms := a_latency_ms r;
     a_created_at := now |}.

(** The row [INSERT INTO answers(question_id, model_id, answer_text,
    created_at) VALUES (?, ?, ?, ?)] adds. *)
Definition new_answer (d : db) (qid mid : Z) (text : str) (now : timestamp) : answer_row :=
  {| a_id := next_rowid (List.map a_id (answers d));
     a_question_id := qid;
     a_model_id := mid;
     a_answer_text := text;
     a_tokens_used := None;
     a_latency_ms := None;
     a_created_at := now |}.

(** The statement of [insert_or_update_answers]: an insert that, on a
    conflict with [UNIQUE(question_id, model_id)], updates the row in
    conflict instead. [answer_text] is [NOT NULL], and SQLite stores both
    [None] and the float NaN as NULL; with foreign keys on, a new row must
    refer to an existing question and an existing model. *)
Definition execute_upsert (d : db) (qid mid : Z) (a : field) (now : timestamp)
  : db * outcome unit :=
  match a with
  | FNone | FNaN => (d, Raised IntegrityError)
  | FStr text =>
      if existsb (same_pair qid mid) (answers d) then
        ({| questions := questions d;
            models := models d;
            answers :=
              List.map (fun r => if same_pair qid mid r
                                 then do_update_set text now r else r)
                       (answers d) |},
         Returned tt)
      else if existsb (fun r => (q_id r =? qid)%Z) (questions d)
              && existsb (fun r => (m_id r =? mid)%Z) (models d) then
        ({| questions := questions d;
            models := models d;
            answers := answers d ++ [new_answer d qid mid text now] |},
         Returned tt)
      else (d, Raised IntegrityError)
  end.

(** The loop of [insert_or_update_answers], [n] being its counter. *)
Fixpoint answers_loop (d : db) (rows : list long_record)
    (qid_map model_map : gmap str Z) (now : timestamp) (n : nat)
  : db * outcome nat :=
  match rows with
  | [] => (d, Returned n)
  | r :: rest =>
      let q := question_text r in
      let m := model_name r in
      let a := answer_text r in
      if negb (truthy (text_field q) && truthy (text_field m) && truthy a) then
        answers_loop d rest qid_map model_map now n
      else
        match subscript qid_map q with
        | Raised e => (d, Raised e)
        | Returned qid =>
            match subscript model_map m with
            | Raised e => (d, Raised e)
            | Returned mid =>
                match execute_upsert d qid mid a now with
                | (d', Raised e) => (d', Raised e)
                | (d', Returned _) =>
                    answers_loop d' rest qid_map model_map now (S n)
                end
            end
        end
  end.

(** [insert_or_update_answers]; [now] is the clock reading taken on entry. *)
Definition insert_or_update_answers (d : db) (rows : list long_record)
    (qid_map model_map : gmap str Z) (now : timestamp) : db * outcome nat :=
  answers_loop d rows qid_map model_map now 0.

(** [series.dropna()] on a column of texts. *)
Fixpoint dropna (l : list (option str)) : list str :=
  match l with
  | [] => []
  | None :: rest => dropna rest
  | Some x :: rest => x :: dropna rest
  end.

(** [series.unique()]: the distinct values in order of first appearance. *)
Fixpoint unique_from (seen : list str) (l : list str) : list str :=
  match l with
  | [] => []
  | x :: rest =>
      if bool_decide (x ∈ seen) then unique_from seen rest
      else x :: unique_from (x :: seen) rest
  end.

Definition unique (l : list str) : list str := unique_from [] l.

(** The load branch of [main], from the schema to the commit. It yields the
    store as committed and the three counts printed; when a phase raises,
    the connection is closed without a commit and the upserts are lost. *)
Definition load (con : option db) (long_df : list long_record)
    (now_questions now_answers : timestamp) : db * outcome (nat * nat * nat) :=
  let d := create_schema con in
  let model_names := unique (dropna (List.map model_name long_df)) in
  let '(d1, model_map) := upsert_model_ids d model_names in
  let qs := unique (dropna (List.map question_text long_df)) in
  let '(d2, qid_map) := upsert_questions d1 qs now_questions in
  match insert_or_update_answers d2 long_df qid_map model_map now_answers with
  | (d3, Returned n) => (d3, Returned (size qid_map, size model_map, n))
  | (_, Raised e) => (d, Raised e)
  end.

(** *** Auxiliary notions for reasoning about the upsert phases *)

(** The guard of the loop: all three fields are true for Python. *)
Definition guard (r : long_record) : bool :=
  truthy (text_field (question_text r)) && truthy (text_field (model_name r))
  && truthy (answer_text r).

(** The (question id, model id) pair the two dictionaries give a record. *)
Definition resolve (qid_map model_map : gmap str Z) (r : long_record)
  : option (Z * Z) :=
  match subscript qid_map (question_text r), subscript model_map (model_name r) with
  | Returned qid, Returned mid => Some (qid, mid)
  | _, _ => None
  end.

Definition pair_of (row : answer_row) : Z * Z := (a_question_id row, a_model_id row).

(** The answer of a record when it is a text. *)
Definition answer_of (r : long_record) : option str :=
  match answer_text r with
  | FStr t => Some t
  | _ => None
  end.

(** A record that writes to the pair [p]: it passes the guard with a text
    for answer and resolves to [p]. *)
Definition hits (qid_map model_map : gmap str Z) (p : Z * Z) (r : long_record) : bool :=
  guard r && has_answer r && bool_decide (resolve qid_map model_map r = Some p).

(** The answer text of the last record of the batch that hits [p]. *)
Fixpoint last_write (qid_map model_map : gmap str Z) (rows : list long_record)
    (p : Z * Z) : option str :=
  match rows with
  | [] => None
  | r :: rest =>
      match last_write qid_map model_map rest p with
      | Some t => Some t
      | None => if hits qid_map model_map p r then answer_of r else None
      end
  end.

(** An answer row is matched by a batch when some record of it hits the
    row's pair. *)
Definition matched (qid_map model_map : gmap str Z) (rows : list long_record)
    (row : answer_row) : bool :=
  existsb (hits qid_map model_map (pair_of row)) rows.

Definition set_created_at (now : timestamp) (r : answer_row) : answer_row :=
  {| a_id := a_id r;
     a_question_id := a_question_id r;
     a_model_id := a_model_id r;
     a_answer_text := a_answer_text r;
     a_tokens_used := a_tokens_used r;
     a_latency_ms := a_latency_ms r;
     a_created_at := now |}.

(** What a returning run of the loop makes of a row that was there. *)
Definition touch (qid_map model_map : gmap str Z) (rows : list long_record)
    (now : timestamp) (row : answer_row) : answer_row :=
  match last_write qid_map model_map rows (pair_of row) with
  | Some t => do_update_set t now row
  | None => row
  end.

(** The stores a sequence of calls of the loader's phases can produce from
    a new database file. *)
Inductive reachable : db -> Prop :=
  | reach_new : reachable (create_schema None)
  | reach_schema d : reachable d -> reachable (create_schema (Some d))
  | reach_models d names :
      reachable d -> reachable (fst (upsert_model_ids d names))
  | reach_questions d qs now :
      reachable d -> reachable (fst (upsert_questions d qs now))
  | reach_answers d rows qid_map model_map now :
      reachable d ->
      reachable (fst (insert_or_update_answers d rows qid_map model_map now)).

End Store.

Import Store.

(** ** The table reader *)

Module Frame.

(** A column of a pandas frame: its label and its cells from top to bottom.
    A label is a text, or another object (the number or the date of a
    spreadsheet header) carried with the text [str()] renders for it; two
    labels that are not texts are equal when they render alike. *)
Definition column : Type := value * list value.

(** A frame: its columns from left to right, all of the same height. The
    frames the parsing library returns have pairwise distinct labels (a
    repeated header [m] is read as [m], [m.1], ...). *)
Definition DataFrame : Type := list column.

Definition labels (df : DataFrame) : list value := List.map fst df.

(** [len(df)] *)
Definition nrows (df : DataFrame) : nat :=
  match df with
  | [] => 0
  | c :: _ => length (snd c)
  end.

Definition QUESTION_TEXT : value := VStr (lit "question_text").
Definition ANSWER_TEXT : value := VStr (lit "answer_text").

(** [s.lower()] on ASCII letters. No other code point lowers to a character
    of [.xlsx], [.xls] or [.csv], so the tests of [read_table] on the
    lowered suffix are decided as Python decides them. *)
Definition lower (s : str) : str :=
  List.map (fun c => if (0x41 <=? c)%N && (c <=? 0x5A)%N then (c + 0x20)%N else c) s.

(** The question column: [question_col] when it is given, non-empty and a
    label of the frame, else the first column. [question_col] is a text, so
    it is a label of the frame only when a label is that very text: a label
    that is a number is not, even when it renders alike. *)
Definition question_column (df : DataFrame) (question_col : option str) : value :=
  match question_col with
  | Some (c :: qc) =>
      if bool_decide (VStr (c :: qc) ∈ labels df) then VStr (c :: qc)
      else hd (VStr []) (labels df)
  | _ => hd (VStr []) (labels df)
  end.

(** [df.rename(columns={qcol: "question_text"})] *)
Definition rename (qcol : value) (df : DataFrame) : DataFrame :=
  List.map (fun c => (if bool_decide (fst c = qcol) then QUESTION_TEXT else fst c, snd c)) df.

(** [df["question_text"]] *)
Definition question_cells (df : DataFrame) : list value :=
  match List.find (fun c => bool_decide (fst c = QUESTION_TEXT)) df with
  | Some c => snd c
  | None => []
  end.

(** [df["question_text"] = df["question_text"].apply(clean_text)] *)
Definition clean_questions (df : DataFrame) : DataFrame :=
  List.map (fun c => if bool_decide (fst c = QUESTION_TEXT)
                     then (fst c, List.map (fun v => of_option (clean_text v)) (snd c))
                     else c) df.

(** [isna] on a cell that [clean_text] produced. *)
Definition isna (v : value) : bool :=
  match v with
  | VNone => true
  | _ => false
  end.

(** The cells of a column on the rows a mask keeps. *)
Fixpoint select (mask : list bool) (cells : list value) : list value :=
  match mask, cells with
  | keep :: mask', v :: cells' =>
      if keep then v :: select mask' cells' else select mask' cells'
  | _, _ => []
  end.

(** [df.dropna(subset=["question_text"])] *)
Definition dropna_questions (df : DataFrame) : DataFrame :=
  let mask := List.map (fun v => negb (isna v)) (question_cells df) in
  List.map (fun c => (fst c, select mask (snd c))) df.

(** [[c for c in df.columns if c != "question_text"]], with their cells. *)
Definition model_columns (df : DataFrame) : list column :=
  List.filter (fun c => negb (bool_decide (fst c = QUESTION_TEXT))) df.

(** The three columns of [df.melt(id_vars=["question_text"],
    value_vars=model_cols, var_name="model_name", value_name="answer_text")]:
    the identifier column is the question column tiled once per model
    column, the variable column repeats each model label once per row, the
    value column is the model columns laid end to end. *)
Definition melt_id (df : DataFrame) : list value :=
  concat (repeat (question_cells df) (length (model_columns df))).

Definition melt_variable (df : DataFrame) : list value :=
  flat_map (fun c => repeat (fst c) (nrows df)) (model_columns df).

Definition melt_value (df : DataFrame) : list value :=
  concat (List.map snd (model_columns df)).

(** The text in a cell of the question column after [clean_text]. *)
Definition as_text (v : value) : option str :=
  match v with
  | VNone => None
  | VStr s => Some s
  | VObj rendered => Some rendered
  end.

(** The table as melted: question column chosen, renamed and normalised,
    rows without question text dropped. *)
Definition prepare (df : DataFrame) (question_col : option str) : DataFrame :=
  dropna_questions (clean_questions (rename (question_column df question_col) df)).

(** What pandas keeps in the answer column where [clean_text] returned
    [None]: [None] itself when it takes the column for one of objects, the
    float NaN when it takes it for one of texts. Which of the two depends on
    the version of pandas and on the other cells of the column; it is the
    same for all the cells of one call. *)
Inductive na_value : Type :=
  | AsNone
  | AsNaN.

Definition missing (na : na_value) : field :=
  match na with
  | AsNone => FNone
  | AsNaN => FNaN
  end.

(** A cell of the answer column after [apply(clean_text)]. *)
Definition answer_cell (na : na_value) (o : option str) : field :=
  match o with
  | Some t => FStr t
  | None => missing na
  end.

(** The rows of the melted frame after
    [long_df["model_name"].astype(str).str.strip()] and
    [long_df["answer_text"].apply(clean_text)]. *)
Definition long_rows (na : na_value) (df : DataFrame) : list long_record :=
  List.map (fun row => {| question_text := as_text (fst row);
                          model_name := Some (strip (py_str (fst (snd row))));
                          answer_text := answer_cell na (clean_text (snd (snd row))) |})
           (combine (melt_id df) (combine (melt_variable df) (melt_value df))).

(** The long records [read_table] makes of a frame that pandas reshapes:
    lines 194 to 218 without the exceptions of pandas. *)
Definition reshape (na : na_value) (df : DataFrame) (question_col : option str)
    (keep_empty_answers : bool) : list long_record :=
  let long_df := long_rows na (prepare df question_col) in
  if negb keep_empty_answers then List.filter has_answer long_df else long_df.

(** [read_table] from the loaded frame on: the frame has at least two
    columns. pandas raises a [ValueError] of its own when the rename leaves
    two columns with one label (a column other than the question column is
    labelled [question_text]: the assignment to [df["question_text"]] is
    refused), and when a column is labelled [answer_text] ([melt] refuses a
    [value_name] that is a label of the frame). *)
Definition read_frame (na : na_value) (df : DataFrame) (question_col : option str)
    (keep_empty_answers : bool) : outcome (list long_record) :=
  let renamed := rename (question_column df question_col) df in
  if negb (bool_decide (NoDup (labels renamed))) then Raised LibraryError
  else if bool_decide (ANSWER_TEXT ∈ labels renamed) then Raised LibraryError
  else Returned (reshape na df question_col keep_empty_answers).

(** The frames [read_table] reshapes: at least two columns, all of the same
    height, and none of the two exceptions of pandas. *)
Definition in_domain (df : DataFrame) (question_col : option str) : bool :=
  (2 <=? length df)%nat
  && forallb (fun c => (length (snd c) =? nrows df)%nat) df
  && bool_decide (NoDup (labels (rename (question_column df question_col) df)))
  && negb (bool_decide (ANSWER_TEXT ∈ labels (rename (question_column df question_col) df))).

(** [pd.read_excel]'s [sheet_name]: an index or a name. *)
Inductive sheet_selector : Type :=
  | SheetIndex (i : Z)
  | SheetName (name : str).

Definition UNSUPPORTED (suffix : str) : str := lit "Unsupported file type: " ++ suffix.

Definition TOO_FEW_COLUMNS : str :=
  lit "Expected at least 2 columns: [question, model1, model2, ...]".

(** The file types [read_table] reads, by lowered suffix. *)
Definition supported (sfx : str) : bool :=
  bool_decide (sfx ∈ [lit ".xlsx"; lit ".xls"; lit ".csv"]).

Section Reader.

(** The file system and the parsing library. *)
Variable na : na_value.
Variable path : Type.
(** [path.suffix] *)
Variable suffix : path -> str.
(** [pd.read_excel(path, sheet_name=...)] *)
Variable read_excel : path -> sheet_selector -> option DataFrame.
(** The first 4096 characters of the file. *)
Variable read_sample : path -> option str.
(** [csv.Sniffer().has_header(sample)] and [csv.Sniffer().sniff(sample).delimiter] *)
Variable has_header : str -> option bool.
Variable sniff_delimiter : str -> option str.
(** [pd.read_csv(path, delimiter=..., encoding="utf-8", engine="python")] *)
Variable read_csv : path -> str -> option DataFrame.

(** The first statement of [read_table]: the frame, by file type. *)
Definition load_frame (p : path) (sheet : option sheet_selector) : outcome DataFrame :=
  let sfx := lower (suffix p) in
  if bool_decide (sfx ∈ [lit ".xlsx"; lit ".xls"]) then
    from_library (read_excel p (match sheet with
                                | Some sh => sh
                                | None => SheetIndex 0
                                end))
  else if bool_decide (sfx = lit ".csv") then
    let! sample := from_library (read_sample p) in
    let! header := from_library (has_header sample) in
    let! delimiter := (if header : bool then from_library (sniff_delimiter sample)
                       else Returned (lit ",")) in
    from_library (read_csv p delimiter)
  else Raised (ValueError (UNSUPPORTED (suffix p))).

(** [read_table] *)
Definition read_table (p : path) (sheet : option sheet_selector)
    (question_col : option str) (keep_empty_answers : bool)
  : outcome (list long_record) :=
  let! df := load_frame p sheet in
  if (length df <? 2)%nat then Raised (ValueError TOO_FEW_COLUMNS)
  else read_frame na df question_col keep_empty_answers.

End Reader.

(** *** The order of the long records *)

(** The record of row [i] and model column [j] of a prepared table. *)
Definition cell_record (na : na_value) (table : DataFrame) (i j : nat) : long_record :=
  let c := nth j (model_columns table) (VStr [], []) in
  {| question_text := as_text (nth i (question_cells table) VNone);
     model_name := Some (strip (py_str (fst c)));
     answer_text := answer_cell na (clean_text (nth i (snd c) VNone)) |}.

(** The order the specification words: row by row, and within a row the
    model columns from left to right. *)
Definition row_major_order (na : na_value) (df : DataFrame) (question_col : option str)
  : Prop :=
  let table := prepare df question_col in
  let R := nrows table in
  let C := length (model_columns table) in
  forall i j, i < R -> j < C ->
    nth_error (reshape na df question_col true) (i * C + j)
    = Some (cell_record na table i j).

(** The order of the code: model column by model column, and within a
    column the rows from top to bottom. *)
Definition column_major_order (na : na_value) (df : DataFrame) (question_col : option str)
  : Prop :=
  let table := prepare df question_col in
  let R := nrows table in
  let C := length (model_columns table) in
  forall i j, i < R -> j < C ->
    nth_error (reshape na df question_col true) (j * R + i)
    = Some (cell_record na table i j).

End Frame.

Import Frame.

(** ** Sample data: the scenario of the specification *)

Module Sample.

Definition q1 : str := lit "What is 2+2?".
Definition q2 : str := lit "Why?".
Definition gpt : str := lit "gpt".
Definition claude : str := lit "claude".

Definition record (q m a : str) : long_record :=
  {| question_text := Some q; model_name := Some m; answer_text := FStr a |}.

(** The three long records of the scenario, as [read_table] returns them. *)
Definition batch : list long_record :=
  [record q1 gpt (lit "Four"); record q1 claude (lit "It is 4");
   record q2 claude (lit "Because")].

(** A batch in which one (question, model) pair comes twice, and a record
    without answer text. *)
Definition batch_repeat : list long_record :=
  [record q1 gpt (lit "Four");
   {| question_text := Some q2; model_name := Some gpt; answer_text := FNone |};
   record q1 gpt (lit "4")].

(** The store after the model and question phases of a first load. *)
Definition resolved : db * gmap str Z * gmap str Z :=
  let '(d1, model_map) := upsert_model_ids (create_schema None) [gpt; claude] in
  let '(d2, qid_map) := upsert_questions d1 [q1; q2] 100%Z in
  (d2, qid_map, model_map).

Definition store : db := fst (fst resolved).
Definition qid_map : gmap str Z := snd (fst resolved).
Definition model_map : gmap str Z := snd resolved.

(** The sheet of the scenario: [question,gpt,claude], then
    [What is 2+2?,Four,It is 4] and [Why?, ,Because]. *)
Definition sheet : DataFrame :=
  [(VStr (lit "question"), [VStr q1; VStr q2]);
   (VStr gpt, [VStr (lit "Four"); VStr (lit " ")]);
   (VStr claude, [VStr (lit "It is 4"); VStr (lit "Because")])].


End Sample.


(** ** Further notions *)

Module Notions.

(** The characters of a text that are not whitespace, in order. *)
Definition nonws (s : str) : str := List.filter (fun c => negb (isspace c)) s.

(** The columns of an answer row that the loader never rewrites. *)
Definition stable_columns (row : answer_row) : Z * Z * Z * option Z * option Z :=
  (a_id row, a_question_id row, a_model_id row, a_tokens_used row, a_latency_ms row).

(** Python's [<] on [str], as a relation. *)
Definition str_lt (a b : str) : Prop := str_ltb a b = true.

(** A list of texts in strictly ascending order. *)
Fixpoint ascending (l : list str) : Prop :=
  match l with
  | [] => True
  | x :: rest => Forall (str_lt x) rest /\ ascending rest
  end.

(** The counter of the loop moved by [k]. *)
Definition shift_count (k : nat) (r : db * outcome nat) : db * outcome nat :=
  match r with
  | (d, Returned n) => (d, Returned (k + n))
  | (d, Raised e) => (d, Raised e)
  end.

(** Two calls of [insert_or_update_answers] in a row, on the two halves of
    a batch: the second runs on the store the first leaves, unless the first
    raised. *)
Definition then_answers (first : db * outcome nat)
    (post : list long_record) (qid_map model_map : gmap str Z) (now : timestamp)
  : db * outcome nat :=
  match first with
  | (d1, Returned n1) =>
      shift_count n1 (insert_or_update_answers d1 post qid_map model_map now)
  | (d1, Raised e) => (d1, Raised e)
  end.




(** [bool(name)] for a text: the empty text is false. *)
Definition non_empty (name : str) : bool :=
  match name with
  | [] => false
  | _ :: _ => true
  end.

(** The ids [1, 2, ..., k]. *)
Definition first_ids (k : nat) : list Z := List.map Z.of_nat (seq 1 k).

(** The (question text, model name) pair of a long record. *)
Definition text_pair (r : long_record) : option str * option str :=
  (question_text r, model_name r).

(** The ids the two dictionaries give a (question text, model name) pair. *)
Definition resolve_pair (qid_map model_map : gmap str Z)
    (tp : option str * option str) : option (Z * Z) :=
  match subscript qid_map (fst tp), subscript model_map (snd tp) with
  | Returned qid, Returned mid => Some (qid, mid)
  | _, _ => None
  end.

(** The [UNIQUE] constraints on [questions.text] and [models.name]. *)
Definition unique_texts (d : db) : Prop :=
  List.NoDup (List.map q_text (questions d))
  /\ List.NoDup (List.map m_name (models d)).

(** The [PRIMARY KEY] constraints of the three tables. *)
Definition unique_ids (d : db) : Prop :=
  List.NoDup (List.map q_id (questions d))
  /\ List.NoDup (List.map m_id (models d))
  /\ List.NoDup (List.map a_id (answers d)).

(** The [REFERENCES] constraints of [answers]. *)
Definition references_hold (d : db) : Prop :=
  Forall (fun row => In (a_question_id row) (List.map q_id (questions d))
                     /\ In (a_model_id row) (List.map m_id (models d)))
         (answers d).

End Notions.

Import Notions.

(** ** Facts about the text primitives *)

Section TextFacts.

Local Open Scope N_scope.

Lemma islinebreak_isspace c : islinebreak c = true -> isspace c = true.
Proof.
  unfold islinebreak, isspace.
  rewrite !orb_true_iff, !andb_true_iff, !N.leb_le, !N.eqb_eq. lia.
Qed.

Lemma isspace_LF : isspace LF = true.
Proof. reflexivity. Qed.

Lemma replace_absent old new s : ~ In old s -> replace old new s = s.
Proof.
  induction s as [|c s IH]; simpl; intros Hn; [reflexivity|].
  destruct (N.eqb_spec c old) as [->|_]; [tauto|].
  f_equal. apply IH. tauto.
Qed.

Lemma replace_Forall old new s :
  old <> new -> Forall (fun c => c <> old) (replace old new s).
Proof.
  intros Hne. induction s as [|c s IH]; simpl; constructor; auto.
  destruct (N.eqb_spec c old); congruence.
Qed.

Lemma replace_preserves (Q : N -> Prop) old new s :
  Q new -> Forall Q s -> Forall Q (replace old new s).
Proof.
  intros Hn. induction 1; simpl; constructor; auto.
  destruct (x =? old); assumption.
Qed.

(** *** [lstrip] and [rstrip] *)

Lemma lstrip_app a b :
  lstrip (a ++ b) = match lstrip a with [] => lstrip b | a' => a' ++ b end.
Proof.
  induction a as [|c a IH]; simpl; [reflexivity|].
  destruct (isspace c); [exact IH | reflexivity].
Qed.

Lemma lstrip_Forall (Q : N -> Prop) s : Forall Q s -> Forall Q (lstrip s).
Proof.
  induction 1 as [|c s Hc Hs IH]; simpl; [constructor|].
  destruct (isspace c); [exact IH | constructor; assumption].
Qed.

Lemma lstrip_head s :
  match lstrip s with [] => True | c :: _ => isspace c = false end.
Proof.
  induction s as [|c s IH]; simpl; [exact I|].
  destruct (isspace c) eqn:E; [exact IH | exact E].
Qed.

Lemma rstrip_cons c s :
  rstrip (c :: s) =
  match rstrip s with [] => if isspace c then [] else [c] | r => c :: r end.
Proof. reflexivity. Qed.

Lemma rstrip_app a b :
  rstrip (a ++ b) = match rstrip b with [] => rstrip a | b' => a ++ b' end.
Proof.
  induction a as [|c a IH]; simpl.
  - destruct (rstrip b); reflexivity.
  - rewrite IH. destruct (rstrip b) as [|x b']; [reflexivity|].
    destruct a; reflexivity.
Qed.

Lemma rstrip_idem s : rstrip (rstrip s) = rstrip s.
Proof.
  induction s as [|c s IH]; simpl; [reflexivity|].
  destruct (rstrip s) as [|x r] eqn:E.
  - destruct (isspace c) eqn:Ec; simpl; [reflexivity|]. rewrite Ec. reflexivity.
  - rewrite rstrip_cons, IH. reflexivity.
Qed.

Lemma rstrip_Forall (Q : N -> Prop) s : Forall Q s -> Forall Q (rstrip s).
Proof.
  induction 1 as [|c s Hc Hs IH]; simpl; [constructor|].
  destruct (rstrip s).
  - destruct (isspace c); constructor; auto.
  - constructor; assumption.
Qed.

(** A string that [rstrip] leaves alone keeps that property when its head
    is removed or its leading whitespace is stripped. *)
Lemma rstrip_fix_tail c s : rstrip (c :: s) = c :: s -> rstrip s = s.
Proof.
  simpl. destruct (rstrip s) as [|x r].
  - destruct (isspace c); [discriminate|]. intros H. injection H as <-. reflexivity.
  - intros H. injection H as <-. reflexivity.
Qed.

Lemma rstrip_fix_lstrip s : rstrip s = s -> rstrip (lstrip s) = lstrip s.
Proof.
  induction s as [|c s IH]; intros H; [reflexivity|].
  simpl lstrip. destruct (isspace c); [|exact H].
  apply IH. eapply rstrip_fix_tail. exact H.
Qed.

Lemma lstrip_fix_rstrip s : lstrip s = s -> lstrip (rstrip s) = rstrip s.
Proof.
  destruct s as [|c s]; [reflexivity|]. intros H.
  pose proof (lstrip_head (c :: s)) as Hh. rewrite H in Hh.
  rewrite rstrip_cons. destruct (rstrip s); rewrite ?Hh; simpl; rewrite Hh; reflexivity.
Qed.

(** [rstrip] is [lstrip] seen from the other end. *)
Lemma rstrip_rev s : rstrip s = rev (lstrip (rev s)).
Proof.
  induction s as [|c s IH]; [reflexivity|].
  assert (Hl : lstrip (rev s) = rev (rstrip s))
    by (rewrite IH, rev_involutive; reflexivity).
  simpl rev. rewrite lstrip_app, Hl, rstrip_cons.
  destruct (rstrip s) as [|x r].
  - simpl. destruct (isspace c); reflexivity.
  - destruct (rev (x :: r)) as [|y t] eqn:E.
    + apply (f_equal (@length N)) in E. rewrite length_rev in E. discriminate.
    + rewrite <- E, rev_app_distr, rev_involutive. reflexivity.
Qed.

Example splitlines_examples :
  splitlines [] = []
  /\ splitlines (lit "a" ++ [LF]) = [lit "a"]
  /\ splitlines (lit "a" ++ [LF; LF]) = [lit "a"; []]
  /\ splitlines ([LF] ++ lit "a") = [[]; lit "a"]
  /\ splitlines (lit "a" ++ [CR; LF] ++ lit "b") = [lit "a"; lit "b"]
  /\ splitlines (lit "a" ++ [LF; CR] ++ lit "b") = [lit "a"; []; lit "b"]
  /\ splitlines (lit "a" ++ [0x2028] ++ lit "b c") = [lit "a"; lit "b c"].
Proof. repeat split; reflexivity. Qed.

Example strip_examples :
  rstrip (lit " a b " ++ [TAB; NBSP]) = lit " a b"
  /\ lstrip ([LF; SPACE] ++ lit "a ") = lit "a "
  /\ strip (lit "  " ++ [LF]) = []
  /\ join [LF] [lit "a"; []; lit "b"] = lit "a" ++ [LF; LF] ++ lit "b".
Proof. repeat split; reflexivity. Qed.

Lemma lstrip_idem s : lstrip (lstrip s) = lstrip s.
Proof.
  induction s as [|c s IH]; simpl; [reflexivity|].
  destruct (isspace c) eqn:E; [exact IH|]. simpl. rewrite E. reflexivity.
Qed.

Lemma strip_idem s : strip (strip s) = strip s.
Proof.
  unfold strip. rewrite lstrip_fix_rstrip by apply lstrip_idem.
  apply rstrip_idem.
Qed.


(** *** [splitlines] and [join] *)

Lemma str_ind2 (P : list N -> Prop) :
  P [] -> (forall c rest, P rest -> P (tl rest) -> P (c :: rest)) ->
  forall s, P s.
Proof.
  intros H0 Hstep s.
  enough (P s /\ P (tl s)) by tauto.
  induction s as [|c s [IH1 IH2]]; simpl; auto.
Qed.

Lemma splitlines_Forall (Q : N -> Prop) s :
  Forall Q s ->
  Forall (Forall (fun c => Q c /\ islinebreak c = false)) (splitlines s).
Proof.
  induction s as [|c rest IH1 IH2] using str_ind2; intros HQ; [constructor|].
  inversion HQ as [|? ? Hc Hrest]; subst.
  assert (Htl : Forall Q (tl rest)) by (destruct rest; [constructor | inversion Hrest; assumption]).
  specialize (IH1 Hrest). specialize (IH2 Htl).
  simpl. destruct (islinebreak c) eqn:Eb.
  - constructor; [constructor|].
    destruct rest as [|c2 rest2]; [constructor|].
    destruct ((c =? CR) && (c2 =? LF)); assumption.
  - destruct (splitlines rest) as [|l ls]; inversion IH1; subst; repeat constructor; auto.
Qed.

Lemma splitlines_line_break l rest :
  Forall (fun c => islinebreak c = false) l ->
  splitlines (l ++ LF :: rest) = l :: splitlines rest.
Proof.
  induction 1 as [|c l Hc Hl IH]; simpl.
  - destruct rest; reflexivity.
  - rewrite Hc, IH. reflexivity.
Qed.

Lemma splitlines_single l :
  Forall (fun c => islinebreak c = false) l -> l <> [] -> splitlines l = [l].
Proof.
  induction 1 as [|c l Hc Hl IH]; intros Hne; [congruence|].
  simpl. rewrite Hc. destruct l as [|c2 l]; [reflexivity|].
  rewrite IH by discriminate. reflexivity.
Qed.

Lemma splitlines_join ls :
  Forall (Forall (fun c => islinebreak c = false)) ls -> closed ls ->
  splitlines (join [LF] ls) = ls.
Proof.
  induction 1 as [|l r Hl Hr IH]; intros Hc; [reflexivity|].
  destruct r as [|l2 r].
  - simpl in *. apply splitlines_single; assumption.
  - change (join [LF] (l :: l2 :: r)) with (l ++ LF :: join [LF] (l2 :: r)).
    rewrite splitlines_line_break by assumption.
    f_equal. apply IH. exact Hc.
Qed.

Lemma join_Forall (Q : N -> Prop) ls :
  Q LF -> Forall (Forall Q) ls -> Forall Q (join [LF] ls).
Proof.
  intros HLF. induction 1 as [|l r Hl Hr IH]; [constructor|].
  destruct r as [|l2 r]; [exact Hl|].
  change (join [LF] (l :: l2 :: r)) with (l ++ LF :: join [LF] (l2 :: r)).
  apply Forall_app; split; [exact Hl|]. constructor; assumption.
Qed.

Lemma closed_join ls : closed ls -> ls <> [] -> join [LF] ls <> [].
Proof.
  induction ls as [|l r IH]; intros Hc Hne; [congruence|].
  destruct r as [|l2 r]; [exact Hc|].
  change (join [LF] (l :: l2 :: r)) with (l ++ LF :: join [LF] (l2 :: r)).
  destruct l; discriminate.
Qed.

(** *** Stripping a joined text, line by line *)

Lemma lstrip_join ls : lstrip (join [LF] ls) = join [LF] (ltrim_lines ls).
Proof.
  induction ls as [|l r IH]; [reflexivity|].
  destruct r as [|l2 r].
  - simpl. destruct (lstrip l); reflexivity.
  - change (join [LF] (l :: l2 :: r)) with (l ++ LF :: join [LF] (l2 :: r)).
    rewrite lstrip_app. simpl ltrim_lines.
    destruct (lstrip l) as [|x l'].
    + simpl lstrip at 1. exact IH.
    + reflexivity.
Qed.

Lemma rtrim_closed ls : closed (rtrim_lines ls).
Proof.
  induction ls as [|l r IH]; simpl; [exact I|].
  destruct (rtrim_lines r) as [|x r'].
  - destruct l; simpl; [exact I | discriminate].
  - exact IH.
Qed.

Lemma rstrip_join ls :
  Forall (fun l => rstrip l = l) ls ->
  rstrip (join [LF] ls) = join [LF] (rtrim_lines ls).
Proof.
  induction 1 as [|l r Hl Hr IH]; [reflexivity|].
  destruct r as [|l2 r].
  - simpl. rewrite Hl. destruct l; reflexivity.
  - change (join [LF] (l :: l2 :: r)) with (l ++ LF :: join [LF] (l2 :: r)).
    rewrite rstrip_app, rstrip_cons, IH.
    pose proof (rtrim_closed (l2 :: r)) as Hc.
    change (rtrim_lines (l :: l2 :: r)) with
      (match rtrim_lines (l2 :: r) with
       | [] => match l with [] => [] | _ :: _ => [l] end
       | r' => l :: r'
       end).
    destruct (rtrim_lines (l2 :: r)) as [|x r'] eqn:E.
    + simpl. rewrite Hl. destruct l; reflexivity.
    + pose proof (closed_join (x :: r') Hc ltac:(discriminate)) as Hne.
      destruct (join [LF] (x :: r')) as [|y t] eqn:Ej; [congruence|].
      rewrite <- Ej. reflexivity.
Qed.

Lemma ltrim_Forall (P : str -> Prop) ls :
  (forall l, P l -> P (lstrip l)) -> Forall P ls -> Forall P (ltrim_lines ls).
Proof.
  intros HP. induction 1 as [|l r Hl Hr IH]; simpl; [constructor|].
  destruct (lstrip l) as [|x l'] eqn:E; [exact IH|].
  constructor; [|exact Hr]. rewrite <- E. apply HP, Hl.
Qed.

Lemma rtrim_Forall (P : str -> Prop) ls :
  Forall P ls -> Forall P (rtrim_lines ls).
Proof.
  induction 1 as [|l r Hl Hr IH]; simpl; [constructor|].
  destruct (rtrim_lines r).
  - destruct l; repeat constructor; assumption.
  - constructor; assumption.
Qed.


(** *** The shape of what [clean_text] returns *)

Lemma clean_line_lstrip l : clean_line l -> clean_line (lstrip l).
Proof.
  intros [Hc Hr]. split; [apply lstrip_Forall, Hc | apply rstrip_fix_lstrip, Hr].
Qed.

Lemma clean_line_rstrip l :
  Forall (fun c => c <> NBSP /\ islinebreak c = false) l -> clean_line (rstrip l).
Proof.
  intros H. split; [|apply rstrip_idem].
  apply rstrip_Forall. eapply List.Forall_impl; [|exact H]. simpl. tauto.
Qed.

Lemma normalised_shape s :
  let t := strip (join [LF] (List.map rstrip
             (splitlines (replace NBSP SPACE (replace CR LF s))))) in
  exists ls, t = join [LF] ls /\ Forall clean_line ls /\ closed ls /\
             lstrip t = t /\ rstrip t = t.
Proof.
  intros t. subst t.
  set (s1 := replace NBSP SPACE (replace CR LF s)).
  assert (H1 : Forall (fun c => c <> NBSP) s1) by (apply replace_Forall; discriminate).
  apply splitlines_Forall in H1.
  set (ls0 := List.map rstrip (splitlines s1)).
  assert (H0 : Forall clean_line ls0).
  { subst ls0. apply Forall_map. eapply List.Forall_impl; [|exact H1].
    intros l Hl. apply clean_line_rstrip, Hl. }
  assert (H2 : Forall clean_line (ltrim_lines ls0))
    by (apply ltrim_Forall; [exact clean_line_lstrip | exact H0]).
  exists (rtrim_lines (ltrim_lines ls0)).
  unfold strip. rewrite lstrip_join.
  rewrite rstrip_join by (eapply List.Forall_impl; [|exact H2]; intros l [_ Hl]; exact Hl).
  repeat split.
  - apply rtrim_Forall, H2.
  - apply rtrim_closed.
  - rewrite <- rstrip_join by (eapply List.Forall_impl; [|exact H2]; intros l [_ Hl]; exact Hl).
    rewrite <- lstrip_join. apply lstrip_fix_rstrip, lstrip_idem.
  - rewrite <- rstrip_join by (eapply List.Forall_impl; [|exact H2]; intros l [_ Hl]; exact Hl).
    apply rstrip_idem.
Qed.

Lemma clean_lines_absent (c0 : N) ls :
  c0 <> LF -> (islinebreak c0 = true \/ c0 = NBSP) ->
  Forall clean_line ls -> ~ In c0 (join [LF] ls).
Proof.
  intros HLF Hc0 Hls Hin.
  assert (H : Forall (fun c => c <> c0) (join [LF] ls)).
  { apply join_Forall; [congruence|].
    eapply List.Forall_impl; [|exact Hls]. intros l [Hl _].
    eapply List.Forall_impl; [|exact Hl]. simpl. intros c [Hb Hn] ->.
    destruct Hc0; congruence. }
  rewrite List.Forall_forall in H. exact (H c0 Hin eq_refl).
Qed.

Lemma clean_lines_fixed ls :
  Forall clean_line ls -> closed ls ->
  lstrip (join [LF] ls) = join [LF] ls ->
  rstrip (join [LF] ls) = join [LF] ls ->
  join [LF] ls <> [] ->
  clean_text (VStr (join [LF] ls)) = Some (join [LF] ls).
Proof.
  intros Hls Hc Hl Hr Hne. unfold clean_text. simpl py_str. cbv zeta.
  rewrite (replace_absent CR) by (apply clean_lines_absent; auto; discriminate).
  rewrite (replace_absent NBSP) by (apply clean_lines_absent; auto; discriminate).
  rewrite splitlines_join; [|eapply List.Forall_impl; [|exact Hls]; intros l [H _];
    eapply List.Forall_impl; [|exact H]; simpl; tauto | exact Hc].
  replace (List.map rstrip ls) with ls.
  - unfold strip. rewrite Hl, Hr. destruct (join [LF] ls); congruence.
  - clear -Hls. induction Hls as [|l r [_ Hl] _ IH]; simpl; congruence.
Qed.

Lemma clean_text_shape v :
  match clean_text v with
  | None => True
  | Some t =>
      exists ls, t = join [LF] ls /\ Forall clean_line ls /\ closed ls /\
                 lstrip t = t /\ rstrip t = t /\ t <> []
  end.
Proof.
  assert (H : forall s,
    match (let s := replace NBSP SPACE (replace CR LF s) in
           let s := join [LF] (List.map rstrip (splitlines s)) in
           let s := strip s in
           match s with [] => None | _ :: _ => Some s end) with
    | None => True
    | Some t =>
        exists ls, t = join [LF] ls /\ Forall clean_line ls /\ closed ls /\
                   lstrip t = t /\ rstrip t = t /\ t <> []
    end).
  { intros s. cbv zeta. pose proof (normalised_shape s) as Hs. cbv zeta in Hs.
    destruct (strip _) as [|c t]; [exact I|].
    destruct Hs as (ls & ? & ? & ? & ? & ?). exists ls. repeat split; auto; discriminate. }
  destruct v as [|s|s]; [exact I | apply (H s) | apply (H s)].
Qed.

End TextFacts.

(** ** Properties of the normaliser *)

(** C4, as the code has it: on the text [  a\r\nb   \n  ] the normaliser
    returns [a\n\nb]: the carriage return and the line feed that follows it
    each become a line break, so an empty line separates [a] and [b]; the
    non-breaking space becomes a space and goes with the trailing
    whitespace of its line, and the text is trimmed. On the empty text and on
    [None] it returns [None], never an empty text. *)
Theorem clean_text_examples :
  clean_text (VStr (lit "  a" ++ [CR; LF] ++ lit "b " ++ [NBSP] ++ lit " " ++ [LF] ++ lit "  "))
    = Some (lit "a" ++ [LF; LF] ++ lit "b")
  /\ clean_text (VStr []) = None
  /\ clean_text VNone = None
  /\ (forall v, clean_text v <> Some []).
Proof.
  split; [reflexivity|]. split; [reflexivity|]. split; [reflexivity|].
  intros v H. pose proof (clean_text_shape v) as Hs. rewrite H in Hs.
  destruct Hs as (_ & _ & _ & _ & _ & _ & Hne). congruence.
Qed.

(** C4 as stated fails: the result on [  a\r\nb   \n  ] is not [a\nb]. *)
Lemma clean_text_crlf_counterexample :
  clean_text (VStr (lit "  a" ++ [CR; LF] ++ lit "b " ++ [NBSP] ++ lit " " ++ [LF] ++ lit "  "))
    <> Some (lit "a" ++ [LF] ++ lit "b").
Proof. vm_compute. discriminate. Qed.

(** C10: [clean_text] is idempotent, [None] going to [None]; and whatever
    text it returns is non-empty, has no carriage return and no non-breaking
    space, has no leading or trailing whitespace, has no trailing whitespace
    on any of its lines, and is returned unchanged when normalised again. *)
Theorem clean_text_idempotent (v : value) :
  clean_text (of_option (clean_text v)) = clean_text v
  /\ match clean_text v with
     | None => True
     | Some t =>
         t <> [] /\ ~ In CR t /\ ~ In NBSP t
         /\ lstrip t = t /\ rstrip t = t
         /\ Forall (fun l => rstrip l = l) (splitlines t)
         /\ clean_text (VStr t) = Some t
     end.
Proof.
  pose proof (clean_text_shape v) as Hs.
  destruct (clean_text v) as [t|]; [|split; [reflexivity | exact I]].
  destruct Hs as (ls & -> & Hls & Hc & Hl & Hr & Hne).
  assert (Hfix : clean_text (VStr (join [LF] ls)) = Some (join [LF] ls))
    by (apply clean_lines_fixed; assumption).
  split; [exact Hfix|].
  repeat split; auto.
  - apply clean_lines_absent; auto; discriminate.
  - apply clean_lines_absent; auto; discriminate.
  - rewrite splitlines_join; [eapply List.Forall_impl; [|exact Hls]; intros l [_ H]; exact H| |exact Hc].
    eapply List.Forall_impl; [|exact Hls]. intros l [H _].
    eapply List.Forall_impl; [|exact H]. simpl. tauto.
Qed.

(** ** Facts about the upsert phases *)

Section StoreFacts.

Variables qid_map model_map : gmap str Z.
Variable now : timestamp.

Lemma same_pair_iff qid mid row :
  same_pair qid mid row = true <-> pair_of row = (qid, mid).
Proof.
  unfold same_pair, pair_of. rewrite andb_true_iff, !Z.eqb_eq.
  split; [intros [-> ->]; reflexivity | intros [= -> ->]; auto].
Qed.

Lemma existsb_same_pair qid mid rows :
  existsb (same_pair qid mid) rows = true <-> In (qid, mid) (List.map pair_of rows).
Proof.
  rewrite existsb_exists, in_map_iff. split.
  - intros (row & Hin & Hp). exists row. split; [apply same_pair_iff, Hp | exact Hin].
  - intros (row & Hp & Hin). exists row. split; [exact Hin | apply same_pair_iff, Hp].
Qed.

Lemma pair_of_do_update_set text t row : pair_of (do_update_set text t row) = pair_of row.
Proof. reflexivity. Qed.

Lemma map_pair_of_update qid mid text rows :
  List.map pair_of
    (List.map (fun r => if same_pair qid mid r then do_update_set text now r else r) rows)
  = List.map pair_of rows.
Proof.
  rewrite List.map_map. apply List.map_ext. intros r.
  destruct (same_pair qid mid r); reflexivity.
Qed.

Lemma has_answer_text r : has_answer r = true -> exists text, answer_text r = FStr text.
Proof. unfold has_answer. destruct (answer_text r); [discriminate.. | eauto]. Qed.

(** The answer of a record that passes the guard is NaN or a text. *)
Lemma guard_answer r :
  guard r = true -> answer_text r = FNaN \/ exists text, answer_text r = FStr text.
Proof.
  unfold guard. rewrite !andb_true_iff. intros [_ H].
  destruct (answer_text r) as [| |t]; [discriminate | auto | eauto].
Qed.

Lemma execute_upsert_returned d qid mid a d' u :
  execute_upsert d qid mid a now = (d', Returned u) -> exists text, a = FStr text.
Proof. destruct a; simpl; [discriminate.. | eauto]. Qed.

Lemma last_write_skip r rest p :
  hits qid_map model_map p r = false ->
  last_write qid_map model_map (r :: rest) p = last_write qid_map model_map rest p.
Proof. intros H. simpl. rewrite H. destruct (last_write _ _ rest p); reflexivity. Qed.

Lemma hits_resolved r qid mid row :
  guard r = true -> has_answer r = true ->
  resolve qid_map model_map r = Some (qid, mid) ->
  hits qid_map model_map (pair_of row) r = same_pair qid mid row.
Proof.
  intros Hg Ht Hr. unfold hits. rewrite Hg, Ht, Hr. simpl.
  destruct (same_pair qid mid row) eqn:E.
  - apply same_pair_iff in E. rewrite E. apply bool_decide_eq_true. reflexivity.
  - apply bool_decide_eq_false. intros H.
    assert (Hp : pair_of row = (qid, mid)) by congruence.
    apply same_pair_iff in Hp. congruence.
Qed.

Lemma last_write_matched rows row :
  matched qid_map model_map rows row = false <->
  last_write qid_map model_map rows (pair_of row) = None.
Proof.
  unfold matched. induction rows as [|r rest IH]; simpl; [tauto|].
  rewrite orb_false_iff, IH.
  destruct (last_write qid_map model_map rest (pair_of row)) as [t|].
  - split; [intros [_ H]; discriminate | discriminate].
  - destruct (hits qid_map model_map (pair_of row) r) eqn:Eh.
    + split; [intros [H _]; discriminate|].
      unfold hits in Eh. apply andb_true_iff in Eh as [Hg _].
      apply andb_true_iff in Hg as [_ Ht].
      unfold answer_of. destruct (has_answer_text r Ht) as [text ->]. discriminate.
    + tauto.
Qed.

(** One executed statement followed by the effect of the rest of the batch
    on a row is the effect of the whole batch on it. *)
Lemma touch_after_update r rest qid mid text row :
  guard r = true -> resolve qid_map model_map r = Some (qid, mid) ->
  answer_text r = FStr text ->
  touch qid_map model_map rest now
    (if same_pair qid mid row then do_update_set text now row else row)
  = touch qid_map model_map (r :: rest) now row.
Proof.
  intros Hg Hr Ha. unfold touch. simpl last_write.
  assert (Ht : has_answer r = true) by (unfold has_answer; rewrite Ha; reflexivity).
  rewrite (hits_resolved r qid mid row Hg Ht Hr). unfold answer_of. rewrite Ha.
  destruct (same_pair qid mid row) eqn:E.
  - rewrite pair_of_do_update_set.
    destruct (last_write qid_map model_map rest (pair_of row)); reflexivity.
  - destruct (last_write qid_map model_map rest (pair_of row)); reflexivity.
Qed.

Lemma touch_skip r rest row :
  guard r = false ->
  touch qid_map model_map (r :: rest) now row = touch qid_map model_map rest now row.
Proof.
  intros Hg. unfold touch. rewrite last_write_skip; [reflexivity|].
  unfold hits. rewrite Hg. reflexivity.
Qed.

(** The loop, unfolded at a record that passes the guard and resolves. *)
Lemma answers_loop_step d r rest n qid mid text :
  guard r = true -> resolve qid_map model_map r = Some (qid, mid) ->
  answer_text r = FStr text ->
  answers_loop d (r :: rest) qid_map model_map now n =
  match execute_upsert d qid mid (FStr text) now with
  | (d', Raised e) => (d', Raised e)
  | (d', Returned _) => answers_loop d' rest qid_map model_map now (S n)
  end.
Proof.
  intros Hg Hr Ha. simpl. fold (guard r). rewrite Hg. simpl.
  unfold resolve in Hr.
  destruct (subscript qid_map (question_text r)) as [qid'|]; [|discriminate].
  destruct (subscript model_map (model_name r)) as [mid'|]; [|discriminate].
  injection Hr as -> ->. rewrite Ha. reflexivity.
Qed.

(** A record that passes the guard with the float NaN for answer is not
    skipped: once its keys are found, the statement is refused. *)
Lemma answers_loop_nan d r rest n qid mid :
  guard r = true -> resolve qid_map model_map r = Some (qid, mid) ->
  answer_text r = FNaN ->
  answers_loop d (r :: rest) qid_map model_map now n = (d, Raised IntegrityError).
Proof.
  intros Hg Hr Ha. simpl. fold (guard r). rewrite Hg. simpl.
  unfold resolve in Hr.
  destruct (subscript qid_map (question_text r)) as [qid'|]; [|discriminate].
  destruct (subscript model_map (model_name r)) as [mid'|]; [|discriminate].
  rewrite Ha. reflexivity.
Qed.

Lemma answers_loop_skip d r rest n :
  guard r = false ->
  answers_loop d (r :: rest) qid_map model_map now n =
  answers_loop d rest qid_map model_map now n.
Proof. intros Hg. simpl. fold (guard r). rewrite Hg. reflexivity. Qed.

Lemma answers_loop_raise d r rest n :
  guard r = true -> resolve qid_map model_map r = None ->
  exists e, answers_loop d (r :: rest) qid_map model_map now n = (d, Raised e).
Proof.
  intros Hg Hr. simpl. fold (guard r). rewrite Hg. simpl.
  unfold resolve in Hr.
  destruct (subscript qid_map (question_text r)) as [qid'|e]; [|eauto].
  destruct (subscript model_map (model_name r)) as [mid'|e]; [discriminate|eauto].
Qed.


Lemma pair_of_touch rows row :
  pair_of (touch qid_map model_map rows now row) = pair_of row.
Proof.
  unfold touch. destruct (last_write qid_map model_map rows (pair_of row)); reflexivity.
Qed.

Lemma map_pair_of_touch rows l :
  List.map pair_of (List.map (touch qid_map model_map rows now) l) = List.map pair_of l.
Proof. rewrite List.map_map. apply List.map_ext. intros row. apply pair_of_touch. Qed.

Lemma touch_nil l : List.map (touch qid_map model_map [] now) l = l.
Proof. induction l as [|x l IH]; simpl; [reflexivity|]. rewrite IH. reflexivity. Qed.

(** What a returning run of the loop does: it counts the records that pass
    the guard, leaves questions and models alone, overwrites the rows that
    were there with the last text written to their pair, and appends rows
    that carry the last text written to theirs; every record that passes
    the guard then has its pair in the table. *)
Lemma answers_loop_spec rows :
  forall d n d' n',
  answers_loop d rows qid_map model_map now n = (d', Returned n') ->
  n' = n + length (List.filter guard rows)
  /\ questions d' = questions d /\ models d' = models d
  /\ (exists news,
        answers d' = List.map (touch qid_map model_map rows now) (answers d) ++ news
        /\ Forall (fun row =>
                     last_write qid_map model_map rows (pair_of row)
                       = Some (a_answer_text row)
                     /\ a_created_at row = now) news)
  /\ Forall (fun r => guard r = true ->
               exists p, resolve qid_map model_map r = Some p
                         /\ In p (List.map pair_of (answers d'))) rows.
Proof.
  induction rows as [|r rest IH]; intros d n d' n' H.
  - simpl in H. injection H as <- <-. simpl.
    repeat split; [lia | | constructor].
    exists []. rewrite touch_nil, app_nil_r. split; [reflexivity | constructor].
  - destruct (guard r) eqn:Hg.
    2:{ rewrite answers_loop_skip in H by exact Hg.
        apply IH in H as (Hn & Hq & Hm & (news & Hans & Hnews) & Hpres).
        simpl List.filter. rewrite Hg.
        repeat split; auto.
        - exists news. split.
          + rewrite Hans. f_equal. apply List.map_ext. intros row.
            symmetry. apply touch_skip, Hg.
          + eapply List.Forall_impl; [|exact Hnews]. intros row [H1 H2].
            split; [|exact H2]. rewrite last_write_skip; [exact H1|].
            unfold hits. rewrite Hg. reflexivity.
        - constructor; [congruence | exact Hpres]. }
    destruct (resolve qid_map model_map r) as [[qid mid]|] eqn:Hr.
    2:{ destruct (answers_loop_raise d r rest n Hg Hr) as [e He].
        rewrite He in H. discriminate. }
    destruct (guard_answer r Hg) as [Ha|[text Ha]].
    { rewrite (answers_loop_nan d r rest n qid mid Hg Hr Ha) in H. discriminate. }
    rewrite (answers_loop_step d r rest n qid mid text Hg Hr Ha) in H.
    simpl List.filter. rewrite Hg. simpl length.
    unfold execute_upsert in H.
    destruct (existsb (same_pair qid mid) (answers d)) eqn:Hex.
    + apply IH in H as (Hn & Hq & Hm & (news & Hans & Hnews) & Hpres).
      simpl in Hn, Hq, Hm, Hans.
      repeat split; auto; [lia | |].
      * exists news. split.
        -- rewrite Hans. f_equal. rewrite List.map_map. apply List.map_ext.
           intros row. apply touch_after_update; assumption.
        -- eapply List.Forall_impl; [|exact Hnews]. intros row [H1 H2].
           split; [|exact H2]. simpl. rewrite H1. reflexivity.
      * constructor; [|exact Hpres]. intros _. exists (qid, mid).
        split; [exact Hr|]. rewrite Hans, List.map_app, in_app_iff. left.
        rewrite map_pair_of_touch, map_pair_of_update.
        apply existsb_same_pair, Hex.
    + destruct (existsb (fun r0 => (q_id r0 =? qid)%Z) (questions d)
                && existsb (fun r0 => (m_id r0 =? mid)%Z) (models d));
        [|discriminate].
      apply IH in H as (Hn & Hq & Hm & (news & Hans & Hnews) & Hpres).
      simpl in Hn, Hq, Hm, Hans.
      repeat split; auto; [lia | |].
      * exists (touch qid_map model_map rest now (new_answer d qid mid text now) :: news).
        split.
        -- rewrite Hans, List.map_app, <- app_assoc. simpl. f_equal.
           apply List.map_ext_in. intros row Hin.
           rewrite <- (touch_after_update r rest qid mid text row Hg Hr Ha).
           destruct (same_pair qid mid row) eqn:E; [|reflexivity].
           assert (existsb (same_pair qid mid) (answers d) = true)
             by (apply existsb_exists; eauto).
           congruence.
        -- constructor.
           ++ rewrite pair_of_touch. unfold touch. simpl.
              change (pair_of (new_answer d qid mid text now)) with (qid, mid).
              destruct (last_write qid_map model_map rest (qid, mid)) as [t|];
                [split; reflexivity|].
              unfold hits, has_answer, answer_of. rewrite Hg, Hr, Ha. simpl.
              rewrite bool_decide_eq_true_2 by reflexivity. split; reflexivity.
           ++ eapply List.Forall_impl; [|exact Hnews]. intros row [H1 H2].
              split; [|exact H2]. simpl. rewrite H1. reflexivity.
      * constructor; [|exact Hpres]. intros _. exists (qid, mid).
        split; [exact Hr|]. rewrite Hans, List.map_app, in_app_iff. left.
        rewrite map_pair_of_touch, List.map_app, in_app_iff. right. left. reflexivity.
Qed.

(** When every record that passes the guard already has its pair in the
    table, the loop returns and only overwrites. *)
Lemma answers_loop_all_present rows :
  forall d n,
  Forall (fun r => guard r = true -> has_answer r = true) rows ->
  Forall (fun r => guard r = true ->
            exists p, resolve qid_map model_map r = Some p
                      /\ In p (List.map pair_of (answers d))) rows ->
  answers_loop d rows qid_map model_map now n =
  ({| questions := questions d; models := models d;
      answers := List.map (touch qid_map model_map rows now) (answers d) |},
   Returned (n + length (List.filter guard rows))).
Proof.
  induction rows as [|r rest IH]; intros d n Htext Hall.
  - simpl. rewrite touch_nil, Nat.add_0_r. destruct d; reflexivity.
  - inversion Hall as [|? ? Hr Hrest]; subst.
    inversion Htext as [|? ? Ht Htrest]; subst.
    destruct (guard r) eqn:Hg.
    + destruct (Hr eq_refl) as ([qid mid] & Hres & Hin).
      destruct (has_answer_text r (Ht eq_refl)) as [text Ha].
      rewrite (answers_loop_step d r rest n qid mid text Hg Hres Ha).
      unfold execute_upsert.
      apply existsb_same_pair in Hin. rewrite Hin.
      rewrite IH.
      * simpl. rewrite Hg. simpl. f_equal; [|f_equal; lia].
        f_equal. rewrite List.map_map. apply List.map_ext. intros row.
        apply touch_after_update; assumption.
      * exact Htrest.
      * simpl. rewrite map_pair_of_update. exact Hrest.
    + rewrite answers_loop_skip by exact Hg. rewrite IH by assumption.
      simpl. rewrite Hg. f_equal. f_equal.
      apply List.map_ext. intros row. symmetry. apply touch_skip, Hg.
Qed.

(** The loop returns when every record that passes the guard has a text
    for answer and resolves to the ids of an existing question and an
    existing model. *)
Lemma answers_loop_returns rows :
  forall d n,
  (forall r, In r rows -> guard r = true ->
     has_answer r = true
     /\ exists qid mid, resolve qid_map model_map r = Some (qid, mid)
                        /\ In qid (List.map q_id (questions d))
                        /\ In mid (List.map m_id (models d))) ->
  exists d', answers_loop d rows qid_map model_map now n
             = (d', Returned (n + length (List.filter guard rows))).
Proof.
  induction rows as [|r rest IH]; intros d n Hall.
  - exists d. simpl. rewrite Nat.add_0_r. reflexivity.
  - destruct (guard r) eqn:Hg.
    + destruct (Hall r (or_introl eq_refl) Hg) as (Ht & qid & mid & Hres & Hq & Hm).
      destruct (has_answer_text r Ht) as [text Ha].
      rewrite (answers_loop_step d r rest n qid mid text Hg Hres Ha).
      simpl List.filter. rewrite Hg. simpl length.
      replace (n + S (length (List.filter guard rest)))
        with (S n + length (List.filter guard rest)) by lia.
      unfold execute_upsert.
      destruct (existsb (same_pair qid mid) (answers d)).
      * apply IH. simpl. intros r' Hin' Hg'. apply Hall; [right|]; assumption.
      * assert (Hfk : existsb (fun r0 => (q_id r0 =? qid)%Z) (questions d)
                      && existsb (fun r0 => (m_id r0 =? mid)%Z) (models d) = true).
        { apply andb_true_iff. split; apply existsb_exists.
          - apply in_map_iff in Hq as (x & Hx & Hin). exists x. split; [exact Hin|].
            apply Z.eqb_eq, Hx.
          - apply in_map_iff in Hm as (x & Hx & Hin). exists x. split; [exact Hin|].
            apply Z.eqb_eq, Hx. }
        rewrite Hfk. apply IH. simpl. intros r' Hin' Hg'.
        apply Hall; [right|]; assumption.
    + rewrite answers_loop_skip by exact Hg. simpl List.filter. rewrite Hg.
      apply IH. intros r' Hin' Hg'. apply Hall; [right|]; assumption.
Qed.

(** Records that fail the guard play no part in the loop. *)
Lemma answers_loop_filter rows :
  forall d n,
  answers_loop d rows qid_map model_map now n =
  answers_loop d (List.filter guard rows) qid_map model_map now n.
Proof.
  induction rows as [|r rest IH]; intros d n; [reflexivity|].
  simpl List.filter. destruct (guard r) eqn:Hg.
  - simpl. fold (guard r). rewrite Hg. simpl.
    destruct (subscript qid_map (question_text r)); [|reflexivity].
    destruct (subscript model_map (model_name r)); [|reflexivity].
    destruct (execute_upsert d a a0 (answer_text r) now) as [d' [u|e]];
      [apply IH | reflexivity].
  - rewrite answers_loop_skip by exact Hg. apply IH.
Qed.

Lemma last_write_app pre post p :
  last_write qid_map model_map (pre ++ post) p =
  match last_write qid_map model_map post p with
  | Some t => Some t
  | None => last_write qid_map model_map pre p
  end.
Proof.
  induction pre as [|r pre IH]; simpl.
  - destruct (last_write qid_map model_map post p); reflexivity.
  - rewrite IH. destruct (last_write qid_map model_map post p); reflexivity.
Qed.

Lemma last_write_none post p :
  (forall r, In r post -> hits qid_map model_map p r = false) ->
  last_write qid_map model_map post p = None.
Proof.
  induction post as [|r post IH]; intros H; [reflexivity|].
  simpl. rewrite IH by (intros r' Hr'; apply H; right; exact Hr').
  rewrite (H r (or_introl eq_refl)). reflexivity.
Qed.

(** After a returning run, a row whose pair the batch wrote to carries the
    last text written to the pair and the clock reading of the run. *)
Lemma answers_loop_texts rows d n d' n' :
  answers_loop d rows qid_map model_map now n = (d', Returned n') ->
  forall row t, In row (answers d') ->
  last_write qid_map model_map rows (pair_of row) = Some t ->
  a_answer_text row = t /\ a_created_at row = now.
Proof.
  intros H row t Hin Hlw.
  apply answers_loop_spec in H as (_ & _ & _ & (news & Hans & Hnews) & _).
  rewrite Hans in Hin. apply in_app_iff in Hin as [Hin|Hin].
  - apply in_map_iff in Hin as (row0 & <- & _).
    rewrite pair_of_touch in Hlw. unfold touch. rewrite Hlw. split; reflexivity.
  - rewrite List.Forall_forall in Hnews. destruct (Hnews row Hin) as [H1 H2].
    split; [congruence | exact H2].
Qed.

(** A run of the loop that returns met no record that passes the guard
    without a text for answer. *)
Lemma answers_loop_answered rows :
  forall d n d' n',
  answers_loop d rows qid_map model_map now n = (d', Returned n') ->
  Forall (fun r => guard r = true -> has_answer r = true) rows.
Proof.
  induction rows as [|r rest IH]; intros d n d' n' H; [constructor|].
  destruct (guard r) eqn:Hg.
  2:{ rewrite answers_loop_skip in H by exact Hg.
      constructor; [intros Hc; rewrite Hg in Hc; discriminate | eapply IH, H]. }
  destruct (resolve qid_map model_map r) as [[qid mid]|] eqn:Hr.
  2:{ destruct (answers_loop_raise d r rest n Hg Hr) as [e He].
      rewrite He in H. discriminate. }
  destruct (guard_answer r Hg) as [Ha|[text Ha]].
  { rewrite (answers_loop_nan d r rest n qid mid Hg Hr Ha) in H. discriminate. }
  rewrite (answers_loop_step d r rest n qid mid text Hg Hr Ha) in H.
  destruct (execute_upsert d qid mid (FStr text) now) as [d1 [u|e]];
    [|discriminate].
  constructor; [|eapply IH, H].
  intros _. unfold has_answer. rewrite Ha. reflexivity.
Qed.


End StoreFacts.

(** ** Uniqueness of the (question, model) pair *)

Lemma NoDup_snoc {A} (l : list A) (x : A) : List.NoDup l -> ~ In x l -> List.NoDup (l ++ [x]).
Proof.
  induction 1 as [|y l Hy Hl IH]; simpl; intros Hx.
  - apply List.NoDup_cons; [intros [] | apply List.NoDup_nil].
  - apply List.NoDup_cons.
    + rewrite in_app_iff. simpl. intros [H|[H|[]]]; [auto | subst; tauto].
    + apply IH. tauto.
Qed.

Lemma execute_upsert_nodup d qid mid a now :
  List.NoDup (List.map pair_of (answers d)) ->
  List.NoDup (List.map pair_of (answers (fst (execute_upsert d qid mid a now)))).
Proof.
  intros Hd. unfold execute_upsert.
  destruct a as [| |text]; [exact Hd | exact Hd |].
  destruct (existsb (same_pair qid mid) (answers d)) eqn:Hex; simpl.
  - rewrite map_pair_of_update. exact Hd.
  - destruct (_ && _); simpl; [|exact Hd].
    rewrite List.map_app. apply NoDup_snoc; [exact Hd|].
    change (pair_of (new_answer d qid mid text now)) with (qid, mid).
    intros Hin. apply existsb_same_pair in Hin. congruence.
Qed.

Lemma answers_loop_nodup qid_map model_map now rows :
  forall d n,
  List.NoDup (List.map pair_of (answers d)) ->
  List.NoDup (List.map pair_of (answers (fst (answers_loop d rows qid_map model_map now n)))).
Proof.
  induction rows as [|r rest IH]; intros d n Hd; [exact Hd|].
  simpl. destruct (negb _); [apply IH, Hd|].
  destruct (subscript qid_map (question_text r)) as [qid|]; [|exact Hd].
  destruct (subscript model_map (model_name r)) as [mid|]; [|exact Hd].
  pose proof (execute_upsert_nodup d qid mid (answer_text r) now Hd) as Hd'.
  destruct (execute_upsert d qid mid (answer_text r) now) as [d' [u|e]];
    [apply IH, Hd' | exact Hd'].
Qed.

Lemma insert_or_ignore_question_frame q now d :
  models (insert_or_ignore_question q now d) = models d
  /\ answers (insert_or_ignore_question q now d) = answers d.
Proof.
  unfold insert_or_ignore_question. destruct (existsb _ _); split; reflexivity.
Qed.

Lemma insert_or_ignore_model_frame name d :
  questions (insert_or_ignore_model name d) = questions d
  /\ answers (insert_or_ignore_model name d) = answers d.
Proof.
  unfold insert_or_ignore_model. destruct (existsb _ _); split; reflexivity.
Qed.

Lemma upsert_questions_frame d qs now :
  models (fst (upsert_questions d qs now)) = models d
  /\ answers (fst (upsert_questions d qs now)) = answers d.
Proof.
  unfold upsert_questions. simpl. revert d.
  induction qs as [|q qs IH]; intros d; simpl; [split; reflexivity|].
  destruct (IH (insert_or_ignore_question q now d)) as [-> ->].
  apply insert_or_ignore_question_frame.
Qed.

Lemma upsert_model_ids_frame d names :
  questions (fst (upsert_model_ids d names)) = questions d
  /\ answers (fst (upsert_model_ids d names)) = answers d.
Proof.
  unfold upsert_model_ids. simpl. generalize (sorted_set names). intros l. revert d.
  induction l as [|x l IH]; intros d; simpl; [split; reflexivity|].
  destruct x as [|c x]; [apply IH|].
  destruct (IH (insert_or_ignore_model (c :: x) d)) as [-> ->].
  apply insert_or_ignore_model_frame.
Qed.

Lemma reachable_nodup d : reachable d -> List.NoDup (List.map pair_of (answers d)).
Proof.
  induction 1 as [|d _ IH|d names _ IH|d qs now _ IH|d rows qm mm now _ IH].
  - apply List.NoDup_nil.
  - exact IH.
  - destruct (upsert_model_ids_frame d names) as [_ ->]. exact IH.
  - destruct (upsert_questions_frame d qs now) as [_ ->]. exact IH.
  - apply answers_loop_nodup, IH.
Qed.

Lemma nodup_count qid mid l :
  List.NoDup (List.map pair_of l) -> length (List.filter (same_pair qid mid) l) <= 1.
Proof.
  induction l as [|row l IH]; simpl; intros Hnd; [lia|].
  inversion Hnd as [|? ? Hnin Hnd']; subst.
  destruct (same_pair qid mid row) eqn:E; [|apply IH, Hnd'].
  simpl. enough (List.filter (same_pair qid mid) l = []) as -> by (simpl; lia).
  destruct (List.filter (same_pair qid mid) l) as [|row' f] eqn:Ef; [reflexivity|].
  exfalso. apply Hnin.
  assert (Hin : In row' (List.filter (same_pair qid mid) l)) by (rewrite Ef; left; reflexivity).
  apply filter_In in Hin as [Hin Hp].
  apply same_pair_iff in E. apply same_pair_iff in Hp.
  rewrite E, <- Hp. apply in_map, Hin.
Qed.

(** C2: in every store that calls of the loader's phases produce from a new
    database file, whatever their arguments and whether they return or
    raise, each (question id, model id) pair has at most one answer row. *)
Theorem answers_unique_pairs (d : db) :
  reachable d ->
  forall qid mid, length (List.filter (same_pair qid mid) (answers d)) <= 1.
Proof. intros H qid mid. apply nodup_count, reachable_nodup, H. Qed.

(** ** Question and model resolution *)

Section DictOfRows.

Context {A : Type} (key : A -> str) (val : A -> Z).

(** The dictionary read back from a table has every text of the table as a
    key, bound to the id of a row of the table with that text. *)
Lemma dict_of_rows_lookup (rows : list A) (m0 : gmap str Z) (t : str) :
  In t (List.map key rows) ->
  exists row, In row rows /\ key row = t
              /\ fold_left (fun m r => <[key r := val r]> m) rows m0 !! t
                 = Some (val row).
Proof.
  induction rows as [|x l IH] using rev_ind; [intros []|].
  rewrite List.map_app, in_app_iff, fold_left_app. simpl. intros Hin.
  destruct (decide (key x = t)) as [Heq|Hne].
  - exists x. rewrite in_app_iff. simpl. repeat split; auto.
    rewrite Heq. apply lookup_insert_eq.
  - destruct Hin as [Hin|[Hin|[]]]; [|congruence].
    destruct (IH Hin) as (row & Hrow & Hk & Hl).
    exists row. rewrite in_app_iff. repeat split; auto.
    rewrite lookup_insert_ne by exact Hne. exact Hl.
Qed.

End DictOfRows.

Lemma existsb_q_text q l :
  existsb (fun r => bool_decide (q_text r = q)) l = true <-> In q (List.map q_text l).
Proof.
  rewrite existsb_exists, in_map_iff. split.
  - intros (r & Hin & Hr). apply bool_decide_eq_true in Hr. eauto.
  - intros (r & Hr & Hin). exists r. split; [exact Hin|]. apply bool_decide_eq_true, Hr.
Qed.

Lemma existsb_m_name name l :
  existsb (fun r => bool_decide (m_name r = name)) l = true <-> In name (List.map m_name l).
Proof.
  rewrite existsb_exists, in_map_iff. split.
  - intros (r & Hin & Hr). apply bool_decide_eq_true in Hr. eauto.
  - intros (r & Hr & Hin). exists r. split; [exact Hin|]. apply bool_decide_eq_true, Hr.
Qed.

(** The inserts of [upsert_questions] only append: the rows that were there
    stay as they are, each new row carries the clock reading of the call and
    a text of the batch that no row had before, and every text of the batch
    ends up in the table. *)
Lemma insert_questions_spec now qs :
  forall d,
  exists added,
    questions (fold_left (fun d q => insert_or_ignore_question q now d) qs d)
      = questions d ++ added
    /\ Forall (fun r => q_created_at r = now /\ In (q_text r) qs
                        /\ ~ In (q_text r) (List.map q_text (questions d))) added
    /\ (forall q, In q qs -> In q (List.map q_text (questions d ++ added))).
Proof.
  induction qs as [|q qs IH]; intros d.
  - exists []. rewrite app_nil_r. repeat split; [constructor | intros q []].
  - simpl fold_left.
    destruct (IH (insert_or_ignore_question q now d)) as (added & Hq & Hall & Hin).
    unfold insert_or_ignore_question in Hq, Hall, Hin |- *.
    destruct (existsb (fun r => bool_decide (q_text r = q)) (questions d)) eqn:E.
    + exists added. split; [exact Hq|]. split.
      * eapply List.Forall_impl; [|exact Hall]. simpl. intros r (H1 & H2 & H3). auto.
      * intros q' [<-|Hq']; [|auto].
        rewrite List.map_app, in_app_iff. left. apply existsb_q_text, E.
    + simpl in Hq, Hall, Hin.
      exists ({| q_id := next_rowid (List.map q_id (questions d));
                 q_text := q; q_created_at := now |} :: added).
      split; [rewrite Hq, <- app_assoc; reflexivity|]. split.
      * constructor.
        -- simpl. repeat split; auto.
           intros Hc. apply existsb_q_text in Hc. congruence.
        -- eapply List.Forall_impl; [|exact Hall]. simpl. intros r (H1 & H2 & H3).
           repeat split; auto. intros Hc. apply H3.
           rewrite List.map_app, in_app_iff. auto.
      * intros q' [<-|Hq'].
        -- rewrite List.map_app, in_app_iff. right. left. reflexivity.
        -- specialize (Hin q' Hq'). rewrite <- app_assoc in Hin. exact Hin.
Qed.

(** C6: [upsert_questions] leaves every row of [questions] that was there
    entirely unchanged, its [created_at] included: the table after the call
    is the table before it followed by new rows, and each new row carries the
    clock reading of the call and a text of the batch that no row had
    before. A text already present gets no new row and no new timestamp. *)
Theorem upsert_questions_keeps_existing (d : db) (qs : list str) (now : timestamp) :
  exists added,
    questions (fst (upsert_questions d qs now)) = questions d ++ added
    /\ Forall (fun r => q_created_at r = now /\ In (q_text r) qs
                        /\ ~ In (q_text r) (List.map q_text (questions d))) added.
Proof.
  destruct (insert_questions_spec now qs d) as (added & Hq & Hall & _).
  exists added. split; [exact Hq | exact Hall].
Qed.

Lemma insert_models_spec names :
  forall d,
  let d' := fold_left (fun d name =>
                         match name with
                         | [] => d
                         | _ :: _ => insert_or_ignore_model name d
                         end) names d in
  (forall name, In name (List.map m_name (models d)) ->
                In name (List.map m_name (models d')))
  /\ (forall name, In name names -> name <> [] ->
                   In name (List.map m_name (models d'))).
Proof.
  induction names as [|x l IH]; intros d; simpl; [split; [auto | intros ? []]|].
  set (d1 := match x with [] => d | _ :: _ => insert_or_ignore_model x d end).
  destruct (IH d1) as [Hmono Hin].
  assert (Hstep : forall name, In name (List.map m_name (models d)) ->
                               In name (List.map m_name (models d1))).
  { subst d1. destruct x as [|c x]; [auto|]. intros name Hn.
    unfold insert_or_ignore_model. destruct (existsb _ _); [exact Hn|].
    simpl. rewrite List.map_app, in_app_iff. auto. }
  split; [auto|].
  intros name [<-|Hn] Hne; [|auto].
  apply Hmono. subst d1. destruct x as [|c x]; [congruence|].
  unfold insert_or_ignore_model.
  destruct (existsb _ _) eqn:E; [apply existsb_m_name, E|].
  simpl. rewrite List.map_app, in_app_iff. right. left. reflexivity.
Qed.

Lemma In_insert_sorted x y l : In y (insert_sorted x l) <-> y = x \/ In y l.
Proof.
  induction l as [|z l IH]; simpl; [intuition|].
  destruct (bool_decide (x = z)) eqn:E.
  - apply bool_decide_eq_true in E. subst. simpl. intuition.
  - destruct (str_ltb x z); simpl; [intuition|]. rewrite IH. intuition.
Qed.

Lemma In_sorted_set x l : In x (sorted_set l) <-> In x l.
Proof.
  unfold sorted_set. induction l as [|y l IH]; simpl; [tauto|].
  rewrite In_insert_sorted, IH. intuition.
Qed.

Lemma In_dropna x l : In x (dropna l) <-> In (Some x) l.
Proof.
  induction l as [|[y|] l IH]; simpl; [tauto| |].
  - rewrite IH. split; [intros [->|H]; auto | intros [[= ->]|H]; auto].
  - rewrite IH. split; [auto | intros [H|H]; [discriminate | exact H]].
Qed.

Lemma In_unique_from x seen l :
  In x (unique_from seen l) <-> In x l /\ ~ In x seen.
Proof.
  revert seen. induction l as [|y l IH]; intros seen; simpl; [tauto|].
  destruct (bool_decide (y ∈ seen)) eqn:E.
  - apply bool_decide_eq_true, list_elem_of_In in E. rewrite IH.
    split; [tauto|]. intros [[->|H] Hn]; tauto.
  - apply bool_decide_eq_false in E. rewrite list_elem_of_In in E.
    simpl. rewrite IH. simpl.
    destruct (decide (y = x)) as [->|Hne]; [tauto|]. tauto.
Qed.

Lemma In_unique x l : In x (unique l) <-> In x l.
Proof. unfold unique. rewrite In_unique_from. simpl. tauto. Qed.

Lemma truthy_some o : truthy (text_field o) = true -> exists c s, o = Some (c :: s).
Proof. destruct o as [[|c s]|]; simpl; [discriminate | eauto | discriminate]. Qed.

Lemma guard_not_nan r : guard r = true -> answer_text r <> FNaN -> has_answer r = true.
Proof.
  intros Hg Hn. unfold has_answer.
  destruct (guard_answer r Hg) as [Ha|[text ->]]; [contradiction | reflexivity].
Qed.

Lemma model_map_lookup d names m :
  In m names -> m <> [] ->
  exists mid, snd (upsert_model_ids d names) !! m = Some mid
              /\ In mid (List.map m_id (models (fst (upsert_model_ids d names)))).
Proof.
  intros Hin Hne. unfold upsert_model_ids. simpl.
  destruct (insert_models_spec (sorted_set names) d) as [_ H].
  specialize (H m (proj2 (In_sorted_set m names) Hin) Hne).
  apply (dict_of_rows_lookup m_name m_id _ ∅) in H as (row & Hrow & _ & Hl).
  exists (m_id row). split; [exact Hl | apply in_map, Hrow].
Qed.

Lemma qid_map_lookup d qs now q :
  In q qs ->
  exists qid, snd (upsert_questions d qs now) !! q = Some qid
              /\ In qid (List.map q_id (questions (fst (upsert_questions d qs now)))).
Proof.
  intros Hin. unfold upsert_questions. simpl.
  destruct (insert_questions_spec now qs d) as (added & Hq & _ & H).
  specialize (H q Hin). rewrite <- Hq in H.
  apply (dict_of_rows_lookup q_text q_id _ ∅) in H as (row & Hrow & _ & Hl).
  exists (q_id row). split; [exact Hl | apply in_map, Hrow].
Qed.

(** Every record that passes the guard resolves, after the two resolution
    phases of [main], to the ids of an existing question and model. *)
Lemma resolution_complete d long_df now_questions :
  let um := upsert_model_ids d (unique (dropna (List.map model_name long_df))) in
  let uq := upsert_questions (fst um)
              (unique (dropna (List.map question_text long_df))) now_questions in
  forall r, In r long_df -> guard r = true ->
  exists q m qid mid,
    question_text r = Some q /\ model_name r = Some m
    /\ snd uq !! q = Some qid /\ snd um !! m = Some mid
    /\ In qid (List.map q_id (questions (fst uq)))
    /\ In mid (List.map m_id (models (fst uq))).
Proof.
  intros um uq r Hin Hg.
  unfold guard in Hg. apply andb_true_iff in Hg as [Hg _].
  apply andb_true_iff in Hg as [Hq Hm].
  destruct (truthy_some _ Hq) as (cq & sq & Eq).
  destruct (truthy_some _ Hm) as (cm & sm & Em).
  assert (Hmn : In (cm :: sm) (unique (dropna (List.map model_name long_df)))).
  { apply In_unique, In_dropna. apply in_map_iff. exists r. split; [exact Em | exact Hin]. }
  assert (Hqn : In (cq :: sq) (unique (dropna (List.map question_text long_df)))).
  { apply In_unique, In_dropna. apply in_map_iff. exists r. split; [exact Eq | exact Hin]. }
  destruct (model_map_lookup d _ _ Hmn ltac:(discriminate)) as (mid & Hml & Hmi).
  destruct (qid_map_lookup (fst um) _ now_questions _ Hqn) as (qid & Hql & Hqi).
  exists (cq :: sq), (cm :: sm), qid, mid.
  repeat split; auto.
  subst uq. destruct (upsert_questions_frame (fst um)
    (unique (dropna (List.map question_text long_df))) now_questions) as [-> _].
  exact Hmi.
Qed.

(** C9: with the dictionaries that [upsert_model_ids] and [upsert_questions]
    return for the distinct model names and question texts of a batch, every
    record of the batch that passes the guard finds its question text in
    [qid_map] and its model name in [model_map]: no lookup raises. When in
    addition no answer of the batch is the float NaN (as in every batch
    [main] passes), the answer upsert returns, counting these records, and
    so does the whole load: no foreign key fails either. *)
Theorem resolved_identities_present
    (d : db) (long_df : list long_record) (now_questions now_answers : timestamp) :
  let um := upsert_model_ids d (unique (dropna (List.map model_name long_df))) in
  let uq := upsert_questions (fst um)
              (unique (dropna (List.map question_text long_df))) now_questions in
  (forall r, In r long_df -> guard r = true ->
     exists q m qid mid,
       question_text r = Some q /\ model_name r = Some m
       /\ snd uq !! q = Some qid /\ snd um !! m = Some mid)
  /\ (Forall (fun r => answer_text r <> FNaN) long_df ->
      (exists d3,
         insert_or_update_answers (fst uq) long_df (snd uq) (snd um) now_answers
         = (d3, Returned (length (List.filter guard long_df))))
      /\ (exists d3 counts,
            load (Some d) long_df now_questions now_answers = (d3, Returned counts))).
Proof.
  pose proof (resolution_complete d long_df now_questions) as Hres.
  cbv zeta in Hres |- *.
  destruct (upsert_model_ids d (unique (dropna (List.map model_name long_df))))
    as [d1 mm] eqn:Eum.
  cbn [fst snd] in Hres |- *.
  destruct (upsert_questions d1 (unique (dropna (List.map question_text long_df)))
              now_questions) as [d2 qm] eqn:Euq.
  cbn [fst snd] in Hres |- *.
  split.
  - intros r Hin Hg.
    destruct (Hres r Hin Hg) as (q & m & qid & mid & Eq & Em & Hq & Hm & _).
    exists q, m, qid, mid. auto.
  - intros Hnan.
    assert (Hret : exists d3,
      insert_or_update_answers d2 long_df qm mm now_answers
      = (d3, Returned (length (List.filter guard long_df)))).
    { apply (answers_loop_returns qm mm now_answers long_df d2 0).
      intros r Hin Hg.
      destruct (Hres r Hin Hg) as (q & m & qid & mid & Eq & Em & Hq & Hm & Hqi & Hmi).
      split.
      - apply guard_not_nan; [exact Hg|].
        rewrite List.Forall_forall in Hnan. apply Hnan, Hin.
      - exists qid, mid. repeat split; auto.
        unfold resolve, subscript. rewrite Eq, Em, Hq, Hm. reflexivity. }
    split; [exact Hret|].
    destruct Hret as [d3 Hret]. unfold load. simpl create_schema.
    rewrite Eum, Euq, Hret. eauto.
Qed.

(** ** Idempotence of the load *)

Lemma do_update_set_same_text now row :
  do_update_set (a_answer_text row) now row = set_created_at now row.
Proof. reflexivity. Qed.

Lemma insert_models_present l :
  forall d,
  (forall name, In name l -> name = [] \/ In name (List.map m_name (models d))) ->
  fold_left (fun d name =>
               match name with
               | [] => d
               | _ :: _ => insert_or_ignore_model name d
               end) l d = d.
Proof.
  induction l as [|x l IH]; intros d H; [reflexivity|].
  simpl. destruct x as [|c x].
  - apply IH. intros name Hn. apply H. right. exact Hn.
  - destruct (H (c :: x) (or_introl eq_refl)) as [Hx|Hx]; [discriminate|].
    unfold insert_or_ignore_model at 2.
    rewrite (proj2 (existsb_m_name (c :: x) (models d)) Hx).
    apply IH. intros name Hn. apply H. right. exact Hn.
Qed.

Lemma insert_questions_present now qs :
  forall d,
  (forall q, In q qs -> In q (List.map q_text (questions d))) ->
  fold_left (fun d q => insert_or_ignore_question q now d) qs d = d.
Proof.
  induction qs as [|q qs IH]; intros d H; [reflexivity|].
  simpl. unfold insert_or_ignore_question at 2.
  rewrite (proj2 (existsb_q_text q (questions d)) (H q (or_introl eq_refl))).
  apply IH. intros q' Hq'. apply H. right. exact Hq'.
Qed.

(** C1: after a run of the answer upsert that returned, a second run with
    the same batch and dictionaries returns the same count, leaves questions
    and models alone, creates no answer row, leaves every answer text (and
    every other column but [created_at]) as it was, and sets [created_at] to
    the new clock reading on exactly the rows the batch matches. Likewise
    for whole loads: after a load that returned, a second load of the same
    batch returns the same counts and leaves every table as it was, but for
    refreshed [created_at] values in [answers]. *)
Theorem answers_upsert_idempotent :
  (forall (d : db) (rows : list long_record) (qid_map model_map : gmap str Z)
          (now1 now2 : timestamp) (d1 : db) (n1 : nat),
     insert_or_update_answers d rows qid_map model_map now1 = (d1, Returned n1) ->
     exists d2,
       insert_or_update_answers d1 rows qid_map model_map now2 = (d2, Returned n1)
       /\ questions d2 = questions d1 /\ models d2 = models d1
       /\ length (answers d2) = length (answers d1)
       /\ List.map a_answer_text (answers d2) = List.map a_answer_text (answers d1)
       /\ answers d2 =
          List.map (fun row => if matched qid_map model_map rows row
                               then set_created_at now2 row else row)
                   (answers d1))
  /\ (forall (con : option db) (long_df : list long_record)
             (nq1 na1 nq2 na2 : timestamp) (d1 : db) (counts : nat * nat * nat),
        load con long_df nq1 na1 = (d1, Returned counts) ->
        exists d2,
          load (Some d1) long_df nq2 na2 = (d2, Returned counts)
          /\ questions d2 = questions d1 /\ models d2 = models d1
          /\ length (answers d2) = length (answers d1)
          /\ List.map a_answer_text (answers d2) = List.map a_answer_text (answers d1)
          /\ Forall2 (fun row row' => row' = row \/ row' = set_created_at na2 row)
                     (answers d1) (answers d2)).
Proof.
  assert (Hphase :
    forall d rows qid_map model_map now1 now2 d1 n1,
    insert_or_update_answers d rows qid_map model_map now1 = (d1, Returned n1) ->
    exists d2,
      insert_or_update_answers d1 rows qid_map model_map now2 = (d2, Returned n1)
      /\ questions d2 = questions d1 /\ models d2 = models d1
      /\ length (answers d2) = length (answers d1)
      /\ List.map a_answer_text (answers d2) = List.map a_answer_text (answers d1)
      /\ answers d2 =
         List.map (fun row => if matched qid_map model_map rows row
                              then set_created_at now2 row else row)
                  (answers d1)).
  { unfold insert_or_update_answers. intros d rows qid_map model_map now1 now2 d1 n1 H1.
    pose proof (answers_loop_spec qid_map model_map now1 rows d 0 d1 n1 H1)
      as (Hn & _ & _ & _ & Hpres).
    pose proof (answers_loop_answered qid_map model_map now1 rows d 0 d1 n1 H1) as Htext.
    pose proof (answers_loop_all_present qid_map model_map now2 rows d1 0 Htext Hpres)
      as H2.
    simpl in Hn, H2. rewrite <- Hn in H2.
    assert (Hmap : List.map (touch qid_map model_map rows now2) (answers d1) =
                   List.map (fun row => if matched qid_map model_map rows row
                                        then set_created_at now2 row else row)
                            (answers d1)).
    { apply List.map_ext_in. intros row Hin. unfold touch.
      destruct (last_write qid_map model_map rows (pair_of row)) as [t|] eqn:Hlw.
      - destruct (answers_loop_texts qid_map model_map now1 rows d 0 d1 n1 H1
                    row t Hin Hlw) as [<- _].
        destruct (matched qid_map model_map rows row) eqn:Em.
        + apply do_update_set_same_text.
        + apply last_write_matched in Em. congruence.
      - apply last_write_matched in Hlw. rewrite Hlw. reflexivity. }
    eexists. split; [exact H2|]. simpl. rewrite Hmap.
    repeat split.
    - apply List.length_map.
    - rewrite List.map_map. apply List.map_ext. intros row.
      destruct (matched qid_map model_map rows row); reflexivity. }
  split; [exact Hphase|].
  intros con long_df nq1 na1 nq2 na2 d1 counts H.
  unfold load in H |- *. simpl (create_schema (Some d1)).
  set (names := unique (dropna (List.map model_name long_df))) in *.
  set (qs := unique (dropna (List.map question_text long_df))) in *.
  destruct (upsert_model_ids (create_schema con) names) as [dm mm] eqn:Em.
  destruct (upsert_questions dm qs nq1) as [dq qm] eqn:Eq.
  destruct (insert_or_update_answers dq long_df qm mm na1) as [d1' [n|e]] eqn:Ea;
    [|discriminate].
  injection H as -> <-.
  pose proof (answers_loop_spec qm mm na1 long_df dq 0 d1 n Ea) as (_ & Hq1 & Hm1 & _).
  (* the model phase of the second load changes nothing *)
  assert (Em2 : upsert_model_ids d1 names = (d1, mm)).
  { unfold upsert_model_ids in Em |- *. injection Em as Hdm Hmm.
    destruct (insert_models_spec (sorted_set names) (create_schema con)) as [_ Hin].
    cbv zeta in Hin. rewrite Hdm in Hin.
    assert (Hmdq : models dq = models dm).
    { pose proof (upsert_questions_frame dm qs nq1) as [Hf _].
      rewrite Eq in Hf. exact Hf. }
    rewrite insert_models_present.
    - rewrite Hm1, Hmdq, <- Hdm. rewrite Hdm. rewrite <- Hmm. rewrite Hdm. reflexivity.
    - intros name Hn. destruct name as [|c name]; [left; reflexivity|]. right.
      rewrite Hm1, Hmdq. apply Hin; [exact Hn | discriminate]. }
  (* nor does its question phase *)
  assert (Eq2 : upsert_questions d1 qs nq2 = (d1, qm)).
  { unfold upsert_questions in Eq |- *. injection Eq as Hdq Hqm.
    destruct (insert_questions_spec nq1 qs dm) as (added & Hadd & _ & Hin).
    rewrite Hdq in Hadd.
    rewrite insert_questions_present.
    - rewrite Hq1, <- Hqm, Hdq. reflexivity.
    - intros q Hq. rewrite Hq1, Hadd. apply Hin, Hq. }
  rewrite Em2, Eq2.
  destruct (Hphase dq long_df qm mm na1 na2 d1 n Ea)
    as (d2 & H2 & Hq2 & Hm2 & Hlen & Htext & Hans).
  rewrite H2. exists d2. repeat split; auto.
  rewrite Hans. clear. induction (answers d1) as [|row l IH]; simpl; constructor; auto.
  destruct (matched qm mm long_df row); auto.
Qed.

(** ** Skipping and counting in the answer upsert *)

Lemma hits_last_write qid_map model_map pre r post p :
  guard r = true -> has_answer r = true ->
  resolve qid_map model_map r = Some p ->
  (forall r', In r' post -> hits qid_map model_map p r' = false) ->
  last_write qid_map model_map (pre ++ r :: post) p = answer_of r.
Proof.
  intros Hg Ht Hr Hpost. rewrite last_write_app. simpl.
  rewrite (last_write_none qid_map model_map post p Hpost).
  unfold hits. rewrite Hg, Ht, Hr. simpl.
  rewrite bool_decide_eq_true_2 by reflexivity.
  unfold answer_of. destruct (has_answer_text r Ht) as [t ->]. reflexivity.
Qed.

(** The records the guard turns away: a field is [None] or the empty text. *)
Lemma guard_false_iff r :
  guard r = false <->
  question_text r = None \/ question_text r = Some []
  \/ model_name r = None \/ model_name r = Some []
  \/ answer_text r = FNone \/ answer_text r = FStr [].
Proof.
  unfold guard.
  destruct (question_text r) as [[|c q]|], (model_name r) as [[|c' m]|],
    (answer_text r) as [| |[|c'' a]]; simpl;
    split; try reflexivity; try discriminate; auto 7;
    intros H; decompose [or] H; discriminate.
Qed.

(** C5, as the code has it: the answer upsert executes its statement for
    exactly the records whose three fields are true for Python, in batch
    order; the others, those with a field that is [None] or the empty text,
    change nothing and raise nothing. When every record that passes the
    guard has a text for answer and resolves to an existing question and
    model the call returns, and whenever it returns its result is the
    number of records that passed the guard; each of them then has a row
    for its pair, and the rows of a pair carry the answer text of the last
    record of the batch written to the pair. The count can exceed the
    number of distinct pairs, and of answer rows, when a pair repeats. *)
Theorem answers_upsert_skip_and_count :
  (forall (d : db) (rows : list long_record) (qid_map model_map : gmap str Z)
          (now : timestamp),
     insert_or_update_answers d rows qid_map model_map now
       = insert_or_update_answers d (List.filter guard rows) qid_map model_map now
     /\ (forall r, guard r = false <->
           question_text r = None \/ question_text r = Some []
           \/ model_name r = None \/ model_name r = Some []
           \/ answer_text r = FNone \/ answer_text r = FStr [])
     /\ ((forall r, In r rows -> guard r = true ->
            has_answer r = true
            /\ exists qid mid, resolve qid_map model_map r = Some (qid, mid)
                               /\ In qid (List.map q_id (questions d))
                               /\ In mid (List.map m_id (models d))) ->
         exists d', insert_or_update_answers d rows qid_map model_map now
                    = (d', Returned (length (List.filter guard rows))))
     /\ (forall d' n,
           insert_or_update_answers d rows qid_map model_map now = (d', Returned n) ->
           n = length (List.filter guard rows)
           /\ forall pre r post p,
                rows = pre ++ r :: post ->
                guard r = true -> resolve qid_map model_map r = Some p ->
                (forall r', In r' post -> hits qid_map model_map p r' = false) ->
                (exists row, In row (answers d') /\ pair_of row = p)
                /\ (forall row, In row (answers d') -> pair_of row = p ->
                      FStr (a_answer_text row) = answer_text r
                      /\ a_created_at row = now)))
  /\ (exists d',
        insert_or_update_answers Sample.store Sample.batch_repeat
          Sample.qid_map Sample.model_map 200%Z = (d', Returned 2)
        /\ List.map (fun row => (pair_of row, a_answer_text row)) (answers d')
           = [((1%Z, 2%Z), lit "4")]).
Proof.
  split.
  - intros d rows qid_map model_map now. unfold insert_or_update_answers.
    split; [apply answers_loop_filter|]. split; [apply guard_false_iff|]. split.
    + intros Hall. apply (answers_loop_returns qid_map model_map now rows d 0 Hall).
    + intros d' n H.
      pose proof (answers_loop_spec qid_map model_map now rows d 0 d' n H)
        as (Hn & _ & _ & _ & Hpres).
      pose proof (answers_loop_answered qid_map model_map now rows d 0 d' n H) as Htext.
      split; [exact Hn|].
      intros pre r post p -> Hg Hr Hpost.
      assert (Hin : In r (pre ++ r :: post))
        by (apply in_app_iff; right; left; reflexivity).
      rewrite List.Forall_forall in Htext. pose proof (Htext r Hin Hg) as Ht.
      pose proof (hits_last_write qid_map model_map pre r post p Hg Ht Hr Hpost) as Hlw.
      split.
      * rewrite List.Forall_forall in Hpres.
        destruct (Hpres r Hin Hg) as (p' & Hp' & Hin').
        assert (p' = p) by congruence. subst p'.
        apply in_map_iff in Hin' as (row & Hrow & Hin'). eauto.
      * intros row Hrow <-.
        destruct (has_answer_text r Ht) as [t Ha].
        unfold answer_of in Hlw. rewrite Ha in Hlw |- *.
        destruct (answers_loop_texts qid_map model_map now _ d 0 d' n H row t Hrow Hlw)
          as [-> Hc].
        split; [reflexivity | exact Hc].
  - eexists. split; vm_compute; reflexivity.
Qed.

(** C5 as stated fails: a record with an absent answer is not always
    skipped. The record of the blank cell of the scenario, as [read_table]
    keeps it with the override when pandas marks the missing answer with the
    float NaN, passes the guard, and the call raises on it where skipping it
    would return 0. *)
Lemma answers_upsert_nan_counterexample :
  let r := {| question_text := Some Sample.q2; model_name := Some Sample.gpt;
              answer_text := FNaN |} in
  In r (reshape AsNaN Sample.sheet None true)
  /\ has_answer r = false
  /\ insert_or_update_answers Sample.store [r] Sample.qid_map Sample.model_map 200%Z
     = (Sample.store, Raised IntegrityError)
  /\ insert_or_update_answers Sample.store [] Sample.qid_map Sample.model_map 200%Z
     = (Sample.store, Returned 0)
  /\ insert_or_update_answers Sample.store [r] Sample.qid_map Sample.model_map 200%Z
     <> insert_or_update_answers Sample.store [] Sample.qid_map Sample.model_map 200%Z.
Proof.
  intros r. split; [right; left; reflexivity|].
  split; [reflexivity|]. split; [vm_compute; reflexivity|].
  split; [vm_compute; reflexivity|]. vm_compute. discriminate.
Qed.

(** ** Facts about the reshaping *)

Section FrameFacts.

Variable na : na_value.

Lemma nth_error_concat_uniform {A} (R : nat) (ls : list (list A)) :
  Forall (fun l => length l = R) ls ->
  forall i j, i < R -> j < length ls ->
  nth_error (concat ls) (j * R + i) = nth_error (nth j ls []) i.
Proof.
  induction 1 as [|l r Hl Hr IH]; intros i j Hi Hj; simpl in Hj; [lia|].
  destruct j as [|j]; simpl.
  - apply nth_error_app1. lia.
  - rewrite nth_error_app2 by lia.
    replace (R + j * R + i - length l) with (j * R + i) by lia.
    apply IH; lia.
Qed.

Lemma length_concat_uniform {A} (R : nat) (ls : list (list A)) :
  Forall (fun l => length l = R) ls -> length (concat ls) = length ls * R.
Proof.
  induction 1 as [|l r Hl Hr IH]; simpl; [reflexivity|].
  rewrite List.length_app, IH, Hl. reflexivity.
Qed.

Lemma nth_error_combine {A B} (a : list A) (b : list B) n :
  nth_error (combine a b) n =
  match nth_error a n, nth_error b n with
  | Some x, Some y => Some (x, y)
  | _, _ => None
  end.
Proof.
  revert b n. induction a as [|x a IH]; intros [|y b] [|n]; simpl; try reflexivity.
  - destruct (nth_error a n); reflexivity.
  - apply IH.
Qed.

Lemma find_label_map (g : column -> list value) (p : value -> bool) (df : DataFrame) :
  List.find (fun c => p (fst c)) (List.map (fun c => (fst c, g c)) df)
  = option_map (fun c => (fst c, g c)) (List.find (fun c => p (fst c)) df).
Proof.
  induction df as [|c df IH]; simpl; [reflexivity|].
  destruct (p (fst c)); [reflexivity | exact IH].
Qed.

Lemma question_cells_found (df : DataFrame) :
  In QUESTION_TEXT (labels df) ->
  exists c, In c df /\ fst c = QUESTION_TEXT /\ question_cells df = snd c.
Proof.
  unfold question_cells, labels. intros Hin.
  match goal with
  | |- context [List.find ?p df] => destruct (List.find p df) as [c|] eqn:E
  end.
  - apply find_some in E as [Hc Hl]. apply bool_decide_eq_true in Hl. eauto.
  - apply in_map_iff in Hin as (c & Hl & Hc).
    pose proof (find_none _ _ E c Hc) as Hn. simpl in Hn.
    apply bool_decide_eq_false in Hn. congruence.
Qed.

Lemma question_column_label (df : DataFrame) question_col :
  df <> [] -> In (question_column df question_col) (labels df).
Proof.
  intros Hne. unfold question_column.
  assert (Hhd : In (hd (VStr []) (labels df)) (labels df))
    by (destruct df; [congruence | left; reflexivity]).
  destruct question_col as [[|c qc]|]; auto.
  destruct (bool_decide (VStr (c :: qc) ∈ labels df)) eqn:E; [|exact Hhd].
  apply bool_decide_eq_true, list_elem_of_In in E. exact E.
Qed.

Lemma labels_rename_question qcol (df : DataFrame) :
  In qcol (labels df) -> In QUESTION_TEXT (labels (rename qcol df)).
Proof.
  unfold labels, rename. rewrite List.map_map. intros Hin.
  apply in_map_iff in Hin as (c & <- & Hc). apply in_map_iff.
  exists c. split; [|exact Hc]. simpl.
  rewrite bool_decide_eq_true_2 by reflexivity. reflexivity.
Qed.

Lemma labels_clean_questions (df : DataFrame) :
  labels (clean_questions df) = labels df.
Proof.
  unfold labels, clean_questions. rewrite List.map_map. apply List.map_ext.
  intros c. destruct (bool_decide _); reflexivity.
Qed.

Lemma labels_dropna_questions (df : DataFrame) :
  labels (dropna_questions df) = labels df.
Proof. unfold labels, dropna_questions. rewrite List.map_map. reflexivity. Qed.

Lemma labels_prepare (df : DataFrame) question_col :
  labels (prepare df question_col)
  = labels (rename (question_column df question_col) df).
Proof.
  unfold prepare. rewrite labels_dropna_questions, labels_clean_questions. reflexivity.
Qed.

Lemma heights_rename qcol (df : DataFrame) N :
  Forall (fun c => length (snd c) = N) df ->
  Forall (fun c => length (snd c) = N) (rename qcol df).
Proof. intros H. unfold rename. apply Forall_map. exact H. Qed.

Lemma heights_clean_questions (df : DataFrame) N :
  Forall (fun c => length (snd c) = N) df ->
  Forall (fun c => length (snd c) = N) (clean_questions df).
Proof.
  intros H. unfold clean_questions. apply Forall_map.
  eapply List.Forall_impl; [|exact H]. intros c Hc.
  destruct (bool_decide _); simpl; [rewrite List.length_map|]; exact Hc.
Qed.

Lemma length_select mask cells :
  length cells = length mask ->
  length (select mask cells) = length (List.filter (fun b => b) mask).
Proof.
  revert cells. induction mask as [|b mask IH]; intros [|v cells] H;
    simpl in *; try discriminate; [reflexivity|].
  destruct b; simpl; rewrite IH by lia; reflexivity.
Qed.

(** Dropping the rows without question text leaves a table whose columns,
    the question column among them, all have the same height. *)
Lemma heights_dropna_questions (df : DataFrame) N :
  In QUESTION_TEXT (labels df) ->
  Forall (fun c => length (snd c) = N) df ->
  let table := dropna_questions df in
  Forall (fun c => length (snd c) = nrows table) table
  /\ length (question_cells table) = nrows table.
Proof.
  intros Hq Hh table.
  destruct (question_cells_found df Hq) as (qc & Hqc & Hl & Hcells).
  set (mask := List.map (fun v => negb (isna v)) (question_cells df)).
  assert (Hmask : length mask = N).
  { subst mask. rewrite List.length_map, Hcells.
    rewrite List.Forall_forall in Hh. apply Hh, Hqc. }
  assert (Hall : Forall (fun c => length (snd c)
                           = length (List.filter (fun b => b) mask)) table).
  { subst table. unfold dropna_questions. fold mask. apply Forall_map.
    eapply List.Forall_impl; [|exact Hh]. intros c Hc. simpl.
    apply length_select. congruence. }
  assert (Hn : nrows table = length (List.filter (fun b => b) mask)).
  { unfold nrows. destruct table as [|c t] eqn:E.
    - subst table. unfold dropna_questions in E. destruct df; [destruct Hqc | discriminate].
    - inversion Hall; assumption. }
  rewrite Hn. split; [exact Hall|].
  assert (Hq' : In QUESTION_TEXT (labels table))
    by (subst table; rewrite labels_dropna_questions; exact Hq).
  destruct (question_cells_found table Hq') as (qc' & Hqc' & _ & ->).
  rewrite List.Forall_forall in Hall. apply Hall, Hqc'.
Qed.

Lemma prepare_heights (df : DataFrame) question_col :
  df <> [] ->
  Forall (fun c => length (snd c) = nrows df) df ->
  let table := prepare df question_col in
  Forall (fun c => length (snd c) = nrows table) table
  /\ length (question_cells table) = nrows table.
Proof.
  intros Hne Hh. unfold prepare.
  apply (heights_dropna_questions _ (nrows df)).
  - rewrite labels_clean_questions. apply labels_rename_question.
    apply question_column_label, Hne.
  - apply heights_clean_questions, heights_rename, Hh.
Qed.

(** The melted table, index by index: the record at position [j * R + i]
    is the one of row [i] and model column [j]. *)
Lemma long_rows_column_major (table : DataFrame) :
  Forall (fun c => length (snd c) = nrows table) table ->
  length (question_cells table) = nrows table ->
  length (long_rows na table) = nrows table * length (model_columns table)
  /\ forall i j, i < nrows table -> j < length (model_columns table) ->
       nth_error (long_rows na table) (j * nrows table + i)
       = Some (cell_record na table i j).
Proof.
  intros Hh Hq.
  set (R := nrows table) in *. set (mcols := model_columns table).
  assert (Hm : Forall (fun c => length (snd c) = R) mcols).
  { subst mcols. unfold model_columns. rewrite List.Forall_forall in Hh |- *.
    intros c Hc. apply filter_In in Hc as [Hc _]. apply Hh, Hc. }
  assert (Hid : Forall (fun l => length l = R)
                  (repeat (question_cells table) (length mcols))).
  { apply List.Forall_forall. intros l Hl. apply repeat_spec in Hl. subst l. exact Hq. }
  assert (Hvar : Forall (fun l => length l = R)
                   (List.map (fun c : value * list value => repeat (fst c) R) mcols)).
  { apply Forall_map, List.Forall_forall. intros c _. apply repeat_length. }
  assert (Hval : Forall (fun l => length l = R) (List.map snd mcols)).
  { apply Forall_map. exact Hm. }
  unfold long_rows, melt_id, melt_variable, melt_value. fold mcols. fold R.
  rewrite flat_map_concat_map.
  split.
  - rewrite List.length_map, !List.length_combine.
    rewrite (length_concat_uniform R _ Hid), (length_concat_uniform R _ Hvar),
      (length_concat_uniform R _ Hval).
    rewrite repeat_length, !List.length_map, !Nat.min_id. apply Nat.mul_comm.
  - intros i j Hi Hj.
    rewrite nth_error_map, !nth_error_combine.
    rewrite (nth_error_concat_uniform R _ Hid) by (rewrite ?repeat_length; lia).
    rewrite (nth_error_concat_uniform R _ Hvar) by (try rewrite List.length_map; first [exact Hi | exact Hj]).
    rewrite (nth_error_concat_uniform R _ Hval) by (try rewrite List.length_map; first [exact Hi | exact Hj]).
    rewrite (nth_indep _ [] (question_cells table))
      by (rewrite repeat_length; exact Hj).
    rewrite nth_repeat.
    rewrite (nth_indep _ [] (repeat (fst (@pair value (list value) (VStr []) [])) R))
      by (rewrite List.length_map; exact Hj).
    rewrite (List.map_nth (fun c : value * list value => repeat (fst c) R)).
    rewrite (nth_indep _ [] (snd (@pair value (list value) (VStr []) [])))
      by (rewrite List.length_map; exact Hj).
    rewrite (List.map_nth (@snd value (list value))).
    rewrite (nth_error_nth' _ VNone) by (rewrite Hq; exact Hi).
    rewrite nth_error_repeat by exact Hi.
    assert (Hc : length (snd (nth j mcols (VStr [], []))) = R).
    { rewrite List.Forall_forall in Hm. apply Hm, nth_In, Hj. }
    rewrite (nth_error_nth' _ VNone) by exact (eq_ind_r (fun n => i < n) Hi Hc).
    reflexivity.
Qed.


Lemma length_model_columns (df : DataFrame) :
  List.NoDup (labels df) -> In QUESTION_TEXT (labels df) ->
  S (length (model_columns df)) = length df.
Proof.
  unfold model_columns, labels.
  induction df as [|c df IH]; simpl; intros Hnd Hin; [destruct Hin|].
  inversion Hnd as [|? ? Hnin Hnd']; subst.
  destruct (bool_decide (fst c = QUESTION_TEXT)) eqn:E; simpl.
  - apply bool_decide_eq_true in E. f_equal.
    clear IH Hin Hnd Hnd'. rewrite E in Hnin.
    induction df as [|c' df IH]; simpl; [reflexivity|].
    simpl in Hnin.
    rewrite bool_decide_eq_false_2 by (intros H; apply Hnin; left; exact H).
    simpl. f_equal. apply IH. tauto.
  - apply bool_decide_eq_false in E. f_equal. apply IH; [exact Hnd'|].
    destruct Hin as [Hin|Hin]; [congruence | exact Hin].
Qed.

Lemma in_domain_spec (df : DataFrame) question_col :
  in_domain df question_col = true ->
  2 <= length df
  /\ Forall (fun c => length (snd c) = nrows df) df
  /\ List.NoDup (labels (rename (question_column df question_col) df)).
Proof.
  unfold in_domain. rewrite !andb_true_iff.
  intros [[[H1 H2] H3] _].
  apply Nat.leb_le in H1. apply bool_decide_eq_true, NoDup_ListNoDup in H3.
  repeat split; [exact H1 | | exact H3].
  rewrite forallb_forall in H2. apply List.Forall_forall.
  intros c Hc. apply Nat.eqb_eq, H2, Hc.
Qed.

(** On a frame of its domain [read_frame] returns, and what it returns is
    the reshaped frame. *)
Lemma read_frame_in_domain (df : DataFrame) question_col keep :
  in_domain df question_col = true ->
  read_frame na df question_col keep = Returned (reshape na df question_col keep).
Proof.
  unfold in_domain, read_frame. rewrite !andb_true_iff. cbv zeta.
  intros [[_ H3] H4]. rewrite H3. apply negb_true_iff in H4. rewrite H4. reflexivity.
Qed.

Lemma read_frame_returned (df : DataFrame) question_col keep batch :
  read_frame na df question_col keep = Returned batch ->
  batch = reshape na df question_col keep.
Proof.
  unfold read_frame. cbv zeta.
  destruct (negb _); [discriminate|]. destruct (bool_decide _); [discriminate|].
  intros [= <-]. reflexivity.
Qed.

Lemma read_frame_not_value_error (df : DataFrame) question_col keep msg :
  read_frame na df question_col keep <> Raised (ValueError msg).
Proof.
  unfold read_frame. cbv zeta.
  destruct (negb _); [discriminate|]. destruct (bool_decide _); discriminate.
Qed.

End FrameFacts.

(** ** Properties of the reshaping *)

(** C3, as the code has it: for a table with [R] rows left after the rows
    without question text are dropped, and [C] model columns (all columns but
    the question column), the reshaping yields [R * C] long records before
    the empty-answer filter, model column by model column: first every row
    of the first model column from top to bottom, then every row of the
    second, and so on. Record [j * R + i] is the one of row [i] and model
    column [j]. *)
Theorem reshape_column_major
    (na : na_value) (df : DataFrame) (question_col : option str) :
  in_domain df question_col = true ->
  let table := prepare df question_col in
  read_frame na df question_col true = Returned (reshape na df question_col true)
  /\ length (reshape na df question_col true)
     = nrows table * length (model_columns table)
  /\ S (length (model_columns table)) = length df
  /\ column_major_order na df question_col.
Proof.
  intros Hdom table.
  destruct (in_domain_spec df question_col Hdom) as (Hlen & Hh & Hnd).
  assert (Hne : df <> []) by (destruct df; [simpl in Hlen; lia | discriminate]).
  destruct (prepare_heights df question_col Hne Hh) as [Hth Htq].
  fold table in Hth, Htq.
  destruct (long_rows_column_major na table Hth Htq) as [Hl Hidx].
  split; [apply read_frame_in_domain, Hdom|].
  split; [exact Hl|]. split.
  - replace (length df) with (length table).
    + apply length_model_columns.
      * subst table. rewrite labels_prepare. exact Hnd.
      * subst table. rewrite labels_prepare. apply labels_rename_question.
        apply question_column_label, Hne.
    + subst table. unfold prepare, dropna_questions, clean_questions, rename.
      rewrite !List.length_map. reflexivity.
  - exact Hidx.
Qed.

(** C3 as stated fails: on the sheet of the scenario the second long record
    is that of the second row and the first model column, not that of the
    first row and the second model column. *)
Lemma reshape_row_major_counterexample :
  ~ row_major_order AsNone Sample.sheet None
  /\ ~ row_major_order AsNaN Sample.sheet None.
Proof.
  assert (H0 : 0 < nrows (prepare Sample.sheet None)) by (vm_compute; lia).
  assert (H1 : 1 < length (model_columns (prepare Sample.sheet None)))
    by (vm_compute; lia).
  split; unfold row_major_order; cbv zeta; intros H;
    specialize (H 0 1 H0 H1); vm_compute in H; discriminate.
Qed.

(** ** Properties of the reader *)

Lemma supported_cases sfx :
  supported sfx = bool_decide (sfx ∈ [lit ".xlsx"; lit ".xls"])
                  || bool_decide (sfx = lit ".csv").
Proof.
  unfold supported.
  destruct (bool_decide (sfx ∈ [lit ".xlsx"; lit ".xls"])) eqn:E1;
  destruct (bool_decide (sfx = lit ".csv")) eqn:E2; simpl;
  repeat match goal with
         | H : bool_decide _ = true |- _ => apply bool_decide_eq_true in H
         | H : bool_decide _ = false |- _ => apply bool_decide_eq_false in H
         end;
  [apply bool_decide_eq_true | apply bool_decide_eq_true
   | apply bool_decide_eq_true | apply bool_decide_eq_false];
  rewrite !elem_of_cons, ?elem_of_nil in *; tauto.
Qed.

Lemma from_library_not_value_error {A} (r : option A) msg :
  from_library r <> Raised (ValueError msg).
Proof. destruct r; discriminate. Qed.

Lemma messages_differ sfx : TOO_FEW_COLUMNS <> UNSUPPORTED sfx.
Proof. unfold TOO_FEW_COLUMNS, UNSUPPORTED. simpl. discriminate. Qed.

Section ReaderFacts.

Variable na : na_value.
Context {path : Type}.
Variable suffix : path -> str.
Variable read_excel : path -> sheet_selector -> option DataFrame.
Variable read_sample : path -> option str.
Variable has_header : str -> option bool.
Variable sniff_delimiter : str -> option str.
Variable read_csv : path -> str -> option DataFrame.

Local Abbreviation load_frame' :=
  (load_frame path suffix read_excel read_sample has_header sniff_delimiter read_csv).
Local Abbreviation read_table' :=
  (read_table na path suffix read_excel read_sample has_header sniff_delimiter read_csv).

(** The frame is loaded only for a supported file type; for any other the
    unsupported-type error is raised, and only then. *)
Lemma load_frame_spec p sheet :
  (supported (lower (suffix p)) = false ->
     load_frame' p sheet = Raised (ValueError (UNSUPPORTED (suffix p))))
  /\ (supported (lower (suffix p)) = true ->
      forall msg, load_frame' p sheet <> Raised (ValueError msg)).
Proof.
  rewrite supported_cases. unfold load_frame. cbv zeta.
  destruct (bool_decide (lower (suffix p) ∈ [lit ".xlsx"; lit ".xls"])); simpl.
  - split; [discriminate|]. intros _ msg. apply from_library_not_value_error.
  - destruct (bool_decide (lower (suffix p) = lit ".csv")); simpl.
    + split; [discriminate|]. intros _ msg.
      destruct (read_sample p) as [sample|]; simpl; [|discriminate].
      destruct (has_header sample) as [[|]|]; simpl; [| |discriminate].
      * destruct (sniff_delimiter sample) as [dl|]; simpl; [|discriminate].
        apply from_library_not_value_error.
      * apply from_library_not_value_error.
    + split; [reflexivity | discriminate].
Qed.

(** C7: [read_table] raises the unsupported-type error exactly when the
    lowered suffix is none of [.xlsx], [.xls] and [.csv]; it raises the
    too-few-columns error exactly when a frame was loaded and has fewer than
    two columns; and a frame is loaded only for a supported suffix. When a
    frame with at least two columns is loaded, [read_table] raises neither,
    nor any other exception of its own: it goes on to reshape the frame, and
    returns its long records unless pandas raises on it, which it does not
    on a frame of [in_domain]. *)
Theorem read_table_failures (p : path) (sheet : option sheet_selector)
    (question_col : option str) (keep_empty_answers : bool) :
  (read_table' p sheet question_col keep_empty_answers
     = Raised (ValueError (UNSUPPORTED (suffix p)))
   <-> supported (lower (suffix p)) = false)
  /\ (read_table' p sheet question_col keep_empty_answers
      = Raised (ValueError TOO_FEW_COLUMNS)
      <-> exists df, load_frame' p sheet = Returned df /\ length df < 2)
  /\ (forall df, load_frame' p sheet = Returned df ->
        supported (lower (suffix p)) = true
        /\ (2 <= length df ->
            read_table' p sheet question_col keep_empty_answers
            = read_frame na df question_col keep_empty_answers
            /\ (forall msg, read_table' p sheet question_col keep_empty_answers
                            <> Raised (ValueError msg))
            /\ (in_domain df question_col = true ->
                read_table' p sheet question_col keep_empty_answers
                = Returned (reshape na df question_col keep_empty_answers)))).
Proof.
  destruct (load_frame_spec p sheet) as [Hun Hsup].
  unfold read_table.
  destruct (supported (lower (suffix p))) eqn:Es.
  - specialize (Hsup eq_refl). clear Hun.
    destruct (load_frame' p sheet) as [df|e] eqn:El; simpl.
    + destruct (Nat.ltb_spec (length df) 2) as [Hlt|Hge].
      * split; [split; [intros [= H]; destruct (messages_differ _ H) | discriminate]|].
        split; [split; [eauto | reflexivity]|].
        intros df' [= <-]. split; [reflexivity | lia].
      * split; [split; [intros H; destruct (read_frame_not_value_error _ _ _ _ _ H)
                       | discriminate]|].
        split; [split; [intros H; destruct (read_frame_not_value_error _ _ _ _ _ H)
                       | intros (df' & [= <-] & H); lia]|].
        intros df' [= <-]. split; [reflexivity|]. intros _.
        split; [reflexivity|].
        split; [intros msg; apply read_frame_not_value_error|].
        apply read_frame_in_domain.
    + split; [split; [intros [= ->]; destruct (Hsup _ eq_refl) | discriminate]|].
      split; [split; [intros [= ->]; destruct (Hsup _ eq_refl)
                     | intros (df & H & _); discriminate]|].
      intros df H. discriminate.
  - rewrite (Hun eq_refl). simpl.
    split; [split; reflexivity|].
    split; [split; [intros [= H]; symmetry in H; destruct (messages_differ _ H)
                   | intros (df & H & _); discriminate]|].
    intros df H. discriminate.
Qed.

(** C8: under the default policy [read_table] returns the long records of
    the override policy without those whose normalised answer text is
    absent, in the same order; with the override it returns them all. When
    the library loads a frame of the reader's domain, the batch [read_table]
    returns with the override holds the record of every row and model
    column, those without answer text included ([R * C] records in all), and
    the batch it returns under the default policy holds the record of a row
    and a model column exactly when the normalised text of that cell is
    present: no record of it is without answer. *)
Theorem empty_answer_policy (p : path) (sheet : option sheet_selector)
    (question_col : option str) :
  match read_table' p sheet question_col true with
  | Returned long =>
      read_table' p sheet question_col false
      = Returned (List.filter has_answer long)
  | Raised e => read_table' p sheet question_col false = Raised e
  end
  /\ (forall df, load_frame' p sheet = Returned df ->
      in_domain df question_col = true ->
      let table := prepare df question_col in
      exists kept dropped,
        read_table' p sheet question_col true = Returned kept
        /\ read_table' p sheet question_col false = Returned dropped
        /\ dropped = List.filter has_answer kept
        /\ length kept = nrows table * length (model_columns table)
        /\ Forall (fun r => has_answer r = true) dropped
        /\ (forall r, In r dropped <-> In r kept /\ has_answer r = true)
        /\ (forall i j, i < nrows table -> j < length (model_columns table) ->
              let cell := nth i (snd (nth j (model_columns table) (VStr [], []))) VNone in
              In (cell_record na table i j) kept
              /\ (has_answer (cell_record na table i j) = true
                  <-> clean_text cell <> None)
              /\ (In (cell_record na table i j) dropped
                  <-> clean_text cell <> None))).
Proof.
  split.
  - unfold read_table. destruct (load_frame' p sheet) as [df'|e]; simpl; [|reflexivity].
    destruct (length df' <? 2)%nat; [reflexivity|].
    unfold read_frame. cbv zeta.
    destruct (negb _); [reflexivity|]. destruct (bool_decide _); reflexivity.
  - intros df Hload Hdom table.
    destruct (in_domain_spec df question_col Hdom) as (Hlen & Hh & _).
    assert (Hne : df <> []) by (destruct df; [simpl in Hlen; lia | discriminate]).
    destruct (prepare_heights df question_col Hne Hh) as [Hth Htq].
    destruct (long_rows_column_major na _ Hth Htq) as [Hl Hcm].
    assert (Hrt : forall keep, read_table' p sheet question_col keep
                    = Returned (reshape na df question_col keep)).
    { intros keep. unfold read_table. rewrite Hload. simpl.
      destruct (Nat.ltb_spec (length df) 2) as [Hlt|_]; [lia|].
      apply read_frame_in_domain, Hdom. }
    assert (Hin : forall r, In r (reshape na df question_col false) <->
                    In r (reshape na df question_col true) /\ has_answer r = true).
    { intros r. unfold reshape. simpl. apply filter_In. }
    exists (reshape na df question_col true), (reshape na df question_col false).
    split; [apply Hrt|]. split; [apply Hrt|]. split; [reflexivity|].
    split; [exact Hl|]. split.
    { apply List.Forall_forall. intros r Hr. apply Hin in Hr. tauto. }
    split; [exact Hin|].
    intros i j Hi Hj cell.
    assert (Hrec : In (cell_record na table i j) (reshape na df question_col true))
      by (eapply nth_error_In; apply (Hcm i j Hi Hj)).
    assert (Hans : has_answer (cell_record na table i j) = true
                   <-> clean_text cell <> None).
    { unfold has_answer, cell_record. cbn [answer_text]. fold cell.
      destruct (clean_text cell) as [t|]; simpl.
      - split; [discriminate | reflexivity].
      - destruct na; simpl; split; intros H; congruence. }
    split; [exact Hrec|]. split; [exact Hans|].
    rewrite Hin, Hans. tauto.
Qed.

End ReaderFacts.

(** ** The properties at the scenario of the specification *)

(** The sheet of the scenario gives three long records under the default
    policy. *)
Example scenario_read :
  forall na, read_frame na Sample.sheet None false = Returned Sample.batch.
Proof. intros []; vm_compute; reflexivity. Qed.

(** Loading them into a new database: two questions, two models, three
    answers. *)
Example scenario_load :
  exists d, load None Sample.batch 100%Z 200%Z = (d, Returned (2, 2, 3))
            /\ length (questions d) = 2 /\ length (models d) = 2
            /\ length (answers d) = 3.
Proof. eexists. repeat split; vm_compute; reflexivity. Qed.

(** Loading again with the first answer changed from [Four] to [4]: still
    three answer rows, and the row of the first question and [gpt] now
    reads [4] and carries the new clock reading. *)
Example scenario_reload :
  let d1 := fst (load None Sample.batch 100%Z 200%Z) in
  let changed := Sample.record Sample.q1 Sample.gpt (lit "4") :: tl Sample.batch in
  exists d2, load (Some d1) changed 300%Z 400%Z = (d2, Returned (2, 2, 3))
             /\ List.map (fun row => (pair_of row, a_answer_text row, a_created_at row))
                  (answers d2)
                = [((1, 2)%Z, lit "4", 400%Z);
                   ((1, 1)%Z, lit "It is 4", 400%Z);
                   ((2, 1)%Z, lit "Because", 400%Z)].
Proof. eexists. split; vm_compute; reflexivity. Qed.

(** Loading the scenario twice: the second run of the answer upsert
    returns the count of the first and only refreshes timestamps. *)
Lemma answers_upsert_idempotent_witness :
  let d1 := fst (insert_or_update_answers Sample.store Sample.batch
                   Sample.qid_map Sample.model_map 200%Z) in
  insert_or_update_answers Sample.store Sample.batch
    Sample.qid_map Sample.model_map 200%Z = (d1, Returned 3)
  /\ exists d2,
       insert_or_update_answers d1 Sample.batch
         Sample.qid_map Sample.model_map 300%Z = (d2, Returned 3)
       /\ questions d2 = questions d1 /\ models d2 = models d1
       /\ length (answers d2) = length (answers d1)
       /\ List.map a_answer_text (answers d2) = List.map a_answer_text (answers d1)
       /\ answers d2 =
          List.map (fun row => if matched Sample.qid_map Sample.model_map Sample.batch row
                               then set_created_at 300%Z row else row)
                   (answers d1).
Proof.
  intros d1.
  assert (H : insert_or_update_answers Sample.store Sample.batch
                Sample.qid_map Sample.model_map 200%Z = (d1, Returned 3))
    by (vm_compute; reflexivity).
  split; [exact H|].
  exact (proj1 answers_upsert_idempotent Sample.store Sample.batch
           Sample.qid_map Sample.model_map 200%Z 300%Z d1 3 H).
Defined.

(** The store after a batch that writes one pair twice holds one row for
    the pair. *)
Lemma answers_unique_pairs_witness :
  let d0 := fst (upsert_questions
                   (fst (upsert_model_ids (create_schema None)
                           [Sample.gpt; Sample.claude]))
                   [Sample.q1; Sample.q2] 100%Z) in
  let d := fst (insert_or_update_answers d0 Sample.batch_repeat
                  Sample.qid_map Sample.model_map 200%Z) in
  reachable d
  /\ length (List.filter (same_pair 1 2) (answers d)) <= 1.
Proof.
  intros d0 d.
  assert (H : reachable d).
  { apply reach_answers, reach_questions, reach_models, reach_new. }
  split; [exact H|].
  exact (answers_unique_pairs d H 1%Z 2%Z).
Defined.

(** The sheet of the scenario, reshaped: four long records, column by
    column. *)
Lemma reshape_column_major_witness :
  in_domain Sample.sheet None = true
  /\ read_frame AsNaN Sample.sheet None true
     = Returned (reshape AsNaN Sample.sheet None true)
  /\ length (reshape AsNaN Sample.sheet None true)
     = nrows (prepare Sample.sheet None)
       * length (model_columns (prepare Sample.sheet None))
  /\ S (length (model_columns (prepare Sample.sheet None))) = length Sample.sheet
  /\ column_major_order AsNaN Sample.sheet None.
Proof.
  assert (H : in_domain Sample.sheet None = true) by (vm_compute; reflexivity).
  split; [exact H|].
  exact (reshape_column_major AsNaN Sample.sheet None H).
Defined.

(** The batch with a repeated pair and a record without answer: the call
    returns, and returns 2. *)
Lemma answers_upsert_skip_and_count_witness :
  let d' := fst (insert_or_update_answers Sample.store Sample.batch_repeat
                   Sample.qid_map Sample.model_map 200%Z) in
  insert_or_update_answers Sample.store Sample.batch_repeat
    Sample.qid_map Sample.model_map 200%Z = (d', Returned 2)
  /\ 2 = length (List.filter guard Sample.batch_repeat).
Proof.
  intros d'.
  assert (H : insert_or_update_answers Sample.store Sample.batch_repeat
                Sample.qid_map Sample.model_map 200%Z = (d', Returned 2))
    by (vm_compute; reflexivity).
  split; [exact H|].
  exact (proj1 (proj2 (proj2 (proj2 (proj1 answers_upsert_skip_and_count
           Sample.store Sample.batch_repeat Sample.qid_map Sample.model_map 200%Z)))
           d' 2 H)).
Defined.

(** A file of an unknown type, read with a library that would load the
    sheet of the scenario from any path. *)
Lemma read_table_failures_witness :
  supported (lower (lit ".TXT")) = false
  /\ read_table AsNone str (fun p => p) (fun _ _ => Some Sample.sheet)
       (fun _ => None) (fun _ => None) (fun _ => None) (fun _ _ => None)
       (lit ".TXT") None None false
     = Raised (ValueError (UNSUPPORTED (lit ".TXT"))).
Proof.
  assert (H : supported (lower (lit ".TXT")) = false) by (vm_compute; reflexivity).
  split; [exact H|].
  exact (proj2 (proj1 (read_table_failures AsNone (fun p : str => p)
           (fun _ _ => Some Sample.sheet)
           (fun _ => None) (fun _ => None) (fun _ => None) (fun _ _ => None)
           (lit ".TXT") None None false)) H).
Defined.

(** The blank cell of the scenario (second row, first model column), the
    sheet being read from a spreadsheet file: its record is in the batch
    [read_table] returns with the override and not in the one it returns
    under the default policy. *)
Lemma empty_answer_policy_witness :
  load_frame str (fun _ => lit ".xlsx") (fun _ _ => Some Sample.sheet)
    (fun _ => None) (fun _ => None) (fun _ => None) (fun _ _ => None)
    (lit "qna.xlsx") None = Returned Sample.sheet
  /\ in_domain Sample.sheet None = true
  /\ exists kept dropped,
       read_table AsNaN str (fun _ => lit ".xlsx") (fun _ _ => Some Sample.sheet)
         (fun _ => None) (fun _ => None) (fun _ => None) (fun _ _ => None)
         (lit "qna.xlsx") None None true = Returned kept
       /\ read_table AsNaN str (fun _ => lit ".xlsx") (fun _ _ => Some Sample.sheet)
            (fun _ => None) (fun _ => None) (fun _ => None) (fun _ _ => None)
            (lit "qna.xlsx") None None false = Returned dropped
       /\ length kept = 4
       /\ In {| question_text := Some Sample.q2; model_name := Some Sample.gpt;
                answer_text := FNaN |} kept
       /\ ~ In {| question_text := Some Sample.q2; model_name := Some Sample.gpt;
                  answer_text := FNaN |} dropped.
Proof.
  assert (Hl : load_frame str (fun _ => lit ".xlsx") (fun _ _ => Some Sample.sheet)
                 (fun _ => None) (fun _ => None) (fun _ => None) (fun _ _ => None)
                 (lit "qna.xlsx") None = Returned Sample.sheet)
    by (vm_compute; reflexivity).
  assert (H : in_domain Sample.sheet None = true) by (vm_compute; reflexivity).
  assert (H1 : 1 < nrows (prepare Sample.sheet None)) by (vm_compute; lia).
  assert (H0 : 0 < length (model_columns (prepare Sample.sheet None)))
    by (vm_compute; lia).
  split; [exact Hl|]. split; [exact H|].
  destruct (proj2 (empty_answer_policy AsNaN (fun _ : str => lit ".xlsx")
              (fun _ _ => Some Sample.sheet)
              (fun _ => None) (fun _ => None) (fun _ => None) (fun _ _ => None)
              (lit "qna.xlsx") None None) Sample.sheet Hl H)
    as (kept & dropped & Hk & Hd & _ & Hlen & _ & _ & Hcells).
  destruct (Hcells 1 0 H1 H0) as (Hin & _ & Hiff).
  exists kept, dropped. split; [exact Hk|]. split; [exact Hd|].
  split; [exact Hlen|]. split; [exact Hin|].
  intros Hc. apply Hiff in Hc. apply Hc. vm_compute. reflexivity.
Defined.

(** The first record of the scenario finds both of its keys. *)
Lemma resolved_identities_present_witness :
  let r := Sample.record Sample.q1 Sample.gpt (lit "Four") in
  In r Sample.batch /\ guard r = true
  /\ exists q m qid mid,
       question_text r = Some q /\ model_name r = Some m
       /\ snd (upsert_questions
                 (fst (upsert_model_ids empty_db
                         (unique (dropna (List.map model_name Sample.batch)))))
                 (unique (dropna (List.map question_text Sample.batch))) 100%Z)
            !! q = Some qid
       /\ snd (upsert_model_ids empty_db
                 (unique (dropna (List.map model_name Sample.batch))))
            !! m = Some mid.
Proof.
  intros r.
  assert (Hin : In r Sample.batch) by (left; reflexivity).
  assert (Hg : guard r = true) by reflexivity.
  split; [exact Hin|]. split; [exact Hg|].
  exact (proj1 (resolved_identities_present empty_db Sample.batch 100%Z 200%Z)
           r Hin Hg).
Defined.


(** * Further properties of the loader *)

(** ** The normaliser only touches whitespace *)

Section ContentFacts.

Local Open Scope N_scope.

Lemma nonws_app a b : nonws (a ++ b) = nonws a ++ nonws b.
Proof. unfold nonws. apply List.filter_app. Qed.

Lemma nonws_nil_iff s : nonws s = [] <-> Forall (fun c => isspace c = true) s.
Proof.
  unfold nonws. induction s as [|c s IH]; simpl.
  - split; [constructor | reflexivity].
  - destruct (isspace c) eqn:E; simpl.
    + rewrite IH. split; [intros H; constructor; assumption | intros H; inversion H; assumption].
    + split; [discriminate | intros H; inversion H; congruence].
Qed.

Lemma nonws_replace old new s :
  isspace old = true -> isspace new = true -> nonws (replace old new s) = nonws s.
Proof.
  intros Ho Hn. unfold nonws, replace.
  induction s as [|c s IH]; simpl; [reflexivity|].
  destruct (N.eqb_spec c old) as [->|_]; rewrite ?Ho, ?Hn; simpl; rewrite IH; reflexivity.
Qed.

Lemma nonws_lstrip s : nonws (lstrip s) = nonws s.
Proof.
  unfold nonws. induction s as [|c s IH]; simpl; [reflexivity|].
  destruct (isspace c) eqn:E; simpl; [exact IH | rewrite E; reflexivity].
Qed.

Lemma nonws_rstrip s : nonws (rstrip s) = nonws s.
Proof.
  unfold nonws. induction s as [|c s IH]; simpl; [reflexivity|].
  destruct (rstrip s) as [|x r] eqn:Er.
  - simpl in IH. rewrite <- IH.
    destruct (isspace c) eqn:E; simpl; rewrite ?E; reflexivity.
  - simpl. rewrite <- IH. reflexivity.
Qed.

Lemma nonws_join ls : nonws (join [LF] ls) = concat (List.map nonws ls).
Proof.
  induction ls as [|l r IH]; [reflexivity|].
  destruct r as [|l2 r].
  - simpl. rewrite app_nil_r. reflexivity.
  - change (join [LF] (l :: l2 :: r)) with (l ++ LF :: join [LF] (l2 :: r)).
    rewrite nonws_app. change (nonws (LF :: join [LF] (l2 :: r)))
      with (nonws (join [LF] (l2 :: r))).
    rewrite IH. reflexivity.
Qed.

Lemma nonws_splitlines s : concat (List.map nonws (splitlines s)) = nonws s.
Proof.
  induction s as [|c rest IH1 IH2] using str_ind2; [reflexivity|].
  simpl splitlines. destruct (islinebreak c) eqn:Eb.
  - pose proof (islinebreak_isspace c Eb) as Es.
    change (nonws (c :: rest)) with (if negb (isspace c) then c :: nonws rest else nonws rest).
    rewrite Es. simpl.
    destruct rest as [|c2 rest2]; [reflexivity|].
    destruct ((c =? CR) && (c2 =? LF)) eqn:E; [|exact IH1].
    apply andb_true_iff in E as [_ E2]. apply N.eqb_eq in E2. subst c2.
    simpl in IH2. rewrite IH2. reflexivity.
  - change (nonws (c :: rest)) with (nonws ([c] ++ rest)). rewrite nonws_app.
    rewrite <- IH1. destruct (splitlines rest) as [|l ls]; cbn [List.map concat].
    + rewrite !app_nil_r. reflexivity.
    + change (nonws (c :: l)) with (nonws ([c] ++ l)).
      rewrite nonws_app, app_assoc. reflexivity.
Qed.

Lemma nonws_map_rstrip ls :
  concat (List.map nonws (List.map rstrip ls)) = concat (List.map nonws ls).
Proof.
  induction ls as [|l r IH]; simpl; [reflexivity|].
  rewrite nonws_rstrip, IH. reflexivity.
Qed.

(** The steps of [clean_text] after [str(s)], on the non-whitespace
    characters. *)
Lemma nonws_normalised s :
  nonws (strip (join [LF] (List.map rstrip
           (splitlines (replace NBSP SPACE (replace CR LF s))))))
  = nonws s.
Proof.
  unfold strip. rewrite nonws_rstrip, nonws_lstrip, nonws_join, nonws_map_rstrip,
    nonws_splitlines.
  rewrite !nonws_replace by reflexivity. reflexivity.
Qed.

End ContentFacts.

(** X1: whatever [clean_text] returns has the non-whitespace characters of
    the input text, all of them and in the same order: normalising changes
    whitespace only. *)
Theorem clean_text_keeps_content (v : value) :
  match clean_text v with
  | Some t => nonws t = nonws (py_str v)
  | None => True
  end.
Proof.
  destruct v as [|s|s]; [exact I| |]; unfold clean_text; cbv zeta; simpl py_str;
    pose proof (nonws_normalised s) as H;
    destruct (strip _); [exact I | exact H | exact I | exact H].
Qed.

(** X2: [clean_text] returns [None] exactly on [None] and on the values
    whose text is empty or all whitespace (spaces, tabs, line boundaries,
    non-breaking spaces and the other characters of [str.isspace]). *)
Theorem clean_text_none_iff (v : value) :
  clean_text v = None <->
  v = VNone \/ Forall (fun c => isspace c = true) (py_str v).
Proof.
  assert (H : forall s,
    match (let s := replace NBSP SPACE (replace CR LF s) in
           let s := join [LF] (List.map rstrip (splitlines s)) in
           let s := strip s in
           match s with [] => None | _ :: _ => Some s end) with
    | None => Forall (fun c => isspace c = true) s
    | Some _ => ~ Forall (fun c => isspace c = true) s
    end).
  { intros s. cbv zeta. pose proof (nonws_normalised s) as Hn.
    pose proof (normalised_shape s) as (ls & _ & _ & _ & Hl & _). cbv zeta in Hl.
    destruct (strip _) as [|c t].
    - apply nonws_nil_iff. symmetry. exact Hn.
    - intros Hall. apply nonws_nil_iff in Hall. rewrite Hall in Hn.
      apply nonws_nil_iff in Hn. inversion Hn as [|? ? Hc _]; subst.
      pose proof (lstrip_head (c :: t)) as Hh. rewrite Hl in Hh. congruence. }
  destruct v as [|s|s].
  - split; [left; reflexivity | reflexivity].
  - specialize (H s). unfold clean_text. simpl py_str.
    destruct (let s0 := replace NBSP SPACE (replace CR LF s) in _) eqn:E;
      (split; [intros Hc | intros [Hc|Hc]]); try discriminate; try tauto; auto.
  - specialize (H s). unfold clean_text. simpl py_str.
    destruct (let s0 := replace NBSP SPACE (replace CR LF s) in _) eqn:E;
      (split; [intros Hc | intros [Hc|Hc]]); try discriminate; try tauto; auto.
Qed.


(** ** What the phases keep *)

Lemma fold_right_max_ge i rest x :
  In x (i :: rest) -> (x <= fold_right Z.max i rest)%Z.
Proof.
  induction rest as [|y rest IH]; simpl.
  - intros [->|[]]. lia.
  - intros [->|[->|H]]; [specialize (IH (or_introl eq_refl)) | | specialize (IH (or_intror H))];
      lia.
Qed.

Lemma next_rowid_fresh ids : ~ In (next_rowid ids) ids.
Proof.
  destruct ids as [|i rest]; [intros []|]. unfold next_rowid. intros H.
  apply fold_right_max_ge in H. lia.
Qed.

Lemma fold_left_invariant {A B} (P : A -> Prop) (f : A -> B -> A) (l : list B) :
  (forall a b, P a -> P (f a b)) -> forall a, P a -> P (fold_left f l a).
Proof. intros Hf. induction l as [|b l IH]; simpl; auto. Qed.

(** The inserts of [upsert_model_ids] only append, and never a row without
    name. *)
Lemma insert_models_append l :
  forall d,
  exists added,
    models (fold_left (fun d name =>
                         match name with
                         | [] => d
                         | _ :: _ => insert_or_ignore_model name d
                         end) l d)
      = models d ++ added
    /\ Forall (fun r => m_name r <> [] /\ In (m_name r) l
                        /\ ~ In (m_name r) (List.map m_name (models d))) added
    /\ List.NoDup (List.map m_name added).
Proof.
  induction l as [|x l IH]; intros d.
  - exists []. rewrite app_nil_r. repeat split; constructor.
  - simpl fold_left.
    set (d1 := match x with [] => d | _ :: _ => insert_or_ignore_model x d end).
    destruct (IH d1) as (added & Hm & Hall & Hnd).
    assert (Hcase : d1 = d \/
              (x <> [] /\ ~ In x (List.map m_name (models d))
               /\ models d1 = models d ++
                    [{| m_id := next_rowid (List.map m_id (models d)); m_name := x |}])).
    { subst d1. destruct x as [|c x]; [left; reflexivity|].
      unfold insert_or_ignore_model.
      destruct (existsb _ (models d)) eqn:E; [left; reflexivity|].
      right. repeat split; [discriminate|].
      intros Hc. apply existsb_m_name in Hc. congruence. }
    destruct Hcase as [->|(Hx & Hnew & Hd1)].
    + exists added. split; [exact Hm|]. split; [|exact Hnd].
      eapply List.Forall_impl; [|exact Hall]. simpl. intros r (H1 & H2 & H3). auto.
    + rewrite Hd1 in Hm, Hall.
      exists ({| m_id := next_rowid (List.map m_id (models d)); m_name := x |} :: added).
      split; [rewrite Hm, <- app_assoc; reflexivity|]. split.
      * constructor; [simpl; auto|].
        eapply List.Forall_impl; [|exact Hall]. simpl. intros r (H1 & H2 & H3).
        repeat split; auto. intros Hc. apply H3.
        rewrite List.map_app, in_app_iff. auto.
      * simpl. apply List.NoDup_cons; [|exact Hnd].
        intros Hc. apply in_map_iff in Hc as (r & Hr & Hin).
        rewrite List.Forall_forall in Hall. destruct (Hall r Hin) as (_ & _ & H3).
        apply H3. rewrite List.map_app, in_app_iff. right. left. simpl. auto.
Qed.

(** X3: [upsert_model_ids] leaves every row of [models] that was there as
    it is and leaves the other two tables alone: it appends rows, each with
    a non-empty name of the batch that no row had before, and no two of
    them with the same name. *)
Theorem upsert_model_ids_appends (d : db) (names : list str) :
  exists added,
    models (fst (upsert_model_ids d names)) = models d ++ added
    /\ questions (fst (upsert_model_ids d names)) = questions d
    /\ answers (fst (upsert_model_ids d names)) = answers d
    /\ Forall (fun r => m_name r <> [] /\ In (m_name r) names
                        /\ ~ In (m_name r) (List.map m_name (models d))) added
    /\ List.NoDup (List.map m_name added).
Proof.
  destruct (insert_models_append (sorted_set names) d) as (added & Hm & Hall & Hnd).
  destruct (upsert_model_ids_frame d names) as [Hq Ha].
  exists added. repeat split; auto.
  eapply List.Forall_impl; [|exact Hall]. simpl. intros r (H1 & H2 & H3).
  repeat split; auto. apply In_sorted_set, H2.
Qed.

(** *** One statement at a time *)

Lemma NoDup_app_disjoint {A} (l1 l2 : list A) :
  List.NoDup l1 -> List.NoDup l2 -> (forall x, In x l1 -> ~ In x l2) ->
  List.NoDup (l1 ++ l2).
Proof.
  induction 1 as [|x l1 Hx Hl1 IH]; simpl; intros H2 Hd; [exact H2|].
  apply List.NoDup_cons.
  - rewrite in_app_iff. intros [H|H]; [auto | exact (Hd x (or_introl eq_refl) H)].
  - apply IH; [exact H2|]. intros y Hy. apply Hd. right. exact Hy.
Qed.

Lemma insert_or_ignore_question_keeps q now d :
  unique_texts d -> unique_ids d -> references_hold d ->
  unique_texts (insert_or_ignore_question q now d)
  /\ unique_ids (insert_or_ignore_question q now d)
  /\ references_hold (insert_or_ignore_question q now d).
Proof.
  intros [Ht1 Ht2] (Hi1 & Hi2 & Hi3) Hr. unfold insert_or_ignore_question.
  destruct (existsb _ (questions d)) eqn:E; [repeat split; assumption|].
  unfold unique_texts, unique_ids, references_hold. simpl.
  rewrite !List.map_app. simpl. repeat split; auto.
  - apply NoDup_snoc; [exact Ht1|]. intros Hc. apply existsb_q_text in Hc. congruence.
  - apply NoDup_snoc; [exact Hi1 | apply next_rowid_fresh].
  - eapply List.Forall_impl; [|exact Hr]. simpl. intros row [H1 H2].
    split; [rewrite in_app_iff; auto | exact H2].
Qed.

Lemma insert_or_ignore_model_keeps name d :
  unique_texts d -> unique_ids d -> references_hold d ->
  unique_texts (insert_or_ignore_model name d)
  /\ unique_ids (insert_or_ignore_model name d)
  /\ references_hold (insert_or_ignore_model name d).
Proof.
  intros [Ht1 Ht2] (Hi1 & Hi2 & Hi3) Hr. unfold insert_or_ignore_model.
  destruct (existsb _ (models d)) eqn:E; [repeat split; assumption|].
  unfold unique_texts, unique_ids, references_hold. simpl.
  rewrite !List.map_app. simpl. repeat split; auto.
  - apply NoDup_snoc; [exact Ht2|]. intros Hc. apply existsb_m_name in Hc. congruence.
  - apply NoDup_snoc; [exact Hi2 | apply next_rowid_fresh].
  - eapply List.Forall_impl; [|exact Hr]. simpl. intros row [H1 H2].
    split; [exact H1 | rewrite in_app_iff; auto].
Qed.

Lemma execute_upsert_keeps d qid mid a now :
  unique_texts d -> unique_ids d -> references_hold d ->
  unique_texts (fst (execute_upsert d qid mid a now))
  /\ unique_ids (fst (execute_upsert d qid mid a now))
  /\ references_hold (fst (execute_upsert d qid mid a now)).
Proof.
  intros Ht Hi Hr. unfold execute_upsert.
  destruct a as [| |text]; [simpl; auto | simpl; auto |].
  destruct (existsb (same_pair qid mid) (answers d)) eqn:Hex; simpl.
  - split; [exact Ht|]. destruct Hi as (Hi1 & Hi2 & Hi3). split.
    + unfold unique_ids. simpl. repeat split; [exact Hi1 | exact Hi2 |].
      rewrite List.map_map.
      rewrite (List.map_ext _ a_id); [exact Hi3|].
      intros r. destruct (same_pair qid mid r); reflexivity.
    + unfold references_hold. simpl. apply Forall_map.
      eapply List.Forall_impl; [|exact Hr]. simpl.
      intros row H. destruct (same_pair qid mid row); exact H.
  - destruct (existsb _ (questions d) && existsb _ (models d)) eqn:Efk; simpl; [|auto].
    apply andb_true_iff in Efk as [Eq Em].
    split; [exact Ht|]. destruct Hi as (Hi1 & Hi2 & Hi3). split.
    + unfold unique_ids. simpl. repeat split; [exact Hi1 | exact Hi2 |].
      rewrite List.map_app. simpl. apply NoDup_snoc; [exact Hi3 | apply next_rowid_fresh].
    + unfold references_hold. simpl.
      apply Forall_app. split; [exact Hr|]. constructor; [|constructor]. simpl.
      apply existsb_exists in Eq as (x & Hx & Ex). apply Z.eqb_eq in Ex.
      apply existsb_exists in Em as (y & Hy & Ey). apply Z.eqb_eq in Ey.
      split; [rewrite <- Ex; apply in_map, Hx | rewrite <- Ey; apply in_map, Hy].
Qed.

Lemma answers_loop_invariant (P : db -> Prop) qid_map model_map now rows :
  (forall d qid mid a, P d -> P (fst (execute_upsert d qid mid a now))) ->
  forall d n, P d -> P (fst (answers_loop d rows qid_map model_map now n)).
Proof.
  intros Hstep. induction rows as [|r rest IH]; intros d n Hd; [exact Hd|].
  simpl. destruct (negb _); [apply IH, Hd|].
  destruct (subscript qid_map (question_text r)) as [qid|]; [|exact Hd].
  destruct (subscript model_map (model_name r)) as [mid|]; [|exact Hd].
  pose proof (Hstep d qid mid (answer_text r) Hd) as Hd'.
  destruct (execute_upsert d qid mid (answer_text r) now) as [d' [u|e]];
    [apply IH, Hd' | exact Hd'].
Qed.

(** Every store the phases produce from a new database file satisfies the
    constraints of the schema. *)
Lemma reachable_consistent d :
  reachable d -> unique_texts d /\ unique_ids d /\ references_hold d.
Proof.
  induction 1 as [|d _ IH|d names _ IH|d qs now _ IH|d rows qm mm now _ IH].
  - unfold unique_texts, unique_ids, references_hold. simpl.
    repeat split; constructor.
  - exact IH.
  - unfold upsert_model_ids. simpl.
    apply (fold_left_invariant
             (fun d => unique_texts d /\ unique_ids d /\ references_hold d));
      [|exact IH].
    intros a b (H1 & H2 & H3). destruct b; [auto|].
    apply insert_or_ignore_model_keeps; assumption.
  - unfold upsert_questions. simpl.
    apply (fold_left_invariant
             (fun d => unique_texts d /\ unique_ids d /\ references_hold d));
      [|exact IH].
    intros a b (H1 & H2 & H3). apply insert_or_ignore_question_keeps; assumption.
  - apply (answers_loop_invariant
             (fun d => unique_texts d /\ unique_ids d /\ references_hold d));
      [|exact IH].
    intros d0 qid mid a (H1 & H2 & H3). apply execute_upsert_keeps; assumption.
Qed.

(** X4: in every store that calls of the loader's phases produce from a new
    database file, no two questions have the same text and no two models the
    same name. *)
Theorem reachable_unique_texts (d : db) : reachable d -> unique_texts d.
Proof. intros H. apply reachable_consistent, H. Qed.

Lemma reachable_unique_texts_witness :
  let d := fst (upsert_questions
                  (fst (upsert_model_ids (create_schema None)
                          [Sample.gpt; Sample.claude]))
                  [Sample.q1; Sample.q2] 100%Z) in
  reachable d /\ unique_texts d.
Proof.
  intros d.
  assert (H : reachable d).
  { apply reach_questions, reach_models, reach_new. }
  split; [exact H|].
  exact (reachable_unique_texts d H).
Defined.

(** X5: in every store that calls of the loader's phases produce from a new
    database file, the ids of each table are pairwise distinct:
    the id given to a new row is never one in use. *)
Theorem reachable_unique_ids (d : db) : reachable d -> unique_ids d.
Proof. intros H. apply reachable_consistent, H. Qed.

Lemma reachable_unique_ids_witness :
  let d := fst (upsert_model_ids
                  (create_schema
                     (Some (fst (upsert_questions (create_schema None)
                                   [Sample.q1; Sample.q2] 100%Z))))
                  [Sample.claude; Sample.gpt]) in
  reachable d /\ unique_ids d.
Proof.
  intros d.
  assert (H : reachable d).
  { apply reach_models, reach_schema, reach_questions, reach_new. }
  split; [exact H|].
  exact (reachable_unique_ids d H).
Defined.

(** X6: in every store that calls of the loader's phases produce from a new
    database file, each answer row refers to a question and to a
    model that are in their tables. *)
Theorem reachable_references_hold (d : db) : reachable d -> references_hold d.
Proof. intros H. apply reachable_consistent, H. Qed.

Lemma reachable_references_hold_witness :
  let d := fst (insert_or_update_answers
                  (fst (upsert_questions
                          (fst (upsert_model_ids (create_schema None)
                                  [Sample.gpt; Sample.claude]))
                          [Sample.q1; Sample.q2] 100%Z))
                  Sample.batch_repeat Sample.qid_map Sample.model_map 200%Z) in
  reachable d /\ references_hold d.
Proof.
  intros d.
  assert (H : reachable d).
  { apply reach_answers, reach_questions, reach_models, reach_new. }
  split; [exact H|].
  exact (reachable_references_hold d H).
Defined.


(** ** Model ids do not depend on the order of the batch *)

Lemma str_ltb_irrefl a : str_ltb a a = false.
Proof.
  induction a as [|x a IH]; simpl; [reflexivity|].
  rewrite N.ltb_irrefl, N.eqb_refl, IH. reflexivity.
Qed.

Lemma str_ltb_trans a : forall b c,
  str_ltb a b = true -> str_ltb b c = true -> str_ltb a c = true.
Proof.
  induction a as [|x a IH]; intros [|y b] [|z c]; simpl; try discriminate; auto.
  rewrite !orb_true_iff, !andb_true_iff, !N.ltb_lt, !N.eqb_eq.
  intros [H1|[H1 H1']] [H2|[H2 H2']].
  - left. lia.
  - left. lia.
  - left. lia.
  - right. split; [lia|]. eapply IH; eassumption.
Qed.

Lemma str_ltb_total a : forall b,
  a <> b -> str_ltb a b = false -> str_ltb b a = true.
Proof.
  induction a as [|x a IH]; intros [|y b] Hne; simpl; try discriminate; auto.
  rewrite orb_false_iff, andb_false_iff, orb_true_iff, andb_true_iff,
    N.ltb_ge, !N.ltb_lt, N.eqb_neq, N.eqb_eq.
  intros [H1 H2].
  destruct (N.eq_dec x y) as [->|Hxy].
  - right. split; [reflexivity|]. apply IH; [congruence|].
    destruct H2 as [H2|H2]; [congruence | exact H2].
  - left. lia.
Qed.

Lemma insert_sorted_ascending x l : ascending l -> ascending (insert_sorted x l).
Proof.
  induction l as [|y rest IH]; simpl; [intros _; split; [constructor | exact I]|].
  intros [Hy Hrest].
  destruct (bool_decide (x = y)) eqn:E; [split; assumption|].
  apply bool_decide_eq_false in E.
  destruct (str_ltb x y) eqn:Elt.
  - simpl. split; [|split; assumption].
    constructor; [exact Elt|].
    eapply List.Forall_impl; [|exact Hy]. intros z Hz.
    eapply str_ltb_trans; [exact Elt | exact Hz].
  - simpl. split; [|apply IH, Hrest].
    apply List.Forall_forall. intros z Hz. apply In_insert_sorted in Hz as [->|Hz].
    + apply str_ltb_total; assumption.
    + rewrite List.Forall_forall in Hy. apply Hy, Hz.
Qed.

Lemma sorted_set_ascending l : ascending (sorted_set l).
Proof.
  unfold sorted_set. induction l as [|x l IH]; simpl; [exact I|].
  apply insert_sorted_ascending, IH.
Qed.

Lemma ascending_head_not_in x rest : Forall (str_lt x) rest -> ~ In x rest.
Proof.
  intros H Hin. rewrite List.Forall_forall in H. specialize (H x Hin).
  unfold str_lt in H. rewrite str_ltb_irrefl in H. discriminate.
Qed.

(** Two ascending lists with the same members are the same list. *)
Lemma ascending_unique l : forall l',
  ascending l -> ascending l' -> (forall x, In x l <-> In x l') -> l = l'.
Proof.
  induction l as [|a l IH]; intros [|a' l'] Hl Hl' Hmem.
  - reflexivity.
  - destruct (proj2 (Hmem a') (or_introl eq_refl)).
  - destruct (proj1 (Hmem a) (or_introl eq_refl)).
  - destruct Hl as [Ha Hl]. destruct Hl' as [Ha' Hl'].
    assert (Heq : a = a').
    { destruct (proj1 (Hmem a) (or_introl eq_refl)) as [H|H]; [congruence|].
      destruct (proj2 (Hmem a') (or_introl eq_refl)) as [H'|H']; [exact H'|].
      rewrite List.Forall_forall in Ha, Ha'.
      pose proof (Ha a' H') as H1. pose proof (Ha' a H) as H2. unfold str_lt in H1, H2.
      pose proof (str_ltb_trans a a' a H1 H2) as H3.
      rewrite str_ltb_irrefl in H3. discriminate. }
    subst a'. f_equal. apply IH; [exact Hl | exact Hl'|].
    intros x. split; intros Hx.
    + destruct (proj1 (Hmem x) (or_intror Hx)) as [->|H]; [|exact H].
      destruct (ascending_head_not_in _ _ Ha Hx).
    + destruct (proj2 (Hmem x) (or_intror Hx)) as [->|H]; [|exact H].
      destruct (ascending_head_not_in _ _ Ha' Hx).
Qed.

(** X7: [upsert_model_ids] depends on the set of model names only: two
    batches with the same names, in any order and with any repetitions, give
    the same store, the same ids included, and the same dictionary. *)
Theorem upsert_model_ids_order_independent (d : db) (names names' : list str) :
  (forall x, In x names <-> In x names') ->
  upsert_model_ids d names = upsert_model_ids d names'.
Proof.
  intros H. unfold upsert_model_ids.
  replace (sorted_set names') with (sorted_set names); [reflexivity|].
  apply ascending_unique; [apply sorted_set_ascending | apply sorted_set_ascending|].
  intros x. rewrite !In_sorted_set. apply H.
Qed.

Lemma upsert_model_ids_order_independent_witness :
  (forall x, In x [Sample.gpt; Sample.claude; Sample.gpt]
             <-> In x [Sample.claude; Sample.gpt])
  /\ upsert_model_ids empty_db [Sample.gpt; Sample.claude; Sample.gpt]
     = upsert_model_ids empty_db [Sample.claude; Sample.gpt].
Proof.
  assert (H : forall x, In x [Sample.gpt; Sample.claude; Sample.gpt]
                        <-> In x [Sample.claude; Sample.gpt])
    by (intros x; simpl; tauto).
  split; [exact H|].
  exact (upsert_model_ids_order_independent empty_db _ _ H).
Defined.

(** ** The dictionaries are the tables *)

Section DictExact.

Context {A : Type} (key : A -> str) (val : A -> Z).

Lemma dict_of_rows_values (rows : list A) :
  forall (m0 : gmap str Z) t v,
  fold_left (fun m r => <[key r := val r]> m) rows m0 !! t = Some v ->
  m0 !! t = Some v \/ exists row, In row rows /\ key row = t /\ val row = v.
Proof.
  induction rows as [|x l IH]; intros m0 t v H; [left; exact H|].
  simpl in H. apply IH in H as [H|(row & Hin & Hk & Hv)].
  - destruct (decide (key x = t)) as [Heq|Hne].
    + rewrite Heq, lookup_insert_eq in H. injection H as <-.
      right. exists x. repeat split; [left; reflexivity | exact Heq].
    + rewrite lookup_insert_ne in H by exact Hne. left. exact H.
  - right. exists row. repeat split; [right; exact Hin | exact Hk | exact Hv].
Qed.

Lemma NoDup_map_inj_in (rows : list A) (r r' : A) :
  List.NoDup (List.map key rows) -> In r rows -> In r' rows -> key r = key r' -> r = r'.
Proof.
  induction rows as [|x l IH]; simpl; intros Hnd Hr Hr' Hk; [destruct Hr|].
  inversion Hnd as [|? ? Hnin Hnd']; subst.
  destruct Hr as [->|Hr], Hr' as [->|Hr']; auto.
  - exfalso. apply Hnin. rewrite Hk. apply in_map, Hr'.
  - exfalso. apply Hnin. rewrite <- Hk. apply in_map, Hr.
Qed.

Lemma dict_of_rows_exact (rows : list A) t v :
  List.NoDup (List.map key rows) ->
  (fold_left (fun m r => <[key r := val r]> m) rows (∅ : gmap str Z) !! t = Some v
   <-> exists row, In row rows /\ key row = t /\ val row = v).
Proof.
  intros Hnd. split.
  - intros H. apply dict_of_rows_values in H as [H|H]; [|exact H].
    rewrite lookup_empty in H. discriminate.
  - intros (row & Hin & Hk & Hv).
    destruct (dict_of_rows_lookup key val rows ∅ t) as (row' & Hin' & Hk' & Hl).
    { rewrite <- Hk. apply in_map, Hin. }
    assert (row = row') by (eapply NoDup_map_inj_in; eauto; congruence).
    subst row'. rewrite Hl, Hv. reflexivity.
Qed.

Lemma dict_of_rows_size (rows : list A) :
  List.NoDup (List.map key rows) ->
  size (fold_left (fun m r => <[key r := val r]> m) rows (∅ : gmap str Z))
  = length rows.
Proof.
  induction rows as [|x l IH] using rev_ind; intros Hnd; [reflexivity|].
  rewrite List.map_app in Hnd. simpl in Hnd.
  assert (Hl : List.NoDup (List.map key l)).
  { apply NoDup_remove_1 in Hnd. rewrite app_nil_r in Hnd. exact Hnd. }
  assert (Hx : ~ In (key x) (List.map key l)).
  { apply NoDup_remove_2 in Hnd. rewrite app_nil_r in Hnd. exact Hnd. }
  rewrite fold_left_app, List.length_app. simpl.
  rewrite map_size_insert_None; [rewrite IH by exact Hl; lia|].
  destruct (fold_left _ l ∅ !! key x) as [v|] eqn:E; [|reflexivity].
  apply dict_of_rows_values in E as [E|(row & Hin & Hk & _)].
  - rewrite lookup_empty in E. discriminate.
  - exfalso. apply Hx. rewrite <- Hk. apply in_map, Hin.
Qed.

End DictExact.

Lemma upsert_questions_texts d qs now :
  List.NoDup (List.map q_text (questions d)) ->
  List.NoDup (List.map q_text (questions (fst (upsert_questions d qs now)))).
Proof.
  unfold upsert_questions. simpl.
  apply (fold_left_invariant (fun d => List.NoDup (List.map q_text (questions d)))).
  intros a b Ha. unfold insert_or_ignore_question.
  destruct (existsb _ (questions a)) eqn:E; [exact Ha|]. simpl.
  rewrite List.map_app. simpl. apply NoDup_snoc; [exact Ha|].
  intros Hc. apply existsb_q_text in Hc. congruence.
Qed.

Lemma upsert_model_ids_names d names :
  List.NoDup (List.map m_name (models d)) ->
  List.NoDup (List.map m_name (models (fst (upsert_model_ids d names)))).
Proof.
  unfold upsert_model_ids. simpl.
  apply (fold_left_invariant (fun d => List.NoDup (List.map m_name (models d)))).
  intros a b Ha. destruct b as [|c b]; [exact Ha|]. unfold insert_or_ignore_model.
  destruct (existsb _ (models a)) eqn:E; [exact Ha|]. simpl.
  rewrite List.map_app. simpl. apply NoDup_snoc; [exact Ha|].
  intros Hc. apply existsb_m_name in Hc. congruence.
Qed.

(** X8: on a store whose question texts are pairwise distinct, the
    dictionary [upsert_questions] returns is the table it leaves: a text is
    bound to an id exactly when a row of [questions] has that text and that
    id, and it has as many keys as the table has rows. *)
Theorem upsert_questions_dictionary (d : db) (qs : list str) (now : timestamp) :
  List.NoDup (List.map q_text (questions d)) ->
  (forall q id,
     snd (upsert_questions d qs now) !! q = Some id
     <-> exists row, In row (questions (fst (upsert_questions d qs now)))
                     /\ q_text row = q /\ q_id row = id)
  /\ size (snd (upsert_questions d qs now))
     = length (questions (fst (upsert_questions d qs now))).
Proof.
  intros Hnd. pose proof (upsert_questions_texts d qs now Hnd) as Hnd'.
  split.
  - intros q id. apply (dict_of_rows_exact q_text q_id). exact Hnd'.
  - apply (dict_of_rows_size q_text q_id). exact Hnd'.
Qed.

Lemma upsert_questions_dictionary_witness :
  List.NoDup (List.map q_text (questions empty_db))
  /\ (forall q id,
        snd (upsert_questions empty_db [Sample.q1; Sample.q2] 100%Z) !! q = Some id
        <-> exists row,
              In row (questions (fst (upsert_questions empty_db
                                        [Sample.q1; Sample.q2] 100%Z)))
              /\ q_text row = q /\ q_id row = id)
  /\ size (snd (upsert_questions empty_db [Sample.q1; Sample.q2] 100%Z))
     = length (questions (fst (upsert_questions empty_db
                                 [Sample.q1; Sample.q2] 100%Z))).
Proof.
  assert (H : List.NoDup (List.map q_text (questions empty_db)))
    by (simpl; apply List.NoDup_nil).
  split; [exact H|].
  exact (upsert_questions_dictionary empty_db [Sample.q1; Sample.q2] 100%Z H).
Defined.

(** X9: on a store whose model names are pairwise distinct, the dictionary
    [upsert_model_ids] returns is the table it leaves: a name is bound to an
    id exactly when a row of [models] has that name and that id, and it has
    as many keys as the table has rows. *)
Theorem upsert_model_ids_dictionary (d : db) (names : list str) :
  List.NoDup (List.map m_name (models d)) ->
  (forall name id,
     snd (upsert_model_ids d names) !! name = Some id
     <-> exists row, In row (models (fst (upsert_model_ids d names)))
                     /\ m_name row = name /\ m_id row = id)
  /\ size (snd (upsert_model_ids d names))
     = length (models (fst (upsert_model_ids d names))).
Proof.
  intros Hnd. pose proof (upsert_model_ids_names d names Hnd) as Hnd'.
  split.
  - intros name id. apply (dict_of_rows_exact m_name m_id). exact Hnd'.
  - apply (dict_of_rows_size m_name m_id). exact Hnd'.
Qed.

Lemma upsert_model_ids_dictionary_witness :
  List.NoDup (List.map m_name (models empty_db))
  /\ (forall name id,
        snd (upsert_model_ids empty_db [Sample.gpt; Sample.claude]) !! name = Some id
        <-> exists row,
              In row (models (fst (upsert_model_ids empty_db
                                     [Sample.gpt; Sample.claude])))
              /\ m_name row = name /\ m_id row = id)
  /\ size (snd (upsert_model_ids empty_db [Sample.gpt; Sample.claude]))
     = length (models (fst (upsert_model_ids empty_db [Sample.gpt; Sample.claude]))).
Proof.
  assert (H : List.NoDup (List.map m_name (models empty_db)))
    by (simpl; apply List.NoDup_nil).
  split; [exact H|].
  exact (upsert_model_ids_dictionary empty_db [Sample.gpt; Sample.claude] H).
Defined.

(** ** Resolving twice *)

(** X10: resolving the same question texts again changes nothing: a second
    [upsert_questions] on the store the first one leaves, at any later clock
    reading, returns that store and the same dictionary. *)
Theorem upsert_questions_again (d : db) (qs : list str) (now now' : timestamp) :
  upsert_questions (fst (upsert_questions d qs now)) qs now'
  = upsert_questions d qs now.
Proof.
  unfold upsert_questions. simpl.
  destruct (insert_questions_spec now qs d) as (added & Hq & _ & Hin).
  rewrite insert_questions_present; [reflexivity|].
  intros q Hq'. rewrite Hq. apply Hin, Hq'.
Qed.

(** X11: resolving the same model names again changes nothing: a second
    [upsert_model_ids] on the store the first one leaves returns that store
    and the same dictionary. *)
Theorem upsert_model_ids_again (d : db) (names : list str) :
  upsert_model_ids (fst (upsert_model_ids d names)) names
  = upsert_model_ids d names.
Proof.
  unfold upsert_model_ids. simpl.
  destruct (insert_models_spec (sorted_set names) d) as [_ Hin]. cbv zeta in Hin.
  rewrite insert_models_present; [reflexivity|].
  intros name Hn. destruct name as [|c name]; [left; reflexivity|].
  right. apply Hin; [exact Hn | discriminate].
Qed.

(** ** Batches in pieces, and batches that fail *)

Lemma answers_loop_shift qid_map model_map now rows k :
  forall d n,
  answers_loop d rows qid_map model_map now (k + n)
  = shift_count k (answers_loop d rows qid_map model_map now n).
Proof.
  induction rows as [|r rest IH]; intros d n; [reflexivity|].
  simpl. destruct (negb _); [apply IH|].
  destruct (subscript qid_map (question_text r)) as [qid|]; [|reflexivity].
  destruct (subscript model_map (model_name r)) as [mid|]; [|reflexivity].
  destruct (execute_upsert d qid mid (answer_text r) now) as [d' [u|e]];
    [|reflexivity].
  rewrite <- IH. f_equal. lia.
Qed.

Lemma answers_loop_app qid_map model_map now pre post :
  forall d n,
  answers_loop d (pre ++ post) qid_map model_map now n
  = match answers_loop d pre qid_map model_map now n with
    | (d1, Returned n1) => answers_loop d1 post qid_map model_map now n1
    | (d1, Raised e) => (d1, Raised e)
    end.
Proof.
  induction pre as [|r rest IH]; intros d n; [reflexivity|].
  simpl. destruct (negb _); [apply IH|].
  destruct (subscript qid_map (question_text r)) as [qid|]; [|reflexivity].
  destruct (subscript model_map (model_name r)) as [mid|]; [|reflexivity].
  destruct (execute_upsert d qid mid (answer_text r) now) as [d' [u|e]];
    [apply IH | reflexivity].
Qed.

(** X12: a batch can be upserted in pieces: one call on [pre ++ post] does
    what a call on [pre] followed by a call on [post] does (same
    dictionaries and clock reading), the counts adding up; if the first
    piece raises, the whole batch raises the same exception on the same
    store. *)
Theorem answers_batch_split
    (d : db) (pre post : list long_record) (qid_map model_map : gmap str Z)
    (now : timestamp) :
  insert_or_update_answers d (pre ++ post) qid_map model_map now
  = then_answers (insert_or_update_answers d pre qid_map model_map now)
      post qid_map model_map now.
Proof.
  unfold then_answers, insert_or_update_answers. rewrite answers_loop_app.
  destruct (answers_loop d pre qid_map model_map now 0) as [d1 [n1|e]];
    [|reflexivity].
  rewrite <- answers_loop_shift. rewrite Nat.add_0_r. reflexivity.
Qed.

(** X13: a record that passes the guard but whose question text is not a
    key of [qid_map], or else whose model name is not a key of [model_map],
    stops the call with [KeyError] on that text: the store is as the
    records before it left it, and nothing after it is executed. *)
Theorem answers_missing_key
    (d : db) (pre post : list long_record) (r : long_record) (q m : str)
    (qid_map model_map : gmap str Z) (now : timestamp) (d1 : db) (n1 : nat) :
  insert_or_update_answers d pre qid_map model_map now = (d1, Returned n1) ->
  guard r = true -> question_text r = Some q -> model_name r = Some m ->
  (qid_map !! q = None ->
     insert_or_update_answers d (pre ++ r :: post) qid_map model_map now
     = (d1, Raised (KeyError (Some q))))
  /\ (is_Some (qid_map !! q) -> model_map !! m = None ->
        insert_or_update_answers d (pre ++ r :: post) qid_map model_map now
        = (d1, Raised (KeyError (Some m)))).
Proof.
  unfold insert_or_update_answers. intros Hpre Hg Hq Hm.
  rewrite answers_loop_app, Hpre. simpl. fold (guard r). rewrite Hg, Hq, Hm. simpl.
  split.
  - intros ->. reflexivity.
  - intros [qid ->] ->. reflexivity.
Qed.

Lemma answers_missing_key_witness :
  let r := Sample.record (lit "Unknown?") Sample.gpt (lit "x") in
  let d1 := fst (insert_or_update_answers Sample.store Sample.batch
                   Sample.qid_map Sample.model_map 200%Z) in
  insert_or_update_answers Sample.store Sample.batch
    Sample.qid_map Sample.model_map 200%Z = (d1, Returned 3)
  /\ Sample.qid_map !! lit "Unknown?" = None
  /\ insert_or_update_answers Sample.store (Sample.batch ++ r :: Sample.batch)
       Sample.qid_map Sample.model_map 200%Z
     = (d1, Raised (KeyError (Some (lit "Unknown?")))).
Proof.
  intros r d1.
  assert (H : insert_or_update_answers Sample.store Sample.batch
                Sample.qid_map Sample.model_map 200%Z = (d1, Returned 3))
    by (vm_compute; reflexivity).
  assert (Hk : Sample.qid_map !! lit "Unknown?" = None) by (vm_compute; reflexivity).
  split; [exact H|]. split; [exact Hk|].
  exact (proj1 (answers_missing_key Sample.store Sample.batch Sample.batch r
                  (lit "Unknown?") Sample.gpt Sample.qid_map Sample.model_map
                  200%Z d1 3 H eq_refl eq_refl eq_refl) Hk).
Defined.

(** X14: a record that passes the guard and resolves to a pair without
    answer row, but to an id that is not in [questions] or not in [models]
    (a dictionary that does not come from the store), stops the call with
    [IntegrityError]: the store is as the records before it left it. *)
Theorem answers_dangling_reference
    (d : db) (pre post : list long_record) (r : long_record) (qid mid : Z)
    (qid_map model_map : gmap str Z) (now : timestamp) (d1 : db) (n1 : nat) :
  insert_or_update_answers d pre qid_map model_map now = (d1, Returned n1) ->
  guard r = true -> resolve qid_map model_map r = Some (qid, mid) ->
  ~ In (qid, mid) (List.map pair_of (answers d1)) ->
  ~ In qid (List.map q_id (questions d1)) \/ ~ In mid (List.map m_id (models d1)) ->
  insert_or_update_answers d (pre ++ r :: post) qid_map model_map now
  = (d1, Raised IntegrityError).
Proof.
  unfold insert_or_update_answers. intros Hpre Hg Hr Hpair Hfk.
  rewrite answers_loop_app, Hpre.
  destruct (guard_answer r Hg) as [Ha|[text Ha]].
  { apply (answers_loop_nan qid_map model_map now d1 r post n1 qid mid Hg Hr Ha). }
  rewrite (answers_loop_step qid_map model_map now d1 r post n1 qid mid text Hg Hr Ha).
  unfold execute_upsert.
  destruct (existsb (same_pair qid mid) (answers d1)) eqn:Hex.
  { apply existsb_same_pair in Hex. contradiction. }
  destruct (existsb (fun r0 => (q_id r0 =? qid)%Z) (questions d1)) eqn:Eq;
  destruct (existsb (fun r0 => (m_id r0 =? mid)%Z) (models d1)) eqn:Em;
    simpl; try reflexivity.
  exfalso. destruct Hfk as [Hfk|Hfk]; apply Hfk.
  - apply existsb_exists in Eq as (x & Hx & Ex). apply Z.eqb_eq in Ex.
    rewrite <- Ex. apply in_map, Hx.
  - apply existsb_exists in Em as (x & Hx & Ex). apply Z.eqb_eq in Ex.
    rewrite <- Ex. apply in_map, Hx.
Qed.

Lemma answers_dangling_reference_witness :
  let r := Sample.record Sample.q1 Sample.gpt (lit "Four") in
  let stale : gmap str Z := {[ Sample.q1 := 7%Z ]} in
  insert_or_update_answers Sample.store [] stale Sample.model_map 200%Z
    = (Sample.store, Returned 0)
  /\ resolve stale Sample.model_map r = Some (7%Z, 2%Z)
  /\ insert_or_update_answers Sample.store ([] ++ r :: Sample.batch)
       stale Sample.model_map 200%Z
     = (Sample.store, Raised IntegrityError).
Proof.
  intros r stale.
  assert (H : insert_or_update_answers Sample.store [] stale Sample.model_map 200%Z
              = (Sample.store, Returned 0)) by reflexivity.
  assert (Hr : resolve stale Sample.model_map r = Some (7%Z, 2%Z))
    by (vm_compute; reflexivity).
  split; [exact H|]. split; [exact Hr|].
  apply (answers_dangling_reference Sample.store [] Sample.batch r 7%Z 2%Z
           stale Sample.model_map 200%Z Sample.store 0 H eq_refl Hr).
  - vm_compute. intros [].
  - left. vm_compute. intros [H1|[H1|[]]]; discriminate.
Defined.

(** X15: [insert_or_update_answers] never deletes and never re-keys,
    whether it returns or raises: questions and models are as before, the
    answer rows that were there stay in place with their id, question id,
    model id, [tokens_used] and [latency_ms], and the rows after them are
    new, with no [tokens_used], no [latency_ms] and the clock reading of the
    call. *)
Theorem answers_never_deletes
    (d : db) (rows : list long_record) (qid_map model_map : gmap str Z)
    (now : timestamp) :
  let d' := fst (insert_or_update_answers d rows qid_map model_map now) in
  questions d' = questions d /\ models d' = models d
  /\ exists olds news,
       answers d' = olds ++ news
       /\ List.map stable_columns olds = List.map stable_columns (answers d)
       /\ Forall (fun row => a_tokens_used row = None /\ a_latency_ms row = None
                             /\ a_created_at row = now) news.
Proof.
  apply (answers_loop_invariant
    (fun d' => questions d' = questions d /\ models d' = models d
       /\ exists olds news,
            answers d' = olds ++ news
            /\ List.map stable_columns olds = List.map stable_columns (answers d)
            /\ Forall (fun row => a_tokens_used row = None /\ a_latency_ms row = None
                                  /\ a_created_at row = now) news)).
  - intros x qid mid a (Hq & Hm & olds & news & Ha & Holds & Hnews).
    unfold execute_upsert. destruct a as [| |text]; [simpl; eauto 10 | simpl; eauto 10 |].
    destruct (existsb (same_pair qid mid) (answers x)); simpl.
    + split; [exact Hq|]. split; [exact Hm|].
      set (upd := fun r => if same_pair qid mid r then do_update_set text now r else r).
      exists (List.map upd olds), (List.map upd news).
      rewrite Ha, List.map_app. split; [reflexivity|]. split.
      * rewrite <- Holds, List.map_map. apply List.map_ext. intros r.
        subst upd. simpl. destruct (same_pair qid mid r); reflexivity.
      * apply Forall_map. eapply List.Forall_impl; [|exact Hnews].
        intros r (H1 & H2 & H3). subst upd. simpl.
        destruct (same_pair qid mid r); simpl; auto.
    + destruct (_ && _); simpl; [|eauto 10].
      split; [exact Hq|]. split; [exact Hm|].
      exists olds, (news ++ [new_answer x qid mid text now]).
      rewrite Ha, app_assoc. split; [reflexivity|]. split; [exact Holds|].
      apply Forall_app. split; [exact Hnews|]. constructor; [|constructor].
      simpl. auto.
  - split; [reflexivity|]. split; [reflexivity|].
    exists (answers d), []. rewrite app_nil_r. repeat split. constructor.
Qed.

(** ** The counts a load reports *)

Lemma answers_loop_length qid_map model_map now rows :
  forall d n d' n',
  answers_loop d rows qid_map model_map now n = (d', Returned n') ->
  length (answers d) <= length (answers d')
  /\ length (answers d') + n <= length (answers d) + n'.
Proof.
  induction rows as [|r rest IH]; intros d n d' n' H.
  - simpl in H. injection H as <- <-. lia.
  - simpl in H. destruct (negb _); [apply IH, H|].
    destruct (subscript qid_map (question_text r)) as [qid|]; [|discriminate].
    destruct (subscript model_map (model_name r)) as [mid|]; [|discriminate].
    destruct (execute_upsert d qid mid (answer_text r) now) as [d1 [u|e]] eqn:E;
      [|discriminate].
    apply IH in H.
    assert (Hl : length (answers d) <= length (answers d1) <= S (length (answers d))).
    { unfold execute_upsert in E. destruct (answer_text r); [discriminate.. |].
      destruct (existsb _ (answers d)).
      - injection E as <-. simpl. rewrite List.length_map. lia.
      - destruct (_ && _); [|discriminate]. injection E as <-. simpl.
        rewrite List.length_app. simpl. lia. }
    lia.
Qed.

(** X16: when a load on a store with pairwise distinct question texts and
    model names returns, the counts it reports are those of the tables: the
    number of keys of [qid_map] is the number of rows of [questions], that
    of [model_map] the number of rows of [models], and the third count is
    the number of records that pass the guard; the number of answer rows
    grew by at most that count and did not shrink. *)
Theorem load_counts
    (con : option db) (long_df : list long_record) (nq na : timestamp)
    (d' : db) (a b n : nat) :
  unique_texts (create_schema con) ->
  load con long_df nq na = (d', Returned (a, b, n)) ->
  a = length (questions d') /\ b = length (models d')
  /\ n = length (List.filter guard long_df)
  /\ length (answers (create_schema con)) <= length (answers d')
  /\ length (answers d') <= length (answers (create_schema con)) + n.
Proof.
  intros [Hut Hun] H. unfold load in H.
  set (names := unique (dropna (List.map model_name long_df))) in *.
  set (qs := unique (dropna (List.map question_text long_df))) in *.
  assert (Hsm : size (snd (upsert_model_ids (create_schema con) names))
                = length (models (fst (upsert_model_ids (create_schema con) names))))
    by (apply (dict_of_rows_size m_name m_id), upsert_model_ids_names, Hun).
  pose proof (upsert_model_ids_frame (create_schema con) names) as [Hfq Hfa].
  destruct (upsert_model_ids (create_schema con) names) as [dm mm] eqn:Em.
  simpl in Hsm, Hfq, Hfa.
  assert (Hut' : List.NoDup (List.map q_text (questions dm))) by (rewrite Hfq; exact Hut).
  assert (Hsq : size (snd (upsert_questions dm qs nq))
                = length (questions (fst (upsert_questions dm qs nq))))
    by (apply (dict_of_rows_size q_text q_id), upsert_questions_texts, Hut').
  pose proof (upsert_questions_frame dm qs nq) as [Hgm Hga].
  destruct (upsert_questions dm qs nq) as [dq qm] eqn:Eq.
  simpl in Hsq, Hgm, Hga.
  destruct (insert_or_update_answers dq long_df qm mm na) as [d3 [k|e]] eqn:Ea;
    [|discriminate].
  injection H as <- <- <- <-.
  pose proof (answers_loop_spec qm mm na long_df dq 0 d3 k Ea) as (Hk & Hq3 & Hm3 & _).
  pose proof (answers_loop_length qm mm na long_df dq 0 d3 k Ea) as [Hl1 Hl2].
  rewrite Hq3, Hm3, Hgm, <- Hfa, <- Hga. repeat split; auto; lia.
Qed.

Lemma load_counts_witness :
  let d' := fst (load None Sample.batch_repeat 100%Z 200%Z) in
  unique_texts (create_schema None)
  /\ load None Sample.batch_repeat 100%Z 200%Z = (d', Returned (2, 1, 2))
  /\ 2 = length (questions d') /\ 1 = length (models d')
  /\ 2 = length (List.filter guard Sample.batch_repeat)
  /\ length (answers (create_schema None)) <= length (answers d')
  /\ length (answers d') <= length (answers (create_schema None)) + 2.
Proof.
  intros d'.
  assert (Hu : unique_texts (create_schema None))
    by (split; simpl; apply List.NoDup_nil).
  assert (H : load None Sample.batch_repeat 100%Z 200%Z = (d', Returned (2, 1, 2)))
    by (vm_compute; reflexivity).
  split; [exact Hu|]. split; [exact H|].
  exact (load_counts None Sample.batch_repeat 100%Z 200%Z d' 2 1 2 Hu H).
Defined.

(** ** The records [read_table] returns *)

Lemma select_nil_r mask : select mask [] = [].
Proof. destruct mask as [|[|] mask]; reflexivity. Qed.

Lemma In_select_self (p : value -> bool) l v :
  In v (select (List.map p l) l) <-> In v l /\ p v = true.
Proof.
  induction l as [|x l IH]; simpl; [tauto|].
  destruct (p x) eqn:E; simpl; rewrite IH.
  - split; [intros [->|[H1 H2]]; auto | intros [[->|H1] H2]; auto].
  - split; [intros [H1 H2]; auto | intros [[->|H1] H2]; [congruence | auto]].
Qed.

Lemma In_select mask cells v : In v (select mask cells) -> In v cells.
Proof.
  revert cells. induction mask as [|b mask IH]; intros [|x cells]; simpl; try tauto.
  destruct b; simpl; [intros [H|H]; auto | auto].
Qed.

Lemma question_cells_dropna (df : DataFrame) :
  question_cells (dropna_questions df)
  = select (List.map (fun v => negb (isna v)) (question_cells df)) (question_cells df).
Proof.
  unfold dropna_questions.
  generalize (List.map (fun v => negb (isna v)) (question_cells df)) at 1 2.
  intros mask. unfold question_cells.
  induction df as [|c df IH]; simpl; [rewrite select_nil_r; reflexivity|].
  destruct (bool_decide (fst c = QUESTION_TEXT)); [reflexivity | exact IH].
Qed.

Lemma question_cells_clean (df : DataFrame) :
  question_cells (clean_questions df)
  = List.map (fun v => of_option (clean_text v)) (question_cells df).
Proof.
  unfold question_cells, clean_questions.
  induction df as [|c df IH]; simpl; [reflexivity|].
  destruct (bool_decide (fst c = QUESTION_TEXT)) eqn:E; simpl; rewrite E;
    [reflexivity | exact IH].
Qed.

Lemma clean_text_fixed v t : clean_text v = Some t -> clean_text (VStr t) = Some t.
Proof.
  intros H. pose proof (clean_text_shape v) as Hs. rewrite H in Hs.
  destruct Hs as (ls & -> & Hls & Hc & Hl & Hr & Hne).
  apply clean_lines_fixed; assumption.
Qed.

Lemma clean_text_nonempty v t : clean_text v = Some t -> t <> [].
Proof.
  intros H. pose proof (clean_text_shape v) as Hs. rewrite H in Hs.
  destruct Hs as (ls & _ & _ & _ & _ & _ & Hne). exact Hne.
Qed.

(** The question cells of the prepared table are normalised texts. *)
Lemma prepared_question_cells (df : DataFrame) question_col v :
  In v (question_cells (prepare df question_col)) ->
  exists v0 t, v = VStr t /\ clean_text v0 = Some t.
Proof.
  unfold prepare. rewrite question_cells_dropna.
  intros H. apply In_select_self in H as [H Hna].
  rewrite question_cells_clean in H. apply in_map_iff in H as (v0 & <- & _).
  destruct (clean_text v0) as [t|] eqn:E; [|discriminate]. eauto.
Qed.

(** The model columns of the prepared table carry labels of the frame other
    than the question column. *)
Lemma prepared_model_labels (df : DataFrame) question_col c :
  In c (model_columns (prepare df question_col)) ->
  In (fst c) (labels df) /\ fst c <> question_column df question_col.
Proof.
  unfold model_columns. intros H. apply filter_In in H as [Hin Hl].
  apply negb_true_iff, bool_decide_eq_false in Hl.
  assert (Hlab : In (fst c) (labels (prepare df question_col)))
    by (apply in_map, Hin).
  rewrite labels_prepare in Hlab. unfold labels, rename in Hlab.
  rewrite List.map_map in Hlab. apply in_map_iff in Hlab as (c0 & Hc0 & Hin0).
  simpl in Hc0. destruct (bool_decide (fst c0 = question_column df question_col)) eqn:E.
  - congruence.
  - apply bool_decide_eq_false in E. rewrite <- Hc0.
    split; [apply in_map, Hin0 | exact E].
Qed.

(** The fields of a melted record come from the three columns of the melt. *)
Lemma long_rows_fields na (table : DataFrame) r :
  In r (long_rows na table) ->
  exists qv c av,
    In qv (question_cells table) /\ In c (model_columns table)
    /\ question_text r = as_text qv
    /\ model_name r = Some (strip (py_str (fst c)))
    /\ answer_text r = answer_cell na (clean_text av).
Proof.
  unfold long_rows. intros H. apply in_map_iff in H as ([qv [label av]] & <- & Hin).
  apply in_combine_l in Hin as Hq. apply in_combine_r in Hin as Hrest.
  apply in_combine_l in Hrest as Hl.
  unfold melt_id in Hq. apply in_concat in Hq as (l & Hl1 & Hl2).
  apply repeat_spec in Hl1. subst l.
  unfold melt_variable in Hl. apply in_flat_map in Hl as (c & Hc & Hrep).
  apply repeat_spec in Hrep. subst label.
  exists qv, c, av. simpl. repeat split; auto.
Qed.

(** Every record of the default batch has a question text and an answer
    text that are non-empty normalised texts, and the stripped label of a
    column other than the question column as model name. *)
Lemma reshape_default_fields na (df : DataFrame) question_col r :
  In r (reshape na df question_col false) ->
  (exists t, question_text r = Some t /\ t <> [])
  /\ (exists label, In label (labels df)
                    /\ label <> question_column df question_col
                    /\ model_name r = Some (strip (py_str label)))
  /\ (exists a, answer_text r = FStr a /\ a <> []).
Proof.
  unfold reshape. simpl. intros H. apply filter_In in H as [H Ha].
  apply long_rows_fields in H as (qv & c & av & Hq & Hc & Eq & Em & Ea).
  apply prepared_question_cells in Hq as (v0 & t & -> & Ht).
  apply prepared_model_labels in Hc as [Hl Hne].
  split; [exists t; split; [exact Eq | eapply clean_text_nonempty; exact Ht]|].
  split; [exists (fst c); auto|].
  unfold has_answer in Ha. rewrite Ea in Ha |- *.
  destruct (clean_text av) as [a|] eqn:E; [|destruct na; discriminate].
  exists a. split; [reflexivity | eapply clean_text_nonempty; exact E].
Qed.

(** A batch without NaN for answer loads: the answer phase finds every key
    and every row it adds is accepted. *)
Lemma load_returns con long_df nq na :
  (forall r, In r long_df -> guard r = true -> has_answer r = true) ->
  exists d3 a b,
    load con long_df nq na = (d3, Returned (a, b, length (List.filter guard long_df))).
Proof.
  intros Htext.
  pose proof (resolution_complete (create_schema con) long_df nq) as Hres.
  cbv zeta in Hres. unfold load.
  destruct (upsert_model_ids (create_schema con)
              (unique (dropna (List.map model_name long_df)))) as [d1 mm] eqn:Eum.
  cbn [fst snd] in Hres.
  destruct (upsert_questions d1 (unique (dropna (List.map question_text long_df))) nq)
    as [d2 qm] eqn:Euq.
  cbn [fst snd] in Hres.
  destruct (answers_loop_returns qm mm na long_df d2 0) as [d3 Hret].
  { intros r Hin Hg. split; [apply Htext; assumption|].
    destruct (Hres r Hin Hg) as (q & m & qid & mid & Eq & Em & Hq & Hm & Hqi & Hmi).
    exists qid, mid. repeat split; auto.
    unfold resolve, subscript. rewrite Eq, Em, Hq, Hm. reflexivity. }
  unfold insert_or_update_answers. rewrite Hret. simpl. eauto.
Qed.

(** X17: what [read_table] returns under the default policy loads in full:
    when no column other than the question column has a blank label, every
    long record passes the guard of the answer upsert, the load returns, and
    the number of answers it reports is the number of long records parsed. *)
Theorem read_then_load
    (na : na_value) (con : option db) (df : DataFrame) (question_col : option str)
    (tq ta : timestamp) (batch : list long_record) :
  read_frame na df question_col false = Returned batch ->
  (forall label, In label (labels df) ->
     label <> question_column df question_col -> strip (py_str label) <> []) ->
  Forall (fun r => guard r = true) batch
  /\ exists d' a b, load con batch tq ta = (d', Returned (a, b, length batch)).
Proof.
  intros Hread Hlabels. apply read_frame_returned in Hread. subst batch.
  assert (Hg : Forall (fun r => guard r = true /\ has_answer r = true)
                 (reshape na df question_col false)).
  { apply List.Forall_forall. intros r Hr.
    destruct (reshape_default_fields na df question_col r Hr)
      as ((t & Et & Ht) & (label & Hl & Hne & Em) & (a & Ea & Ha)).
    unfold guard, has_answer. rewrite Et, Em, Ea.
    specialize (Hlabels label Hl Hne).
    destruct t; [congruence|]. destruct (strip (py_str label)); [congruence|].
    destruct a; [congruence|]. split; reflexivity. }
  split; [eapply List.Forall_impl; [|exact Hg]; intros r [H _]; exact H|].
  destruct (load_returns con (reshape na df question_col false) tq ta)
    as (d' & a & b & H).
  { intros r Hr _. rewrite List.Forall_forall in Hg. apply Hg, Hr. }
  exists d', a, b. rewrite H. repeat f_equal.
  clear H. induction Hg as [|r l [Hr _] Hl IH]; simpl; [reflexivity|].
  rewrite Hr. simpl. f_equal. exact IH.
Qed.

Lemma read_then_load_witness :
  read_frame AsNaN Sample.sheet None false = Returned Sample.batch
  /\ (forall label, In label (labels Sample.sheet) ->
        label <> question_column Sample.sheet None -> strip (py_str label) <> [])
  /\ Forall (fun r => guard r = true) Sample.batch
  /\ exists d' a b,
       load None Sample.batch 100%Z 200%Z = (d', Returned (a, b, length Sample.batch)).
Proof.
  assert (Hr : read_frame AsNaN Sample.sheet None false = Returned Sample.batch)
    by (vm_compute; reflexivity).
  assert (H : forall label, In label (labels Sample.sheet) ->
                label <> question_column Sample.sheet None -> strip (py_str label) <> []).
  { intros label [<-|[<-|[<-|[]]]] Hne; vm_compute; [|discriminate|discriminate].
    intros _. apply Hne. reflexivity. }
  split; [exact Hr|]. split; [exact H|].
  exact (read_then_load AsNaN None Sample.sheet None 100%Z 200%Z Sample.batch Hr H).
Defined.

(** *** Rows kept by a mask *)




Lemma NoDup_map_injective {A B} (f : A -> B) (l : list A) (x y : A) :
  List.NoDup (List.map f l) -> In x l -> In y l -> f x = f y -> x = y.
Proof.
  induction l as [|z l IH]; simpl; intros Hnd Hx Hy Hf; [destruct Hx|].
  inversion Hnd as [|? ? Hnin Hnd']; subst.
  destruct Hx as [->|Hx], Hy as [->|Hy]; auto.
  - exfalso. apply Hnin. rewrite Hf. apply in_map, Hy.
  - exfalso. apply Hnin. rewrite <- Hf. apply in_map, Hx.
Qed.

Lemma NoDup_map_on {A B} (f : A -> B) (l : list A) :
  (forall x y, In x l -> In y l -> f x = f y -> x = y) ->
  List.NoDup l -> List.NoDup (List.map f l).
Proof.
  induction l as [|z l IH]; simpl; intros Hinj Hnd; [apply List.NoDup_nil|].
  inversion Hnd as [|? ? Hnin Hnd']; subst.
  apply List.NoDup_cons.
  - intros Hc. apply in_map_iff in Hc as (y & Hy & Hin).
    apply Hnin. rewrite (Hinj z y); auto.
  - apply IH; [|exact Hnd']. intros x y Hx Hy. apply Hinj; auto.
Qed.

Lemma NoDup_same_length {A} (l l' : list A) :
  List.NoDup l -> List.NoDup l' -> (forall x, In x l <-> In x l') ->
  length l = length l'.
Proof.
  intros H H' Hm. apply Nat.le_antisymm.
  - apply NoDup_incl_length; [exact H|]. intros x Hx. apply Hm, Hx.
  - apply NoDup_incl_length; [exact H'|]. intros x Hx. apply Hm, Hx.
Qed.

(** *** The prepared table in terms of the frame *)

Section Prepared.

Variable df : DataFrame.
Variable question_col : option str.
Variable qcells : list value.

Hypothesis Hdom : in_domain df question_col = true.
Hypothesis Hqcol : In (question_column df question_col, qcells) df.






End Prepared.











(** ** Resolution on a table without rows *)

Lemma fold_max_seq k : forall a i,
  (i <= Z.of_nat a)%Z ->
  fold_right Z.max i (List.map Z.of_nat (seq a k))
  = match k with 0 => i | S _ => Z.of_nat (a + k - 1) end.
Proof.
  induction k as [|k IH]; intros a i Hi; [reflexivity|].
  simpl. rewrite (IH (S a) i) by lia. destruct k; lia.
Qed.

Lemma next_rowid_first_ids n : next_rowid (first_ids n) = Z.of_nat (S n).
Proof.
  unfold first_ids, next_rowid. destruct n as [|n]; [reflexivity|].
  cbn [seq List.map]. change (Z.of_nat 1) with 1%Z.
  rewrite (fold_max_seq n 2 1%Z) by lia. destruct n; lia.
Qed.

Lemma first_ids_succ n : first_ids (S n) = first_ids n ++ [Z.of_nat (S n)].
Proof. unfold first_ids. rewrite seq_S, List.map_app. reflexivity. Qed.

Lemma ascending_NoDup l : ascending l -> List.NoDup l.
Proof.
  induction l as [|x l IH]; simpl; intros H; [apply List.NoDup_nil|].
  destruct H as [Hx Hl]. apply List.NoDup_cons; [|apply IH, Hl].
  apply ascending_head_not_in, Hx.
Qed.

Lemma ascending_filter (p : str -> bool) l : ascending l -> ascending (List.filter p l).
Proof.
  induction l as [|x l IH]; simpl; intros H; [exact I|].
  destruct H as [Hx Hl]. destruct (p x); simpl; [|apply IH, Hl].
  split; [|apply IH, Hl].
  apply List.Forall_forall. intros y Hy. apply filter_In in Hy as [Hy _].
  rewrite List.Forall_forall in Hx. apply Hx, Hy.
Qed.

Lemma insert_models_skip_empty l : forall d,
  fold_left (fun d name =>
               match name with
               | [] => d
               | _ :: _ => insert_or_ignore_model name d
               end) l d
  = fold_left (fun d name => insert_or_ignore_model name d)
      (List.filter non_empty l) d.
Proof.
  induction l as [|x l IH]; intros d; [reflexivity|].
  simpl. destruct x as [|c x]; simpl; apply IH.
Qed.

(** Inserting names that are new and pairwise distinct into a table whose
    ids are [1..n] appends them in order with the next ids. *)
Lemma insert_models_fresh l : forall d,
  List.NoDup l ->
  (forall x, In x l -> ~ In x (List.map m_name (models d))) ->
  List.map m_id (models d) = first_ids (length (models d)) ->
  let d' := fold_left (fun d name => insert_or_ignore_model name d) l d in
  List.map m_name (models d') = List.map m_name (models d) ++ l
  /\ List.map m_id (models d') = first_ids (length (models d) + length l).
Proof.
  induction l as [|x l IH]; intros d Hnd Hnew Hids; simpl.
  - rewrite app_nil_r, Nat.add_0_r. split; [reflexivity | exact Hids].
  - inversion Hnd as [|? ? Hx Hnd']; subst.
    unfold insert_or_ignore_model at 2 4.
    destruct (existsb (fun r => bool_decide (m_name r = x)) (models d)) eqn:E.
    { apply existsb_m_name in E. destruct (Hnew x (or_introl eq_refl) E). }
    set (d1 := {| questions := questions d;
                  models := models d ++
                    [{| m_id := next_rowid (List.map m_id (models d)); m_name := x |}];
                  answers := answers d |}).
    destruct (IH d1 Hnd') as [H1 H2].
    + intros y Hy. simpl. rewrite List.map_app, in_app_iff. simpl.
      intros [H|[H|[]]]; [exact (Hnew y (or_intror Hy) H) | subst; contradiction].
    + simpl. rewrite List.map_app, List.length_app. simpl.
      rewrite Hids, next_rowid_first_ids, Nat.add_1_r, first_ids_succ. reflexivity.
    + cbv zeta in H1, H2. rewrite H1, H2. simpl.
      rewrite List.map_app, List.length_app, <- app_assoc. simpl.
      split; [reflexivity | f_equal; lia].
Qed.

(** X19: on a store without models, [upsert_model_ids] creates one row for
    each non-empty name of the batch, in ascending order of name (Python's
    order of [str]), with the ids 1, 2, ... in that order. *)
Theorem upsert_model_ids_fresh (d : db) (names : list str) :
  models d = [] ->
  let created := List.filter non_empty (sorted_set names) in
  List.map m_name (models (fst (upsert_model_ids d names))) = created
  /\ List.map m_id (models (fst (upsert_model_ids d names)))
     = first_ids (length created)
  /\ ascending created
  /\ (forall x, In x created <-> In x names /\ x <> []).
Proof.
  intros Hd created. unfold upsert_model_ids. simpl fst.
  rewrite insert_models_skip_empty. fold created.
  assert (Hasc : ascending created)
    by (apply ascending_filter, sorted_set_ascending).
  destruct (insert_models_fresh created d (ascending_NoDup _ Hasc)) as [H1 H2].
  - intros x _. rewrite Hd. intros [].
  - rewrite Hd. reflexivity.
  - cbv zeta in H1, H2. rewrite Hd in H1, H2. simpl in H1, H2.
    split; [exact H1|]. split; [exact H2|]. split; [exact Hasc|].
    intros x. unfold created. rewrite filter_In, In_sorted_set.
    destruct x; simpl; split; intros [Hx Hne]; split; auto; congruence.
Qed.

Lemma upsert_model_ids_fresh_witness :
  models empty_db = []
  /\ List.map (fun r => (m_id r, m_name r))
       (models (fst (upsert_model_ids empty_db [Sample.gpt; []; Sample.claude; Sample.gpt])))
     = [(1%Z, Sample.claude); (2%Z, Sample.gpt)]
  /\ List.map m_id
       (models (fst (upsert_model_ids empty_db [Sample.gpt; []; Sample.claude; Sample.gpt])))
     = first_ids (length (List.filter non_empty
                            (sorted_set [Sample.gpt; []; Sample.claude; Sample.gpt]))).
Proof.
  assert (H : models empty_db = []) by reflexivity.
  split; [exact H|]. split; [vm_compute; reflexivity|].
  exact (proj1 (proj2 (upsert_model_ids_fresh empty_db
                         [Sample.gpt; []; Sample.claude; Sample.gpt] H))).
Defined.

Lemma unique_from_seen l : forall seen seen',
  (forall x, In x seen <-> In x seen') -> unique_from seen l = unique_from seen' l.
Proof.
  induction l as [|x l IH]; intros seen seen' H; [reflexivity|].
  simpl.
  assert (Hb : bool_decide (x ∈ seen) = bool_decide (x ∈ seen')).
  { apply bool_decide_ext. rewrite !list_elem_of_In. apply H. }
  rewrite Hb. destruct (bool_decide (x ∈ seen')).
  - apply IH, H.
  - f_equal. apply IH. intros y. simpl. rewrite H. tauto.
Qed.

(** Inserting question texts into a table whose ids are [1..n] appends the
    texts that are new, once each and in order of first appearance, with the
    next ids and the clock reading of the call. *)
Lemma insert_questions_fresh now qs : forall d,
  List.map q_id (questions d) = first_ids (length (questions d)) ->
  let d' := fold_left (fun d q => insert_or_ignore_question q now d) qs d in
  let created := unique_from (List.map q_text (questions d)) qs in
  List.map q_text (questions d') = List.map q_text (questions d) ++ created
  /\ List.map q_id (questions d') = first_ids (length (questions d) + length created)
  /\ List.map q_created_at (questions d')
     = List.map q_created_at (questions d) ++ repeat now (length created).
Proof.
  induction qs as [|q qs IH]; intros d Hids; simpl.
  - rewrite !app_nil_r, Nat.add_0_r. auto.
  - unfold insert_or_ignore_question at 2 4 6.
    destruct (existsb (fun r => bool_decide (q_text r = q)) (questions d)) eqn:E.
    + apply existsb_q_text in E.
      rewrite bool_decide_eq_true_2 by (apply list_elem_of_In; exact E).
      apply IH, Hids.
    + assert (Hn : ~ In q (List.map q_text (questions d)))
        by (intros Hc; apply existsb_q_text in Hc; congruence).
      rewrite bool_decide_eq_false_2 by (rewrite list_elem_of_In; exact Hn).
      set (d1 := {| questions := questions d ++
                      [{| q_id := next_rowid (List.map q_id (questions d));
                          q_text := q; q_created_at := now |}];
                    models := models d; answers := answers d |}).
      destruct (IH d1) as (H1 & H2 & H3).
      * simpl. rewrite List.map_app, List.length_app. simpl.
        rewrite Hids, next_rowid_first_ids, Nat.add_1_r, first_ids_succ. reflexivity.
      * cbv zeta in H1, H2, H3. rewrite H1, H2, H3. simpl.
        rewrite !List.map_app, List.length_app, <- !app_assoc. simpl.
        rewrite (unique_from_seen qs (List.map q_text (questions d) ++ [q])
                   (q :: List.map q_text (questions d)))
          by (intros y; rewrite in_app_iff; simpl; tauto).
        repeat split; [f_equal; lia].
Qed.

(** X20: on a store without questions, [upsert_questions] creates one row
    for each distinct text of the batch, in order of first appearance, with
    the ids 1, 2, ... in that order and the clock reading of the call. *)
Theorem upsert_questions_fresh (d : db) (qs : list str) (now : timestamp) :
  questions d = [] ->
  List.map q_text (questions (fst (upsert_questions d qs now))) = unique qs
  /\ List.map q_id (questions (fst (upsert_questions d qs now)))
     = first_ids (length (unique qs))
  /\ List.map q_created_at (questions (fst (upsert_questions d qs now)))
     = repeat now (length (unique qs)).
Proof.
  intros Hd. unfold upsert_questions. simpl fst.
  destruct (insert_questions_fresh now qs d) as (H1 & H2 & H3).
  - rewrite Hd. reflexivity.
  - cbv zeta in H1, H2, H3. rewrite Hd in H1, H2, H3. simpl in H1, H2, H3.
    unfold unique. auto.
Qed.

Lemma upsert_questions_fresh_witness :
  questions empty_db = []
  /\ List.map q_text
       (questions (fst (upsert_questions empty_db
                          [Sample.q2; Sample.q1; Sample.q2] 100%Z)))
     = [Sample.q2; Sample.q1]
  /\ List.map q_id
       (questions (fst (upsert_questions empty_db
                          [Sample.q2; Sample.q1; Sample.q2] 100%Z)))
     = first_ids (length (unique [Sample.q2; Sample.q1; Sample.q2])).
Proof.
  assert (H : questions empty_db = []) by reflexivity.
  split; [exact H|]. split; [vm_compute; reflexivity|].
  exact (proj1 (proj2 (upsert_questions_fresh empty_db
                         [Sample.q2; Sample.q1; Sample.q2] 100%Z H))).
Defined.


(** ** One answer row per pair *)

Lemma resolve_text_pair qid_map model_map r :
  resolve qid_map model_map r = resolve_pair qid_map model_map (text_pair r).
Proof. reflexivity. Qed.

(** Dictionaries read back from tables with distinct texts and distinct
    ids send different texts to different ids. *)
Lemma dict_of_rows_injective {A} (key : A -> str) (val : A -> Z) (rows : list A)
    (t t' : str) (v : Z) :
  List.NoDup (List.map key rows) -> List.NoDup (List.map val rows) ->
  fold_left (fun m r => <[key r := val r]> m) rows (∅ : gmap str Z) !! t = Some v ->
  fold_left (fun m r => <[key r := val r]> m) rows (∅ : gmap str Z) !! t' = Some v ->
  t = t'.
Proof.
  intros Hk Hv H H'.
  apply (dict_of_rows_exact key val rows t v Hk) in H as (row & Hin & <- & Hval).
  apply (dict_of_rows_exact key val rows t' v Hk) in H' as (row' & Hin' & <- & Hval').
  f_equal. apply (NoDup_map_injective val rows); auto. congruence.
Qed.

(** X21: a load into a new database of a batch without NaN for answer (as
    every batch [main] passes) returns, and leaves exactly one answer row
    for each distinct (question text, model name) pair among the records
    that pass the guard, however often a pair comes in the batch; the count
    it reports is the number of those records. *)
Theorem load_new_database_answers
    (long_df : list long_record) (nq na : timestamp) :
  Forall (fun r => answer_text r <> FNaN) long_df ->
  exists d' a b,
    load None long_df nq na = (d', Returned (a, b, length (List.filter guard long_df)))
    /\ length (answers d')
       = length (remove_dups (List.map text_pair (List.filter guard long_df))).
Proof.
  intros Hnan.
  assert (Htext : forall r, In r long_df -> guard r = true -> has_answer r = true).
  { intros r Hr Hg. apply guard_not_nan; [exact Hg|].
    rewrite List.Forall_forall in Hnan. apply Hnan, Hr. }
  pose proof (resolution_complete (create_schema None) long_df nq) as Hres.
  cbv zeta in Hres. unfold load.
  set (names := unique (dropna (List.map model_name long_df))) in *.
  set (qs := unique (dropna (List.map question_text long_df))) in *.
  assert (Hreach : reachable (fst (upsert_questions
                     (fst (upsert_model_ids (create_schema None) names)) qs nq)))
    by (apply reach_questions, reach_models, reach_new).
  apply reachable_consistent in Hreach as ([Hut Hun] & (Hiq & Him & _) & _).
  pose proof (upsert_model_ids_frame (create_schema None) names) as [_ Hfa].
  pose proof (upsert_questions_frame
                (fst (upsert_model_ids (create_schema None) names)) qs nq) as [Hgm Hga].
  assert (Hmm : snd (upsert_model_ids (create_schema None) names)
                = fold_left (fun m r => <[m_name r := m_id r]> m)
                    (models (fst (upsert_model_ids (create_schema None) names))) ∅)
    by reflexivity.
  assert (Hqm : snd (upsert_questions
                       (fst (upsert_model_ids (create_schema None) names)) qs nq)
                = fold_left (fun m r => <[q_text r := q_id r]> m)
                    (questions (fst (upsert_questions
                       (fst (upsert_model_ids (create_schema None) names)) qs nq))) ∅)
    by reflexivity.
  destruct (upsert_model_ids (create_schema None) names) as [dm mm] eqn:Em.
  cbn [fst snd] in *.
  destruct (upsert_questions dm qs nq) as [dq qm] eqn:Eq.
  cbn [fst snd] in *.
  rewrite Hgm in Hun, Him.
  destruct (answers_loop_returns qm mm na long_df dq 0) as [d3 Hret].
  { intros r Hin Hg. split; [apply Htext; assumption|].
    destruct (Hres r Hin Hg) as (q & m & qid & mid & Eq' & Em' & Hq & Hm & Hqi & Hmi).
    exists qid, mid. repeat split; auto.
    unfold resolve, subscript. rewrite Eq', Em', Hq, Hm. reflexivity. }
  unfold insert_or_update_answers. rewrite Hret. simpl Nat.add.
  exists d3, (size qm), (size mm). split; [reflexivity|].
  (* the answer rows *)
  pose proof (answers_loop_spec qm mm na long_df dq 0 d3 _ Hret)
    as (_ & _ & _ & (news & Hans & Hnews) & Hpres).
  assert (Hempty : answers dq = []) by (rewrite Hga, Hfa; reflexivity).
  rewrite Hempty in Hans. simpl in Hans.
  pose proof (answers_loop_nodup qm mm na long_df dq 0) as Hnd.
  rewrite Hempty, Hret in Hnd. specialize (Hnd (List.NoDup_nil _)). simpl in Hnd.
  set (tps := remove_dups (List.map text_pair (List.filter guard long_df))).
  assert (Htps : List.NoDup tps) by (apply NoDup_ListNoDup, NoDup_remove_dups).
  assert (Hmem : forall tp, In tp tps <->
                   exists r, In r long_df /\ guard r = true /\ text_pair r = tp).
  { intros tp. unfold tps. rewrite <- list_elem_of_In, elem_of_remove_dups,
      list_elem_of_In, in_map_iff.
    split; intros (r & H1 & H2).
    - apply filter_In in H2 as [H2 H3]. eauto.
    - destruct H2 as [H2 H3]. exists r. split; [exact H3|].
      apply filter_In. auto. }
  (* resolution is injective on the text pairs of the batch *)
  assert (Hinj : forall tp tp', In tp tps -> In tp' tps ->
                   resolve_pair qm mm tp = resolve_pair qm mm tp' -> tp = tp').
  { intros tp tp' Htp Htp' Heq.
    apply Hmem in Htp as (r & Hr & Hg & <-).
    apply Hmem in Htp' as (r' & Hr' & Hg' & <-).
    destruct (Hres r Hr Hg) as (q & m & qid & mid & E1 & E2 & Hq & Hm & _).
    destruct (Hres r' Hr' Hg') as (q' & m' & qid' & mid' & E1' & E2' & Hq' & Hm' & _).
    unfold resolve_pair, text_pair, subscript in Heq |- *. simpl in Heq |- *.
    rewrite E1, E2, E1', E2', Hq, Hm, Hq', Hm' in Heq.
    injection Heq as <- <-. rewrite E1, E2, E1', E2'.
    rewrite Hqm in Hq, Hq'. rewrite Hmm in Hm, Hm'.
    rewrite (dict_of_rows_injective q_text q_id _ q q' qid Hut Hiq Hq Hq').
    rewrite (dict_of_rows_injective m_name m_id _ m m' mid Hun Him Hm Hm').
    reflexivity. }
  assert (Hl : length (List.map (fun row => Some (pair_of row)) (answers d3))
               = length (List.map (resolve_pair qm mm) tps)).
  { apply NoDup_same_length.
    - rewrite <- (List.map_map pair_of Some). apply NoDup_map_on; [|exact Hnd].
      intros x y _ _ [= H]. exact H.
    - apply NoDup_map_on; assumption.
    - intros o. rewrite !in_map_iff. split.
      + intros (row & <- & Hrow). rewrite Hans in Hrow.
        rewrite List.Forall_forall in Hnews. destruct (Hnews row Hrow) as [Hlw _].
        destruct (matched qm mm long_df row) eqn:Ematch.
        * unfold matched in Ematch. apply existsb_exists in Ematch as (r & Hr & Hh).
          unfold hits in Hh. apply andb_true_iff in Hh as [Hg Hh].
          apply andb_true_iff in Hg as [Hg _].
          apply bool_decide_eq_true in Hh.
          exists (text_pair r). split; [rewrite <- resolve_text_pair; exact Hh|].
          apply Hmem. eauto.
        * apply last_write_matched in Ematch. congruence.
      + intros (tp & <- & Htp). apply Hmem in Htp as (r & Hr & Hg & <-).
        rewrite List.Forall_forall in Hpres.
        destruct (Hpres r Hr Hg) as (p & Hp & Hin).
        apply in_map_iff in Hin as (row & <- & Hrow).
        exists row. split; [rewrite <- resolve_text_pair; symmetry; exact Hp | exact Hrow]. }
  rewrite !List.length_map in Hl. exact Hl.
Qed.

Lemma load_new_database_answers_witness :
  Forall (fun r => answer_text r <> FNaN) Sample.batch_repeat
  /\ exists d' a b,
       load None Sample.batch_repeat 100%Z 200%Z
       = (d', Returned (a, b, length (List.filter guard Sample.batch_repeat)))
       /\ length (answers d')
          = length (remove_dups
                      (List.map text_pair (List.filter guard Sample.batch_repeat))).
Proof.
  assert (H : Forall (fun r => answer_text r <> FNaN) Sample.batch_repeat)
    by (repeat constructor; discriminate).
  split; [exact H|].
  exact (load_new_database_answers Sample.batch_repeat 100%Z 200%Z H).
Defined.
